(** * SAMUDRA: the ARGO float ingestion core of [app.js]

    A shallow embedding of the data-processing part of the Express server
    ([toNumber], the row callback of [loadFloatsStreaming], the cycle
    segmentation of [finalizeFloatsFromMap] and the single-flight cache
    [ensureCache]) together with the properties the specification states
    about it; then the rest of the file ([listFilesRecursive],
    [parseCsvLine], [parseCsvFileStream] and the two API routes) with
    properties read off the code.

    Conventions of the embedding.
    - A JavaScript number is an IEEE 754 binary64 value, modelled by
      [spec_float] with precision 53 and maximal exponent 1024; every
      arithmetic operator is the correctly rounded one of [SpecFloat].
    - [null] in a numeric field is [None].
    - A JavaScript string is a [string] whose characters are read as the
      code units 0..255 (Latin-1); the built-ins [trim] and [toLowerCase]
      are modelled on that range.
    - An exception is an explicit [None] (or a dedicated constructor) in the
      result type.
    - A plain object is the list of its own properties in the order of
      [Object.keys]: array indices first, ascending, then the other keys
      in the order of their creation. *)

From Stdlib Require Import ZArith Bool List String Ascii Lia Sorted.
From Stdlib Require Import SpecFloat.
From stdpp Require Import base option list gmap strings.
Import ListNotations.

Local Open Scope Z_scope.

(** ** JavaScript numbers *)

Module Num.

Definition prec : Z := 53.
Definition emax : Z := 1024.

Definition number : Type := spec_float.

Definition add : number -> number -> number := SFadd prec emax.
Definition sub : number -> number -> number := SFsub prec emax.
Definition mul : number -> number -> number := SFmul prec emax.
Definition div : number -> number -> number := SFdiv prec emax.
Definition abs : number -> number := SFabs.

(** [a < b] and [a > b]; both are false as soon as one side is NaN. *)
Definition lt (a b : number) : bool := SFltb a b.
Definition gt (a b : number) : bool := SFltb b a.

(** [a === b] on numbers: [+0] and [-0] are equal, NaN equals nothing. *)
Definition eqb (a b : number) : bool := SFeqb a b.

(** The number with the given integer value, rounded to nearest even. *)
Definition ofZ (z : Z) : number := binary_normalize prec emax z 0 false.

Definition zero : number := S754_zero false.
Definition negInfinity : number := S754_infinity true.
Definition NaN : number := S754_nan.

(** [Number.isFinite]. *)
Definition isFinite (x : number) : bool :=
  match x with
  | S754_zero _ | S754_finite _ _ _ => true
  | S754_infinity _ | S754_nan => false
  end.

(** ToBoolean on a number: [+0], [-0] and NaN are falsy. *)
Definition truthy (x : number) : bool :=
  match x with
  | S754_zero _ | S754_nan => false
  | S754_infinity _ | S754_finite _ _ _ => true
  end.

(** Truncation toward zero of a finite number (ToIntegerOrInfinity). *)
Definition trunc (x : number) : option Z :=
  match x with
  | S754_zero _ => Some 0
  | S754_finite s m e =>
      let a := if 0 <=? e then Z.shiftl (Zpos m) e
               else Z.shiftr (Zpos m) (- e) in
      Some (if s then - a else a)
  | S754_infinity _ | S754_nan => None
  end.

End Num.

Abbreviation number := Num.number.

(** A numeric field that may hold [null]. *)
Definition nullable : Type := option number.

(** ToNumber of a nullable number: [null] becomes [+0]. *)
Definition toNum (v : nullable) : number :=
  match v with Some x => x | None => Num.zero end.

(** ToBoolean of a nullable number: [null] is falsy. *)
Definition truthy (v : nullable) : bool :=
  match v with Some x => Num.truthy x | None => false end.

(** [v ?? d] *)
Definition nullish (v : nullable) (d : number) : number :=
  match v with Some x => x | None => d end.

(** ** Data model *)

(** The entry object built by the row callback. *)
Record Entry : Type := mkEntry {
  latitude : number;
  longitude : number;
  pres : nullable;
  juld : nullable;
  temp : nullable;
  psal : nullable;
  doxy : nullable;
  nitrate : nullable;
  ph : nullable;
  organization : string;
  dateIso : option string
}.

(** The nine-field object stored in [cycles] of a finished record. *)
Record ProfilePoint : Type := mkProfilePoint {
  pp_latitude : number;
  pp_longitude : number;
  pp_pres : nullable;
  pp_juld : nullable;
  pp_temp : nullable;
  pp_psal : nullable;
  pp_doxy : nullable;
  pp_nitrate : nullable;
  pp_ph : nullable
}.

Inductive SourceType : Type := bgc | core.

Definition isBgc (t : SourceType) : bool :=
  match t with bgc => true | core => false end.

(** The value of [idToEntries] for one platform.  [btype] is [None] when
    the property is missing (falsy). *)
Record Bucket : Type := mkBucket {
  entries : list Entry;
  btype : option SourceType
}.

Record FloatRecord : Type := mkFloat {
  id : string;
  type : SourceType;
  latest : Entry;
  history : list Entry;
  cycles : list (list ProfilePoint)
}.

(** ** [finalizeFloatsFromMap] *)

(** The comparator handed to [entries.sort]. *)
Definition compareJuld (a b : Entry) : number :=
  let aj := nullish (juld a) Num.negInfinity in
  let bj := nullish (juld b) Num.negInfinity in
  Num.sub aj bj.

(** [b] does not sort strictly before [a]. *)
Definition notBefore {A} (cmp : A -> A -> number) (a b : A) : Prop :=
  Num.lt (cmp b a) Num.zero = false.

(** [Array.prototype.sort] is stable; for a comparator it is modelled by
    the stable insertion sort: a new element goes after every element it is
    not strictly smaller than (a NaN result counts as "equal"). *)
Fixpoint insertBy {A} (cmp : A -> A -> number) (x : A) (l : list A) : list A :=
  match l with
  | [] => [x]
  | y :: l' =>
      if Num.lt (cmp x y) Num.zero then x :: y :: l'
      else y :: insertBy cmp x l'
  end.

Definition sortBy {A} (cmp : A -> A -> number) (l : list A) : list A :=
  fold_left (fun acc x => insertBy cmp x acc) l [].

Definition one : number := Num.ofZ 1.
Definition fifty : number := Num.ofZ 50.

(** The mutable locals of the segmentation loop. *)
Record Walk : Type := mkWalk {
  w_cycles : list (list Entry);
  currentCycle : list Entry;
  lastJuld : nullable;
  lastPres : nullable
}.

Definition walk0 : Walk :=
  {| w_cycles := []; currentCycle := []; lastJuld := None; lastPres := None |}.

Definition timeGap (lastJuld : nullable) (entry : Entry) : number :=
  if truthy lastJuld
  then Num.abs (Num.sub (toNum (juld entry)) (toNum lastJuld))
  else Num.zero.

Definition presGap (lastPres : nullable) (entry : Entry) : number :=
  if truthy lastPres
  then Num.abs (Num.sub (toNum (pres entry)) (toNum lastPres))
  else Num.zero.

(** The condition of the [if] in the loop body. *)
Definition newCycle (index : nat) (w : Walk) (entry : Entry) : bool :=
  Nat.eqb index 0
  || Num.gt (timeGap (lastJuld w) entry) one
  || (Num.gt (presGap (lastPres w) entry) fifty
      && Num.lt (toNum (pres entry)) (toNum (lastPres w))).

(** [if (currentCycle.length > 0) cycles.push(currentCycle)]: the array
    [cycles] afterwards. *)
Definition pushCurrent (w : Walk) : list (list Entry) :=
  match currentCycle w with
  | [] => w_cycles w
  | _ :: _ => w_cycles w ++ [currentCycle w]
  end.

(** One call of the [forEach] callback. *)
Definition visit (w : Walk) (index : nat) (entry : Entry) : Walk :=
  if newCycle index w entry then
    {| w_cycles := pushCurrent w;
       currentCycle := [entry];
       lastJuld := juld entry;
       lastPres := pres entry |}
  else
    {| w_cycles := w_cycles w;
       currentCycle := currentCycle w ++ [entry];
       lastJuld := juld entry;
       lastPres := pres entry |}.

(** [entries.forEach((entry, index) => ...)], from position [index] on. *)
Fixpoint forEachFrom (index : nat) (l : list Entry) (w : Walk) : Walk :=
  match l with
  | [] => w
  | entry :: rest => forEachFrom (S index) rest (visit w index entry)
  end.

(** The array [cycles] once the loop and the final [push] are done. *)
Definition segment (sorted : list Entry) : list (list Entry) :=
  pushCurrent (forEachFrom 0 sorted walk0).

Definition toProfilePoint (h : Entry) : ProfilePoint :=
  {| pp_latitude := latitude h; pp_longitude := longitude h;
     pp_pres := pres h; pp_juld := juld h; pp_temp := temp h;
     pp_psal := psal h; pp_doxy := doxy h; pp_nitrate := nitrate h;
     pp_ph := ph h |}.

(** The object literal of [allHistory] and of [latest] copies all eleven
    fields. *)
Definition copyEntry (h : Entry) : Entry :=
  {| latitude := latitude h; longitude := longitude h; pres := pres h;
     juld := juld h; temp := temp h; psal := psal h; doxy := doxy h;
     nitrate := nitrate h; ph := ph h; organization := organization h;
     dateIso := dateIso h |}.

(** The last element of an array; reading a property of [undefined]
    throws, which is [None] here. *)
Definition lastOf {A} (l : list A) : option A := last l.

(** Body of the [for ... of idToEntries.entries()] loop for one bucket.
    [None] is the TypeError raised on a bucket without entries. *)
Definition finalizeBucket (platform : string) (bucket : Bucket)
  : option FloatRecord :=
  let sorted := sortBy compareJuld (entries bucket) in
  let cs := segment sorted in
  c ← lastOf cs;
  l ← lastOf c;
  Some {| id := platform;
          type := default core (btype bucket);
          latest := copyEntry l;
          history := map copyEntry sorted;
          cycles := map (map toProfilePoint) cs |}.

(** [idToEntries] is a [Map]: iteration follows insertion order, so it is
    kept as an association list with distinct keys. *)
Definition IdMap : Type := list (string * Bucket).

Fixpoint finalizeFloatsFromMap (idToEntries : IdMap)
  : option (list FloatRecord) :=
  match idToEntries with
  | [] => Some []
  | (platform, bucket) :: rest =>
      f ← finalizeBucket platform bucket;
      fs ← finalizeFloatsFromMap rest;
      Some (f :: fs)
  end.

(** ** JavaScript strings (code units 0..255) *)

Module Str.

Definition code (c : ascii) : Z := Z.of_N (N_of_ascii c).
Definition char (z : Z) : ascii := ascii_of_N (Z.to_N z).

(** WhiteSpace and LineTerminator code points below 256. *)
Definition isWhiteSpace (c : ascii) : bool :=
  let n := code c in
  ((9 <=? n) && (n <=? 13)) || (n =? 32) || (n =? 160).

Definition isDigit (c : ascii) : bool :=
  let n := code c in (48 <=? n) && (n <=? 57).

Definition digitValue (c : ascii) : Z := code c - 48.

(** Simple case mapping of one code unit: A-Z, and the Latin-1 capitals
    U+00C0..U+00DE without the multiplication sign U+00D7. *)
Definition lowerChar (c : ascii) : ascii :=
  let n := code c in
  if ((65 <=? n) && (n <=? 90))
     || ((192 <=? n) && (n <=? 222) && negb (n =? 215))
  then char (n + 32) else c.

Fixpoint toLowerCase (s : string) : string :=
  match s with
  | EmptyString => EmptyString
  | String c s' => String (lowerChar c) (toLowerCase s')
  end.

Fixpoint trimStart (s : string) : string :=
  match s with
  | EmptyString => EmptyString
  | String c s' => if isWhiteSpace c then trimStart s' else s
  end.

(** Removes trailing white space: a character is kept when something
    is kept after it or it is no white space itself. *)
Fixpoint trimEnd (s : string) : string :=
  match s with
  | EmptyString => EmptyString
  | String c s' =>
      match trimEnd s' with
      | EmptyString => if isWhiteSpace c then EmptyString
                       else String c EmptyString
      | t => String c t
      end
  end.

Definition trim (s : string) : string := trimEnd (trimStart s).

Fixpoint startsWith (p s : string) : bool :=
  match p, s with
  | EmptyString, _ => true
  | String a p', String b s' => Ascii.eqb a b && startsWith p' s'
  | String _ _, EmptyString => false
  end.

Fixpoint includes (s p : string) : bool :=
  startsWith p s ||
  match s with
  | EmptyString => false
  | String _ s' => includes s' p
  end.

(** [s.replace(/[^0-9]/g, '')] *)
Fixpoint onlyDigits (s : string) : string :=
  match s with
  | EmptyString => EmptyString
  | String c s' =>
      if isDigit c then String c (onlyDigits s') else onlyDigits s'
  end.

(** [s.slice(a, b)] for [0 <= a <= b]. *)
Definition slice (a b : nat) (s : string) : string :=
  substring a (b - a) s.

Definition isEmpty (s : string) : bool :=
  match s with EmptyString => true | String _ _ => false end.

(** ToBoolean of a string. *)
Definition truthy (s : string) : bool := negb (isEmpty s).

(** The longest prefix of decimal digits, as their values, and the
    rest of the string. *)
Fixpoint takeDigits (s : string) : list Z * string :=
  match s with
  | EmptyString => ([], EmptyString)
  | String c s' =>
      if isDigit c
      then let '(ds, r) := takeDigits s' in (digitValue c :: ds, r)
      else ([], s)
  end.

Definition valueOfDigits (ds : list Z) : Z :=
  fold_left (fun acc d => 10 * acc + d) ds 0.

(** [parseInt(s)] for a string that starts with no white space, sign or
    radix prefix: the value of the leading digits; [None] is NaN. *)
Definition parseInt (s : string) : option Z :=
  match takeDigits s with
  | ([], _) => None
  | (ds, _) => Some (valueOfDigits ds)
  end.

End Str.

(** ** [parseFloat] and [toNumber] *)

(** The binary64 value nearest to [±m * 10^e] (ties to even). *)
Definition ofDecimal (neg : bool) (m e : Z) : number :=
  if m =? 0 then S754_zero neg
  else if 0 <=? e then
    binary_normalize Num.prec Num.emax
      (if neg then - (m * 10 ^ e) else m * 10 ^ e) 0 neg
  else
    let '(q, e', l) :=
      SFdiv_core_binary Num.prec Num.emax m 0 (10 ^ (- e)) 0 in
    binary_round_aux Num.prec Num.emax neg q e' l.

(** The exponent part [e[+-]digits], when one is present at the front of
    [s]; without digits there is no exponent part. *)
Definition exponentPart (s : string) : Z :=
  match s with
  | String c s' =>
      if (Str.code c =? 101) || (Str.code c =? 69) then
        match s' with
        | String sg s'' =>
            if Str.code sg =? 45 then
              - Str.valueOfDigits (fst (Str.takeDigits s''))
            else if Str.code sg =? 43 then
              Str.valueOfDigits (fst (Str.takeDigits s''))
            else Str.valueOfDigits (fst (Str.takeDigits s'))
        | EmptyString => 0
        end
      else 0
  | EmptyString => 0
  end.

(** StrUnsignedDecimalLiteral: the longest prefix of [s] that is one, as a
    number of sign [neg]; NaN when there is none. *)
Definition unsignedLiteral (neg : bool) (s : string) : number :=
  if Str.startsWith "Infinity" s then S754_infinity neg
  else
    let '(ip, r1) := Str.takeDigits s in
    let '(fp, r2) :=
      match r1 with
      | String c r =>
          if Str.code c =? 46 then Str.takeDigits r else ([], r1)
      | EmptyString => ([], r1)
      end in
    match ip, fp with
    | [], [] => Num.NaN
    | _, _ =>
        ofDecimal neg (Str.valueOfDigits (ip ++ fp))
                  (exponentPart r2 - Z.of_nat (length fp))
    end.

Definition parseFloat (s : string) : number :=
  match Str.trimStart s with
  | String c s' =>
      if Str.code c =? 45 then unsignedLiteral true s'
      else if Str.code c =? 43 then unsignedLiteral false s'
      else unsignedLiteral false (String c s')
  | EmptyString => Num.NaN
  end.

(** [toNumber]; its argument is always a string here, [get] never returns
    [undefined] or [null]. *)
Definition toNumber (value : string) : nullable :=
  let n := parseFloat (Str.trim value) in
  if Num.isFinite n then Some n else None.

(** ** [Date]: time values are integers, milliseconds since 1970-01-01Z *)

Module JSDate.

Definition msPerDay : Z := 86400000.
Definition msPerHour : Z := 3600000.
Definition msPerMinute : Z := 60000.
Definition msPerSecond : Z := 1000.

Definition Day (t : Z) : Z := t / msPerDay.
Definition TimeWithinDay (t : Z) : Z := t mod msPerDay.

Definition isLeap (y : Z) : bool :=
  ((y mod 4 =? 0) && negb (y mod 100 =? 0)) || (y mod 400 =? 0).

Definition DaysInYear (y : Z) : Z := if isLeap y then 366 else 365.

Definition DayFromYear (y : Z) : Z :=
  365 * (y - 1970) + (y - 1969) / 4 - (y - 1901) / 100 + (y - 1601) / 400.

(** The largest [y] with [DayFromYear y <= d]: the estimate from the mean
    length of a year is off by one year at most. *)
Definition yearFromDay (d : Z) : Z :=
  let y := 1970 + (400 * d) / 146097 in
  if d <? DayFromYear y then y - 1
  else if DayFromYear (y + 1) <=? d then y + 1
  else y.

Definition YearFromTime (t : Z) : Z := yearFromDay (Day t).

Definition DayWithinYear (t : Z) : Z :=
  Day t - DayFromYear (YearFromTime t).

Definition InLeapYear (t : Z) : Z :=
  if isLeap (YearFromTime t) then 1 else 0.

(** Number of days of the year before month [m] (0 = January). *)
Definition daysBeforeMonth (leap m : Z) : Z :=
  if m =? 0 then 0
  else if m =? 1 then 31
  else if m =? 2 then 59 + leap
  else if m =? 3 then 90 + leap
  else if m =? 4 then 120 + leap
  else if m =? 5 then 151 + leap
  else if m =? 6 then 181 + leap
  else if m =? 7 then 212 + leap
  else if m =? 8 then 243 + leap
  else if m =? 9 then 273 + leap
  else if m =? 10 then 304 + leap
  else 334 + leap.

Definition monthOfDay (leap dwy : Z) : Z :=
  if dwy <? 31 then 0
  else if dwy <? 59 + leap then 1
  else if dwy <? 90 + leap then 2
  else if dwy <? 120 + leap then 3
  else if dwy <? 151 + leap then 4
  else if dwy <? 181 + leap then 5
  else if dwy <? 212 + leap then 6
  else if dwy <? 243 + leap then 7
  else if dwy <? 273 + leap then 8
  else if dwy <? 304 + leap then 9
  else if dwy <? 334 + leap then 10
  else 11.

Definition MonthFromTime (t : Z) : Z :=
  monthOfDay (InLeapYear t) (DayWithinYear t).

Definition DateFromTime (t : Z) : Z :=
  DayWithinYear t - daysBeforeMonth (InLeapYear t) (MonthFromTime t) + 1.

Definition HourFromTime (t : Z) : Z := (t / msPerHour) mod 24.
Definition MinFromTime (t : Z) : Z := (t / msPerMinute) mod 60.
Definition SecFromTime (t : Z) : Z := (t / msPerSecond) mod 60.
Definition msFromTime (t : Z) : Z := t mod msPerSecond.

Definition MakeTime (hour min sec ms : Z) : Z :=
  hour * msPerHour + min * msPerMinute + sec * msPerSecond + ms.

Definition MakeDay (year month date : Z) : Z :=
  let ym := year + month / 12 in
  let mn := month mod 12 in
  DayFromYear ym + daysBeforeMonth (if isLeap ym then 1 else 0) mn
  + date - 1.

Definition MakeDate (day time : Z) : Z := day * msPerDay + time.

(** [None] is NaN, the time value of an invalid date. *)
Definition TimeClip (t : Z) : option Z :=
  if Z.abs t <=? 8640000000000000 then Some t else None.

(** [Date.UTC(y, m, d, hh, mm, ss)] on integer arguments. *)
Definition UTC (y m d hh mm ss : Z) : option Z :=
  let yr := if (0 <=? y) && (y <=? 99) then 1900 + y else y in
  TimeClip (MakeDate (MakeDay yr m d) (MakeTime hh mm ss 0)).

(** [new Date(v)] for a number [v]: its time value. *)
Definition ofNumber (v : number) : option Z :=
  t ← Num.trunc v; TimeClip t.

Definition digit (n : Z) : ascii := Str.char (48 + n mod 10).

Definition pad2 (n : Z) : string :=
  String (digit (n / 10)) (String (digit n) EmptyString).

Definition pad3 (n : Z) : string := String (digit (n / 100)) (pad2 n).

Definition pad4 (n : Z) : string := String (digit (n / 1000)) (pad3 n).

Definition pad6 (n : Z) : string :=
  String (digit (n / 100000)) (String (digit (n / 10000)) (pad4 n)).

Definition isoYear (y : Z) : string :=
  if (0 <=? y) && (y <=? 9999) then pad4 y
  else if y <? 0 then String "-" (pad6 (- y))
  else String "+" (pad6 y).

(** [toISOString] of a valid time value. *)
Definition isoOfTime (t : Z) : string :=
  isoYear (YearFromTime t) +:+ "-" +:+ pad2 (MonthFromTime t + 1)
  +:+ "-" +:+ pad2 (DateFromTime t)
  +:+ "T" +:+ pad2 (HourFromTime t)
  +:+ ":" +:+ pad2 (MinFromTime t)
  +:+ ":" +:+ pad2 (SecFromTime t)
  +:+ "." +:+ pad3 (msFromTime t) +:+ "Z".

(** [d.toISOString()]; [None] is the RangeError of an invalid date. *)
Definition toISOString (d : option Z) : option string :=
  isoOfTime <$> d.

End JSDate.

(** [Date.parse('1950-01-01T00:00:00Z')] *)
Definition epoch1950ms : Z := -631152000000.
Definition epoch1950 : number := Num.ofZ epoch1950ms.

(** [24 * 60 * 60 * 1000] *)
Definition dayMs : number :=
  Num.mul (Num.mul (Num.mul (Num.ofZ 24) (Num.ofZ 60)) (Num.ofZ 60))
          (Num.ofZ 1000).

(** The julian-day branch: [new Date(epoch1950 + juld * dayMs).toISOString()]. *)
Definition isoOfJuld (juld : number) : option string :=
  JSDate.toISOString (JSDate.ofNumber (Num.add epoch1950 (Num.mul juld dayMs))).

(** [digits.length >= n ? parseInt(digits.slice(a, b)) : 0]; a NaN makes
    the date invalid, so it is kept as [None]. *)
Definition optionalField (digits : string) (n a b : nat) : option Z :=
  if (n <=? String.length digits)%nat
  then Str.parseInt (Str.slice a b digits)
  else Some 0.

(** The time value [dtMs] of the calendar branch, for [digits] of length 8
    at least. *)
Definition dtMsOfDigits (digits : string) : option Z :=
  y ← Str.parseInt (Str.slice 0 4 digits);
  m1 ← Str.parseInt (Str.slice 4 6 digits);
  d ← Str.parseInt (Str.slice 6 8 digits);
  hh ← optionalField digits 10 8 10;
  mm ← optionalField digits 12 10 12;
  ss ← optionalField digits 14 12 14;
  JSDate.UTC y (m1 - 1) d hh mm ss.

(** [(dtMs - epoch1950) / dayMs] *)
Definition juldOfTime (dtMs : Z) : number :=
  Num.div (Num.sub (Num.ofZ dtMs) epoch1950) dayMs.

(** ** The row callback of [loadFloatsStreaming] *)

(** A row object: its own keys in [Object.keys] order, each with its
    value.  Keys of an object are distinct. *)
Definition Row : Type := list (string * string).

(** [r[k]]; [None] is [undefined]. *)
Fixpoint prop (r : Row) (k : string) : option string :=
  match r with
  | [] => None
  | (k', v) :: r' => if String.eqb k' k then Some v else prop r' k
  end.

(** [for (const k of Object.keys(r)) keyMap.set(k.toLowerCase(), k)] *)
Definition keyMapOf (r : Row) : gmap string string :=
  fold_left (fun keyMap k => <[Str.toLowerCase k := k]> keyMap)
            (map fst r) ∅.

(** The closure [get] of one row. *)
Fixpoint get (r : Row) (names : list string) : string :=
  match names with
  | [] => ""
  | name :: rest =>
      match keyMapOf r !! Str.toLowerCase name with
      | Some k =>
          if Str.truthy k then
            match prop r k with
            | Some v => if Str.isEmpty v then get r rest else v
            | None => get r rest
            end
          else get r rest
      | None => get r rest
      end
  end.

Module Alias.
Definition platform : list string :=
  ["PLATFORM_NUMBER"; "platform_number"; "argo_id"; "platformid"].
Definition latitude : list string := ["LATITUDE"; "latitude"; "lat"].
Definition longitude : list string :=
  ["LONGITUDE"; "longitude"; "lon"; "lng"].
Definition pres : list string := ["PRES"; "pres"; "pressure"].
Definition temp : list string := ["TEMP"; "temp"; "temperature"].
Definition psal : list string := ["PSAL"; "psal"; "salinity"].
Definition doxy : list string := ["DOXY"; "doxy"; "oxygen"].
Definition nitrate : list string :=
  ["NITRATE"; "nitrate"; "NITRATE_ADJUSTED"; "nitrate_adjusted"].
Definition ph : list string :=
  ["PH_IN_SITU_TOTAL"; "ph_in_situ_total"; "PH_IN_SITU_TOTAL_ADJUSTED";
   "ph"].
Definition organization : list string :=
  ["DATA_CENTRE"; "data_centre"; "ORGANIZATION"; "organization"; "ORG";
   "org"].
Definition juld : list string := ["JULD"; "juld"; "JULD_ADJUSTED"].
Definition date : list string :=
  ["DATE_CREATION"; "date_creation"; "DATE"; "date"; "DATE_UPDATE"].
Definition cycle : list string :=
  ["CYCLE_NUMBER"; "cycle_number"; "cycle"].
End Alias.

(** "JULD and ISO date computation": the final [juld] and [dateIso];
    [None] when [toISOString] throws its RangeError. *)
Definition timeAxis (r : Row) : option (nullable * option string) :=
  match toNumber (get r Alias.juld) with
  | Some juld =>
      iso ← isoOfJuld juld;
      Some (Some juld, Some iso)
  | None =>
      let digits := Str.onlyDigits (get r Alias.date) in
      if (8 <=? String.length digits)%nat then
        dtMs ← dtMsOfDigits digits;
        Some (Some (juldOfTime dtMs), Some (JSDate.isoOfTime dtMs))
      else
        Some (toNumber (get r Alias.cycle), None)
  end.

(** What one call of the row callback does. *)
Inductive RowResult : Type :=
| Skipped                                   (* early [return] *)
| Thrown                                    (* an exception escapes *)
| Pushed (platform : string) (entry : Entry).

Definition onRow (r : Row) : RowResult :=
  let platform := Str.trim (get r Alias.platform) in
  if Str.isEmpty platform then Skipped else
  match toNumber (get r Alias.latitude),
        toNumber (get r Alias.longitude) with
  | Some lat, Some lon =>
      match timeAxis r with
      | None => Thrown
      | Some (juld, dateIso) =>
          Pushed platform
            {| latitude := lat;
               longitude := lon;
               pres := toNumber (get r Alias.pres);
               juld := juld;
               temp := toNumber (get r Alias.temp);
               psal := toNumber (get r Alias.psal);
               doxy := toNumber (get r Alias.doxy);
               nitrate := toNumber (get r Alias.nitrate);
               ph := toNumber (get r Alias.ph);
               organization := Str.trim (get r Alias.organization);
               dateIso := dateIso |}
      end
  | _, _ => Skipped
  end.

(** ** The platform map *)

Fixpoint mapGet (m : IdMap) (platform : string) : option Bucket :=
  match m with
  | [] => None
  | (k, b) :: m' => if String.eqb k platform then Some b else mapGet m' platform
  end.

Definition mapHas (m : IdMap) (platform : string) : bool :=
  match mapGet m platform with Some _ => true | None => false end.

(** Mutation of the bucket stored under [platform]. *)
Fixpoint mapUpdate (f : Bucket -> Bucket) (platform : string) (m : IdMap)
  : IdMap :=
  match m with
  | [] => []
  | (k, b) :: m' =>
      if String.eqb k platform then (k, f b) :: m'
      else (k, b) :: mapUpdate f platform m'
  end.

(** [bucket.entries.push(entry); if (sourceType === 'bgc') bucket.type = 'bgc'] *)
Definition pushInto (sourceType : SourceType) (entry : Entry) (b : Bucket)
  : Bucket :=
  {| entries := entries b ++ [entry];
     btype := if isBgc sourceType then Some bgc else btype b |}.

(** The last four statements of the row callback. *)
Definition addEntry (sourceType : SourceType) (platform : string)
  (entry : Entry) (idToEntries : IdMap) : IdMap :=
  let m := if mapHas idToEntries platform then idToEntries
           else idToEntries ++
                [(platform, {| entries := []; btype := Some sourceType |})] in
  mapUpdate (pushInto sourceType entry) platform m.

(** The rows of one file through the callback; [None] when a row throws. *)
Fixpoint readRows (sourceType : SourceType) (rows : list Row)
  (idToEntries : IdMap) : option IdMap :=
  match rows with
  | [] => Some idToEntries
  | r :: rest =>
      match onRow r with
      | Skipped => readRows sourceType rest idToEntries
      | Thrown => None
      | Pushed platform entry =>
          readRows sourceType rest
                   (addEntry sourceType platform entry idToEntries)
      end
  end.

(** ** Files *)

(** [path.sep], POSIX. *)
Definition sep : string := "/".

(** [path.join(a, b)] for a normalised [a] and a plain name [b]. *)
Definition pathJoin (a b : string) : string := a +:+ sep +:+ b.

Definition sourceTypeOf (file : string) : SourceType :=
  if Str.includes (Str.toLowerCase file) (sep +:+ "bgc" +:+ sep)
  then bgc else core.

Inductive DirentKind : Type := isDirectory | isFile | isOther.

(** The part of [fs] the listing uses; [readdirSync] is [None] when it
    throws. *)
Record FileSystem : Type := mkFS {
  existsSync : string -> bool;
  readdirSync : string -> option (list (string * DirentKind))
}.

(** The position after the last dot of a name, counted from the front;
    [None] without a dot. *)
Fixpoint lastDot (s : string) : option nat :=
  match s with
  | EmptyString => None
  | String c s' =>
      match lastDot s' with
      | Some i => Some (S i)
      | None => if Str.code c =? 46 then Some O else None
      end
  end.

(** [path.extname(name)] of a directory entry. *)
Definition extname (name : string) : string :=
  match lastDot name with
  | None | Some O => ""
  | Some i => substring i (String.length name - i) name
  end.

(** The [for (const d of dirents)] loop; the stack has its top first. *)
Fixpoint scanDirents (current : string) (dirents : list (string * DirentKind))
  (stack results : list string) : list string * list string :=
  match dirents with
  | [] => (stack, results)
  | (name, kind) :: rest =>
      let full := pathJoin current name in
      match kind with
      | isDirectory => scanDirents current rest (full :: stack) results
      | isFile =>
          if String.eqb (Str.toLowerCase (extname name)) ".csv"
          then scanDirents current rest stack (results ++ [full])
          else scanDirents current rest stack results
      | isOther => scanDirents current rest stack results
      end
  end.

(** The [while (stack.length > 0)] loop, at most [fuel] iterations. *)
Fixpoint listLoop (fuel : nat) (fs : FileSystem) (stack results : list string)
  : option (list string) :=
  match stack with
  | [] => Some results
  | current :: stack' =>
      match fuel with
      | O => None
      | S fuel' =>
          match readdirSync fs current with
          | None => listLoop fuel' fs stack' results
          | Some dirents =>
              let '(stack'', results') :=
                scanDirents current dirents stack' results in
              listLoop fuel' fs stack'' results'
          end
      end
  end.

Definition listFilesRecursive (fuel : nat) (fs : FileSystem)
  (startDir : string) : option (list string) :=
  if existsSync fs startDir then listLoop fuel fs [startDir] []
  else Some [].

Definition bgcRoot (dirname : string) : string :=
  pathJoin (pathJoin dirname "data") "bgc".

Definition coreRoot (dirname : string) : string :=
  pathJoin (pathJoin dirname "data") "core".

(** [for (const file of allFiles)]: [rowsOf file] are the rows the stream
    reader hands to the callback for that file. *)
Fixpoint readFiles (rowsOf : string -> list Row) (files : list string)
  (idToEntries : IdMap) : option IdMap :=
  match files with
  | [] => Some idToEntries
  | file :: rest =>
      m ← readRows (sourceTypeOf file) (rowsOf file) idToEntries;
      readFiles rowsOf rest m
  end.

Definition loadFloatsStreaming (fuel : nat) (fs : FileSystem)
  (dirname : string) (rowsOf : string -> list Row)
  : option (list FloatRecord) :=
  bgcFiles ← listFilesRecursive fuel fs (bgcRoot dirname);
  coreFiles ← listFilesRecursive fuel fs (coreRoot dirname);
  let allFiles := bgcFiles ++ coreFiles in
  match allFiles with
  | [] => Some []
  | _ :: _ =>
      idToEntries ← readFiles rowsOf allFiles [];
      finalizeFloatsFromMap idToEntries
  end.

(** ** [ensureCache] *)

(** The two module variables and the promises they refer to.  The event
    loop runs the body of [ensureCache] and each promise reaction to
    completion, so each of them is one atomic transition. *)
Module Cache.

Definition Aggregate : Type := list FloatRecord.

Inductive PromiseState : Type :=
| Pending
| Fulfilled (value : Aggregate)
| Rejected (err : string).

(** [promises] holds every promise handed to a caller, by number;
    [running] lists the ingestion passes in flight, each named by the
    promise [loadFloatsStreaming().then(..).catch(..)] chained on it. *)
Record State : Type := mkState {
  FLOATS_CACHE : option Aggregate;
  CACHE_BUILDING : option nat;
  promises : list PromiseState;
  running : list nat
}.

Definition init : State :=
  {| FLOATS_CACHE := None; CACHE_BUILDING := None;
     promises := []; running := [] |}.

(** One call: the promise the caller gets, and the state it leaves.  An
    array is truthy, also when empty.  The promise of the [async] function
    takes the state of the value returned; when that is [CACHE_BUILDING] the
    caller's promise is named by it, since it settles as that one does. *)
Definition ensureCache (st : State) : nat * State :=
  match FLOATS_CACHE st with
  | Some floats =>
      (length (promises st),
       {| FLOATS_CACHE := FLOATS_CACHE st;
          CACHE_BUILDING := CACHE_BUILDING st;
          promises := promises st ++ [Fulfilled floats];
          running := running st |})
  | None =>
      match CACHE_BUILDING st with
      | None =>
          let p := length (promises st) in
          (p,
           {| FLOATS_CACHE := None;
              CACHE_BUILDING := Some p;
              promises := promises st ++ [Pending];
              running := p :: running st |})
      | Some p => (p, st)
      end
  end.

Definition finish (p : nat) (l : list nat) : list nat :=
  List.filter (fun q => negb (Nat.eqb q p)) l.

(** The [then] reaction of pass [p]. *)
Definition onFulfilled (p : nat) (result : Aggregate) (st : State) : State :=
  {| FLOATS_CACHE := Some result;
     CACHE_BUILDING := None;
     promises := <[p := Fulfilled result]> (promises st);
     running := finish p (running st) |}.

(** The [catch] reaction of pass [p]. *)
Definition onRejected (p : nat) (err : string) (st : State) : State :=
  {| FLOATS_CACHE := FLOATS_CACHE st;
     CACHE_BUILDING := None;
     promises := <[p := Rejected err]> (promises st);
     running := finish p (running st) |}.

Inductive Event : Type :=
| Request
| PassSucceeds (p : nat) (result : Aggregate)
| PassFails (p : nat) (err : string).

Definition isRunning (p : nat) (st : State) : bool :=
  existsb (Nat.eqb p) (running st).

(** A pass can only settle while it is in flight. *)
Definition step (st : State) (ev : Event) : option State :=
  match ev with
  | Request => Some (snd (ensureCache st))
  | PassSucceeds p result =>
      if isRunning p st then Some (onFulfilled p result st) else None
  | PassFails p err =>
      if isRunning p st then Some (onRejected p err st) else None
  end.

Fixpoint run (st : State) (evs : list Event) : option State :=
  match evs with
  | [] => Some st
  | ev :: rest => st' ← step st ev; run st' rest
  end.

Definition reachable (st : State) : Prop :=
  exists evs, run init evs = Some st.

(** While a pass is in flight it is the only one, [CACHE_BUILDING] is its
    promise, still pending, and nothing is cached. *)
Definition inv (st : State) : Prop :=
  match CACHE_BUILDING st with
  | Some p =>
      FLOATS_CACHE st = None /\ running st = [p] /\
      promises st !! p = Some Pending
  | None => running st = []
  end.

End Cache.

(** ** How a pass ends *)

(** The row callback runs inside the listener of the [line] event, which
    the event loop calls while the pass is suspended at
    [await parseCsvFileStream(...)].  The promise awaited there settles on
    [close] and on [error] only, and the [try] of the loop catches nothing
    but its rejection: an exception that leaves the callback has no handler
    above it, rejects no promise, and ends the process. *)
Inductive PassEnd : Type :=
| Fulfils (result : list FloatRecord)
| Rejects (err : string)
| Uncaught.

(** The end of [loadFloatsStreaming()]; [None] when the listing is out of
    fuel.  A row that throws is the [None] of [readFiles]; the TypeError of
    [finalizeFloatsFromMap] is raised in the [async] function itself and
    rejects its promise. *)
Definition passEnd (fuel : nat) (fs : FileSystem) (dirname : string)
  (rowsOf : string -> list Row) : option PassEnd :=
  bgcFiles ← listFilesRecursive fuel fs (bgcRoot dirname);
  coreFiles ← listFilesRecursive fuel fs (coreRoot dirname);
  let allFiles := bgcFiles ++ coreFiles in
  match allFiles with
  | [] => Some (Fulfils [])
  | _ :: _ =>
      match readFiles rowsOf allFiles [] with
      | None => Some Uncaught
      | Some idToEntries =>
          match finalizeFloatsFromMap idToEntries with
          | Some floats => Some (Fulfils floats)
          | None => Some (Rejects "TypeError")
          end
      end
  end.

(** The server process: up with the state of the cache, or gone. *)
Inductive Process : Type :=
| Up (st : Cache.State)
| Down.

(** Pass [p], in flight, ends: the [then] reaction, the [catch] reaction,
    or neither. *)
Definition settle (st : Cache.State) (p : nat) (e : PassEnd)
  : option Process :=
  if Cache.isRunning p st then
    Some match e with
         | Fulfils result => Up (Cache.onFulfilled p result st)
         | Rejects err => Up (Cache.onRejected p err st)
         | Uncaught => Down
         end
  else None.

(** A request: the promise it gets; nothing answers once the process is
    gone. *)
Definition request (pr : Process) : option (nat * Process) :=
  match pr with
  | Up st => Some (fst (Cache.ensureCache st), Up (snd (Cache.ensureCache st)))
  | Down => None
  end.

(** ** [parseCsvLine] *)

(** The double quote and the comma. *)
Definition quote : ascii := "034"%char.
Definition comma : ascii := "044"%char.

Definition isQuote (c : ascii) : bool := Ascii.eqb c quote.
Definition isComma (c : ascii) : bool := Ascii.eqb c comma.

Arguments isQuote : simpl never.
Arguments isComma : simpl never.

(** [current += char] *)
Definition addChar (current : string) (char : ascii) : string :=
  current +:+ String char EmptyString.

(** The [for] loop from the position where [line] is what is left to
    read, and the final [values.push(current)]. *)
Fixpoint csvLoop (line : string) (values : list string) (current : string)
  (inQuotes : bool) : list string :=
  match line with
  | EmptyString => values ++ [current]
  | String char rest =>
      if inQuotes then
        if isQuote char then
          match rest with
          | String next rest' =>
              if isQuote next
              then csvLoop rest' values (addChar current quote) true
              else csvLoop rest values current false
          | EmptyString => csvLoop rest values current false
          end
        else csvLoop rest values (addChar current char) true
      else if isComma char then csvLoop rest (values ++ [current]) "" false
      else if isQuote char then csvLoop rest values current true
      else csvLoop rest values (addChar current char) false
  end.

Definition parseCsvLine (line : string) : list string :=
  csvLoop line [] "" false.

(** ** [parseCsvFileStream] *)

(** The array index a property key denotes, when it is one: a canonical
    decimal numeral below 2^32 - 1. *)
Definition arrayIndex (k : string) : option Z :=
  match Str.takeDigits k with
  | (d :: ds, EmptyString) =>
      if (d =? 0) && negb (Nat.eqb (length ds) 0) then None
      else
        let n := Str.valueOfDigits (d :: ds) in
        if n <? 4294967295 then Some n else None
  | _ => None
  end.

(** Assignment to an own property that exists: the key keeps its place. *)
Fixpoint setOwn (k v : string) (r : Row) : Row :=
  match r with
  | [] => []
  | (k', v') :: r' =>
      if String.eqb k' k then (k', v) :: r' else (k', v') :: setOwn k v r'
  end.

(** A new array-index key goes among the array-index keys, which come
    first, in ascending numeric order. *)
Fixpoint insertIndex (n : Z) (k v : string) (r : Row) : Row :=
  match r with
  | [] => [(k, v)]
  | (k', v') :: r' =>
      match arrayIndex k' with
      | Some n' =>
          if n <? n' then (k, v) :: r else (k', v') :: insertIndex n k v r'
      | None => (k, v) :: r
      end
  end.

(** [obj[k] = v] on an object created by [{}], for a string [v].  The key
    [__proto__] reaches the setter inherited from [Object.prototype],
    which ignores a string.  Any other key becomes an own property: an
    existing one keeps its place, a new array index goes among the array
    indices, any other new key after all the keys there are. *)
Definition objSet (k v : string) (obj : Row) : Row :=
  if String.eqb k "__proto__" then obj
  else
    match prop obj k with
    | Some _ => setOwn k v obj
    | None =>
        match arrayIndex k with
        | Some n => insertIndex n k v obj
        | None => obj ++ [(k, v)]
        end
    end.

(** [for (let i = ...; i < header.length; i++) obj[header[i]] = ...], with
    [rest] the header from position [i] on. *)
Fixpoint fillFrom (i : nat) (rest values : list string) (obj : Row) : Row :=
  match rest with
  | [] => obj
  | h :: rest' => fillFrom (S i) rest' values (objSet h (nth i values "") obj)
  end.

(** The listener of the [line] event: the header afterwards, and the row
    handed to [onRow], if any. *)
Definition onLine (header : option (list string)) (line : string)
  : option (list string) * option Row :=
  let trimmed := Str.trim line in
  if Str.isEmpty trimmed then (header, None)
  else
    match header with
    | None => (Some (map Str.trim (parseCsvLine trimmed)), None)
    | Some h => (header, Some (fillFrom 0 h (parseCsvLine line) []))
    end.

Fixpoint readLines (header : option (list string)) (lines : list string)
  : list Row :=
  match lines with
  | [] => []
  | line :: rest =>
      match onLine header line with
      | (header', Some obj) => obj :: readLines header' rest
      | (header', None) => readLines header' rest
      end
  end.

(** The rows [parseCsvFileStream] passes to its callback for a file whose
    [line] events are [lines]. *)
Definition parseCsvFileStream (lines : list string) : list Row :=
  readLines None lines.

(** ** The routes *)

(** [a.slice(-n)] *)
Definition sliceLast {A} (n : nat) (a : list A) : list A :=
  skipn (length a - n) a.

(** The object built for one float by [/api/floats]. *)
Definition optimizedFloat (float : FloatRecord) : FloatRecord :=
  {| id := id float;
     type := type float;
     latest := latest float;
     history := sliceLast 200 (history float);
     cycles := map (sliceLast 50) (sliceLast 10 (cycles float)) |}.

Definition optimizedFloats (floats : list FloatRecord) : list FloatRecord :=
  map optimizedFloat floats.

(** [floats.find(f => f.id === floatId)] *)
Definition findFloat (floats : list FloatRecord) (floatId : string)
  : option FloatRecord :=
  List.find (fun f => String.eqb (id f) floatId) floats.

(** What a route sends. *)
Inductive Reply : Type :=
| Json (body : list FloatRecord)
| JsonOne (body : FloatRecord)
| Status404
| Status500.

(** [/api/floats] and [/api/float/:id], given how the promise of
    [ensureCache] settled. *)
Definition apiFloats (settled : Cache.PromiseState) : option Reply :=
  match settled with
  | Cache.Pending => None
  | Cache.Fulfilled floats => Some (Json (optimizedFloats floats))
  | Cache.Rejected _ => Some Status500
  end.

Definition apiFloat (settled : Cache.PromiseState) (floatId : string)
  : option Reply :=
  match settled with
  | Cache.Pending => None
  | Cache.Fulfilled floats =>
      match findFloat floats floatId with
      | Some float => Some (JsonOne float)
      | None => Some Status404
      end
  | Cache.Rejected _ => Some Status500
  end.

(** ** The specification's wording, for comparison *)

(** Splits a list between every two neighbours that [breaks] holds of;
    the first element always opens the first group. *)
Fixpoint cutBy {A} (breaks : A -> A -> bool) (l : list A) : list (list A) :=
  match l with
  | [] => []
  | x :: l' =>
      match cutBy breaks l' with
      | g :: gs =>
          match l' with
          | y :: _ => if breaks x y then [x] :: g :: gs else (x :: g) :: gs
          | [] => [[x]]
          end
      | [] => [[x]]
      end
  end.

(** Specification 4.5, step 2: after the first entry, a new cycle starts
    when the time gap from the previous entry exceeds 1, or when the
    pressure gap exceeds 50 and the pressure fell; a gap is evaluated
    whenever the previous value exists.  (The specification does not say
    how a missing value of the current entry enters a gap; it is read as 0
    here, as the subtraction of the loop does.) *)
Definition specBreaks (prev entry : Entry) : bool :=
  match juld prev with
  | Some pj => Num.gt (Num.abs (Num.sub (toNum (juld entry)) pj)) one
  | None => false
  end
  || match pres prev with
     | Some pp =>
         Num.gt (Num.abs (Num.sub (toNum (pres entry)) pp)) fifty
         && Num.lt (toNum (pres entry)) pp
     | None => false
     end.

Definition specSegment (sorted : list Entry) : list (list Entry) :=
  cutBy specBreaks sorted.

(** The time and the pressure condition of the loop, in terms of the
    previous entry. *)
Definition timeBreaks (prev entry : Entry) : bool :=
  Num.gt (timeGap (juld prev) entry) one.

Definition presBreaks (prev entry : Entry) : bool :=
  Num.gt (presGap (pres prev) entry) fifty
  && Num.lt (toNum (pres entry)) (toNum (pres prev)).

Definition loopBreaks (prev entry : Entry) : bool :=
  timeBreaks prev entry || presBreaks prev entry.

(** Specification 4.5, item 6: a point of a cycle shows an entry with its
    nine profile fields, field for field. *)
Definition showsEntry (h : Entry) (p : ProfilePoint) : Prop :=
  pp_latitude p = latitude h /\ pp_longitude p = longitude h /\
  pp_pres p = pres h /\ pp_juld p = juld h /\ pp_temp p = temp h /\
  pp_psal p = psal h /\ pp_doxy p = doxy h /\ pp_nitrate p = nitrate h /\
  pp_ph p = ph h.

(** Specification 4.3 on alias resolution, with the lookup the code does:
    of the keys of the row that agree with the alias up to case, the last
    one is the one consulted. *)
Fixpoint lastMatching (r : Row) (name : string) : option (string * string) :=
  match r with
  | [] => None
  | (k, v) :: r' =>
      match lastMatching r' name with
      | Some kv => Some kv
      | None =>
          if String.eqb (Str.toLowerCase k) (Str.toLowerCase name)
          then Some (k, v) else None
      end
  end.

Fixpoint resolve (r : Row) (names : list string) : string :=
  match names with
  | [] => ""
  | name :: rest =>
      match lastMatching r name with
      | Some (k, v) =>
          if Str.isEmpty k || Str.isEmpty v then resolve r rest else v
      | None => resolve r rest
      end
  end.

(** The same with the first key that agrees with the alias up to case. *)
Fixpoint firstMatching (r : Row) (name : string) : option (string * string) :=
  match r with
  | [] => None
  | (k, v) :: r' =>
      if String.eqb (Str.toLowerCase k) (Str.toLowerCase name)
      then Some (k, v) else firstMatching r' name
  end.

(** Specification 4.3 as worded: the value of the first alias that
    agrees up to case with a key of the row and is non-empty there. *)
Fixpoint resolveFirst (r : Row) (names : list string) : string :=
  match names with
  | [] => ""
  | name :: rest =>
      match firstMatching r name with
      | Some (_, v) => if Str.isEmpty v then resolveFirst r rest else v
      | None => resolveFirst r rest
      end
  end.

(** Re-deriving the julian day of [J] from the digits of its ISO string
    by the calendar branch. *)
Definition rederive (J : number) : option number :=
  iso ← isoOfJuld J;
  dtMs ← dtMsOfDigits (Str.onlyDigits iso);
  Some (juldOfTime dtMs).

(** [path] lies below the directory [root]. *)
Definition below (root path : string) : Prop :=
  exists rel, path = root +:+ sep +:+ rel.

(** A name without a slash, as directory entries are. *)
Definition noSlash (n : string) : Prop := Str.includes n "/" = false.

(** No directory on the path [d] is called bgc, in any letter case. *)
Definition cleanDir (d : string) : Prop :=
  Str.includes (Str.toLowerCase (d +:+ sep)) "/bgc/" = false.

(** At [root] and below, directory entries are plain names and no
    directory is called bgc, in any letter case. *)
Definition tidyBelow (fs : FileSystem) (root : string) : Prop :=
  forall d dirents name kind,
    d = root \/ below root d ->
    readdirSync fs d = Some dirents ->
    In (name, kind) dirents ->
    noSlash name /\ (kind = isDirectory -> Str.toLowerCase name <> "bgc").

(** The bucket of [platform] in [m] has type bgc. *)
Definition isBgcIn (m : IdMap) (platform : string) : Prop :=
  exists b, mapGet m platform = Some b /\ btype b = Some bgc.

(** Some row of some file of source type [st] is pushed for [platform]. *)
Definition contributes (rowsOf : string -> list Row) (files : list string)
  (platform : string) (st : SourceType) : Prop :=
  exists file r e,
    In file files /\ sourceTypeOf file = st /\
    In r (rowsOf file) /\ onRow r = Pushed platform e.

(** [s] goes on, after an optional sign, with a digit or with a dot and a
    digit: a decimal numeral can be read at its front. *)
Definition startsDecimal (s : string) : bool :=
  match s with
  | String c s' =>
      if Str.isDigit c then true
      else if Str.code c =? 46 then
        match s' with
        | String c' _ => Str.isDigit c'
        | EmptyString => false
        end
      else false
  | EmptyString => false
  end.

Definition beginsDecimal (s : string) : bool :=
  match s with
  | String c s' =>
      if (Str.code c =? 45) || (Str.code c =? 43) then startsDecimal s'
      else startsDecimal s
  | EmptyString => false
  end.

(** An exponent part that ends the string, or nothing. *)
Definition endsAsExponent (s : string) : bool :=
  match s with
  | EmptyString => true
  | String c s' =>
      if (Str.code c =? 101) || (Str.code c =? 69) then
        let r := match s' with
                 | String sg s'' =>
                     if (Str.code sg =? 45) || (Str.code sg =? 43)
                     then s'' else s'
                 | EmptyString => s'
                 end in
        match Str.takeDigits r with
        | (_ :: _, EmptyString) => true
        | _ => false
        end
      else false
  end.

(** Specification 4.3 and 7, "non-numeric": the whole of [s] is a decimal
    numeral, that is an optional sign, then digits with an optional
    fraction, or a dot and digits, then an optional exponent. *)
Definition isNumeral (s : string) : bool :=
  let u := match s with
           | String c s' =>
               if (Str.code c =? 45) || (Str.code c =? 43) then s' else s
           | EmptyString => s
           end in
  let '(ip, r1) := Str.takeDigits u in
  match r1 with
  | String c r =>
      if Str.code c =? 46 then
        let '(fp, r2) := Str.takeDigits r in
        negb (Nat.eqb (length ip + length fp) 0) && endsAsExponent r2
      else negb (Nat.eqb (length ip) 0) && endsAsExponent r1
  | EmptyString => negb (Nat.eqb (length ip) 0)
  end.


(** The seventeen digits of the ISO string of a year of four digits. *)
Definition isoDigits (y mo d h mi s ms : Z) : string :=
  JSDate.pad4 y +:+ JSDate.pad2 mo +:+ JSDate.pad2 d +:+ JSDate.pad2 h
  +:+ JSDate.pad2 mi +:+ JSDate.pad2 s +:+ JSDate.pad3 ms.

(** One millionth of a day (86.4 ms): far more than any rounding of
    binary64 arithmetic on julian days can account for. *)
Definition tolerance : number := parseFloat "1e-6".

(** ** Notions the further properties are stated with *)

Definition noQuote (s : string) : Prop :=
  forall c, In c (list_ascii_of_string s) -> isQuote c = false.

Definition noComma (s : string) : Prop :=
  forall c, In c (list_ascii_of_string s) -> isComma c = false.

(** A field as a CSV writer puts it: between quotes, its quotes doubled. *)
Fixpoint doubleQuotes (s : string) : string :=
  match s with
  | EmptyString => EmptyString
  | String c s' =>
      if isQuote c then String c (String c (doubleQuotes s'))
      else String c (doubleQuotes s')
  end.

Definition quoted (field : string) : string :=
  String quote (doubleQuotes field +:+ String quote EmptyString).

Definition csvLine (fields : list string) : string :=
  String.concat "," (map quoted fields).

(** What the reader guarantees of every object it builds. *)
Definition properKeys (r : Row) : Prop :=
  NoDup (map fst r) /\ ~ In "__proto__" (map fst r).

(** A line the reader does not skip. *)
Definition nonBlank (line : string) : bool :=
  negb (Str.isEmpty (Str.trim line)).

(** No two neighbours of a cycle are cut apart. *)
Definition unbroken (c : list Entry) : Prop :=
  Sorted (fun a b => loopBreaks a b = false) c.

(** The loop cut between the last entry of [c1] and the first of [c2]. *)
Definition cutBetween (c1 c2 : list Entry) : Prop :=
  exists a b, last c1 = Some a /\ head c2 = Some b /\ loopBreaks a b = true.

(** A string of decimal digits. *)
Definition allDigits (s : string) : Prop :=
  forall c, In c (list_ascii_of_string s) -> Str.isDigit c = true.

(** Text that cannot continue a decimal numeral: it is empty or starts
    with a character that is no digit, no dot and no exponent mark. *)
Definition plainTail (t : string) : Prop :=
  match t with
  | EmptyString => True
  | String c _ =>
      Str.isDigit c = false /\ Str.code c <> 46 /\
      Str.code c <> 101 /\ Str.code c <> 69
  end.

(** Days of month [mo] (1 = January) in year [y]. *)
Definition daysInMonth (y mo : Z) : Z :=
  if mo =? 2 then (if JSDate.isLeap y then 29 else 28)
  else if (mo =? 4) || (mo =? 6) || (mo =? 9) || (mo =? 11) then 30
  else 31.

(** Year, month, day, hour, minute and second name a calendar instant,
    in a year the ISO string writes with four digits and [Date.UTC] does
    not take for a year of the twentieth century. *)
Definition validDate (y mo d hh mi ss : Z) : Prop :=
  100 <= y <= 9999 /\ 1 <= mo <= 12 /\ 1 <= d <= daysInMonth y mo /\
  0 <= hh < 24 /\ 0 <= mi < 60 /\ 0 <= ss < 60.

(** The date as eight digits, and the time as six. *)
Definition dateDigits (y mo d : Z) : string :=
  JSDate.pad4 y +:+ JSDate.pad2 mo +:+ JSDate.pad2 d.

Definition timeDigits (hh mi ss : Z) : string :=
  JSDate.pad2 hh +:+ JSDate.pad2 mi +:+ JSDate.pad2 ss.

(** The ISO string of the instant, with no milliseconds. *)
Definition isoOfFields (y mo d hh mi ss : Z) : string :=
  JSDate.pad4 y +:+ "-" +:+ JSDate.pad2 mo +:+ "-" +:+ JSDate.pad2 d
  +:+ "T" +:+ JSDate.pad2 hh +:+ ":" +:+ JSDate.pad2 mi
  +:+ ":" +:+ JSDate.pad2 ss +:+ ".000Z".

(** The directories the listing can get to from [root]. *)
Inductive reaches (fs : FileSystem) (root : string) : string -> Prop :=
| reaches_root : reaches fs root root
| reaches_sub (d : string) (dirents : list (string * DirentKind))
    (name : string) :
    reaches fs root d ->
    readdirSync fs d = Some dirents ->
    In (name, isDirectory) dirents ->
    reaches fs root (pathJoin d name).

(** The directories the loop pushes when it visits [d]. *)
Definition subdirectories (fs : FileSystem) (d : string) : list string :=
  match readdirSync fs d with
  | Some dirents =>
      flat_map (fun entry : string * DirentKind =>
                  match snd entry with
                  | isDirectory => [pathJoin d (fst entry)]
                  | _ => []
                  end) dirents
  | None => []
  end.

(** [size] counts at least the directory itself and what [size] counts
    for its subdirectories: the tree below every directory is finite. *)
Definition finiteTree (fs : FileSystem) (size : string -> nat) : Prop :=
  forall d, (list_sum (map size (subdirectories fs d)) < size d)%nat.

(** [file] is a regular file with extension [.csv], in any letter case,
    in a directory the listing can get to from [root]. *)
Definition csvFileBelow (fs : FileSystem) (root file : string) : Prop :=
  exists d dirents name,
    reaches fs root d /\
    readdirSync fs d = Some dirents /\
    In (name, isFile) dirents /\
    Str.toLowerCase (extname name) = ".csv" /\
    file = pathJoin d name.

(** The platform and entry of every row that is pushed, in reading order. *)
Definition pushedBy (rows : list Row) : list (string * Entry) :=
  flat_map (fun r => match onRow r with
                     | Pushed platform entry => [(platform, entry)]
                     | _ => []
                     end) rows.

Definition pushedAll (rowsOf : string -> list Row) (files : list string)
  : list (string * Entry) :=
  flat_map (fun file => pushedBy (rowsOf file)) files.

Definition entriesOf (platform : string) (pushed : list (string * Entry))
  : list Entry :=
  map snd (List.filter (fun pe => String.eqb (fst pe) platform) pushed).

(** The platforms of a list in the order in which each is met first. *)
Definition firstSeen (platforms : list string) : list string :=
  fold_left (fun seen p =>
               if existsb (String.eqb p) seen then seen else seen ++ [p])
            platforms [].

(** [idToEntries.get(platform).entries], and nothing without a bucket. *)
Definition bucketEntries (m : IdMap) (platform : string) : list Entry :=
  match mapGet m platform with Some b => entries b | None => [] end.

(** ** Sample inputs *)

Module Sample.

(** An entry at 10 N, 20 E with the given time and pressure. *)
Definition at_ (j p : nullable) : Entry :=
  {| latitude := Num.ofZ 10; longitude := Num.ofZ 20; pres := p;
     juld := j; temp := None; psal := None; doxy := None;
     nitrate := None; ph := None; organization := ""; dateIso := None |}.

Definition day (n : Z) : Entry := at_ (Some (Num.ofZ n)) None.

(** The row [PLATFORM_NUMBER=1001, LATITUDE=10, LONGITUDE=20, JULD=j]. *)
Definition row (j : string) : Row :=
  [("PLATFORM_NUMBER", "1001"); ("LATITUDE", "10"); ("LONGITUDE", "20");
   ("JULD", j)].

(** Every file holds the one row with [JULD=0]. *)
Definition oneRow : string -> list Row := fun _ => [row "0"].

(** A row whose pressure column holds no number. *)
Definition rowWithoutPressure : Row :=
  [("PLATFORM_NUMBER", "1001"); ("LATITUDE", "10"); ("LONGITUDE", "20");
   ("JULD", "0"); ("PRES", "n/a"); ("TEMP", "4.5")].

(** A tree with core data only, one file of it in a directory [bgc]:
    [/app/data/core/bgc/a.csv]. *)
Definition nestedFs : FileSystem :=
  {| existsSync := fun p => String.eqb p "/app/data/core";
     readdirSync := fun p =>
       if String.eqb p "/app/data/core" then Some [("bgc", isDirectory)]
       else if String.eqb p "/app/data/core/bgc" then Some [("a.csv", isFile)]
       else None |}.

(** A tree with one file under each root. *)
Definition plainFs : FileSystem :=
  {| existsSync := fun p =>
       String.eqb p "/app/data/core" || String.eqb p "/app/data/bgc";
     readdirSync := fun p =>
       if String.eqb p "/app/data/core" then Some [("c.csv", isFile)]
       else if String.eqb p "/app/data/bgc" then Some [("b.csv", isFile)]
       else None |}.

(** The scenario of the specification: two rows of platform 1001 in the
    core file, one in the bgc file. *)
Definition scenarioRows (file : string) : list Row :=
  if String.eqb file "/app/data/bgc/b.csv" then
    [[("PLATFORM_NUMBER", "1001"); ("LATITUDE", "11"); ("LONGITUDE", "21");
      ("JULD", "3")]]
  else [row "0"; row "0.5"].

End Sample.

(** * Properties *)

(** ** Segmentation *)

Section Cut.
Context {A : Type} (breaks : A -> A -> bool).

Lemma cutBy_nil_inv (l : list A) : cutBy breaks l = [] -> l = [].
Proof.
  destruct l as [|x l]; [reflexivity|].
  simpl. destruct l as [|y l]; [discriminate|].
  destruct (cutBy breaks (y :: l)); [discriminate|].
  destruct (breaks x y); discriminate.
Qed.

Lemma cutBy_cons2 (x y : A) (l : list A) :
  exists g gs, cutBy breaks (y :: l) = g :: gs /\
    cutBy breaks (x :: y :: l) =
      if breaks x y then [x] :: g :: gs else (x :: g) :: gs.
Proof.
  destruct (cutBy breaks (y :: l)) as [|g gs] eqn:E.
  - apply cutBy_nil_inv in E. discriminate.
  - exists g, gs. split; [reflexivity|].
    change (cutBy breaks (x :: y :: l)) with
      (match cutBy breaks (y :: l) with
       | g :: gs => if breaks x y then [x] :: g :: gs else (x :: g) :: gs
       | [] => [[x]]
       end).
    rewrite E. reflexivity.
Qed.

(** The groups, put back together, are the list. *)
Lemma concat_cutBy (l : list A) : concat (cutBy breaks l) = l.
Proof.
  induction l as [|x l IH]; [reflexivity|].
  destruct l as [|y l]; [reflexivity|].
  destruct (cutBy_cons2 x y l) as (g & gs & E & ->).
  rewrite E in IH.
  destruct (breaks x y); simpl in *; rewrite IH; reflexivity.
Qed.

(** No group is empty. *)
Lemma cutBy_nonempty (l : list A) : Forall (fun g => g <> []) (cutBy breaks l).
Proof.
  induction l as [|x l IH]; [constructor|].
  destruct l as [|y l]; [repeat constructor; discriminate|].
  destruct (cutBy_cons2 x y l) as (g & gs & E & ->).
  rewrite E in IH. inversion IH; subst.
  destruct (breaks x y); repeat constructor; try discriminate; assumption.
Qed.

(** Adding one element at the end: it opens a group or joins the last. *)
Lemma cutBy_snoc (l : list A) (p e : A) :
  last l = Some p ->
  exists gs g, cutBy breaks l = gs ++ [g] /\
    cutBy breaks (l ++ [e]) =
      if breaks p e then gs ++ [g] ++ [[e]] else gs ++ [g ++ [e]].
Proof.
  induction l as [|x l IH]; [discriminate|].
  destruct l as [|y l].
  - intros [= ->]. exists [], [p]. split; [reflexivity|].
    simpl. destruct (breaks p e); reflexivity.
  - intros Hl. change (last (y :: l) = Some p) in Hl.
    destruct (IH Hl) as (gs & g & E1 & E2).
    destruct (cutBy_cons2 x y l) as (g1 & gs1 & F1 & F2).
    destruct (cutBy_cons2 x y (l ++ [e])) as (g2 & gs2 & G1 & G2).
    change (y :: l ++ [e]) with ((y :: l) ++ [e]) in G1.
    change ((x :: y :: l) ++ [e]) with (x :: y :: l ++ [e]).
    rewrite G2, F2. rewrite E2 in G1. rewrite E1 in F1.
    destruct gs as [|g0 gs].
    + simpl in F1. injection F1 as <- <-.
      destruct (breaks p e); simpl in G1; injection G1 as <- <-.
      * destruct (breaks x y).
        -- exists [[x]], g. split; reflexivity.
        -- exists [], (x :: g). split; reflexivity.
      * destruct (breaks x y).
        -- exists [[x]], g. split; reflexivity.
        -- exists [], (x :: g). split; reflexivity.
    + simpl in F1. injection F1 as <- <-.
      destruct (breaks p e); simpl in G1; injection G1 as <- <-.
      * destruct (breaks x y).
        -- exists ([x] :: g0 :: gs), g. split; reflexivity.
        -- exists ((x :: g0) :: gs), g. split; reflexivity.
      * destruct (breaks x y).
        -- exists ([x] :: g0 :: gs), g. split; reflexivity.
        -- exists ((x :: g0) :: gs), g. split; reflexivity.
Qed.

(** Across a seam: the two neighbours end up in one group exactly when
    [breaks] does not hold of them. *)
Lemma cutBy_app (l1 l2 : list A) (a b : A) :
  exists gs1 g1 g2 gs2,
    concat gs1 ++ g1 = l1 /\ g2 ++ concat gs2 = l2 /\
    cutBy breaks (l1 ++ a :: b :: l2) =
      if breaks a b
      then gs1 ++ [g1 ++ [a]] ++ [b :: g2] ++ gs2
      else gs1 ++ [g1 ++ a :: b :: g2] ++ gs2.
Proof.
  induction l1 as [|x l1 IH].
  - destruct (cutBy_cons2 a b l2) as (g & gs & E & E2).
    pose proof (concat_cutBy (b :: l2)) as C. rewrite E in C.
    destruct g as [|b' g].
    { pose proof (cutBy_nonempty (b :: l2)) as N. rewrite E in N.
      inversion N; congruence. }
    simpl in C. injection C as -> C.
    exists [], [], g, gs. repeat split; [exact C|].
    change ([] ++ a :: b :: l2) with (a :: b :: l2). rewrite E2.
    destruct (breaks a b); reflexivity.
  - destruct IH as (gs1 & g1 & g2 & gs2 & C1 & C2 & E).
    change ((x :: l1) ++ a :: b :: l2) with (x :: (l1 ++ a :: b :: l2)).
    destruct (l1 ++ a :: b :: l2) as [|y l] eqn:El.
    { destruct l1; discriminate. }
    destruct (cutBy_cons2 x y l) as (g & gs & F & F2).
    rewrite F in E.
    destruct gs1 as [|h gs1].
    + simpl in C1. subst g1.
      assert (E' : g = (if breaks a b then l1 ++ [a]
                        else l1 ++ a :: b :: g2) /\
                   gs = (if breaks a b then [b :: g2] ++ gs2 else gs2)).
      { destruct (breaks a b); simpl in E; injection E as -> ->;
          split; reflexivity. }
      destruct E' as [Eg Egs].
      destruct (breaks x y).
      * exists [[x]], l1, g2, gs2. repeat split; [assumption|].
        rewrite F2, Eg, Egs. destruct (breaks a b); reflexivity.
      * exists [], (x :: l1), g2, gs2. repeat split; [assumption|].
        rewrite F2, Eg, Egs. destruct (breaks a b); reflexivity.
    + assert (E' : g = h /\ gs =
               if breaks a b then gs1 ++ [g1 ++ [a]] ++ [b :: g2] ++ gs2
               else gs1 ++ [g1 ++ a :: b :: g2] ++ gs2).
      { destruct (breaks a b); simpl in E; injection E as -> ->;
          split; reflexivity. }
      destruct E' as [-> Egs].
      destruct (breaks x y).
      * exists ([x] :: h :: gs1), g1, g2, gs2. repeat split.
        -- simpl. simpl in C1. rewrite <- C1. reflexivity.
        -- assumption.
        -- rewrite F2, Egs. destruct (breaks a b); reflexivity.
      * exists ((x :: h) :: gs1), g1, g2, gs2. repeat split.
        -- simpl. simpl in C1. rewrite <- C1. reflexivity.
        -- assumption.
        -- rewrite F2, Egs. destruct (breaks a b); reflexivity.
Qed.

End Cut.

(** After the first entry the loop decides by [loopBreaks] of the
    previous entry, whose time and pressure it keeps. *)
Lemma newCycle_loopBreaks (n : nat) (w : Walk) (p e : Entry) :
  lastJuld w = juld p -> lastPres w = pres p ->
  newCycle (S n) w e = loopBreaks p e.
Proof.
  intros Hj Hp. unfold newCycle, loopBreaks, timeBreaks, presBreaks.
  rewrite Hj, Hp. reflexivity.
Qed.

Lemma forEachFrom_cut (l done : list Entry) (p : Entry) (w : Walk) (n : nat) :
  last done = Some p ->
  lastJuld w = juld p -> lastPres w = pres p ->
  currentCycle w <> [] ->
  w_cycles w ++ [currentCycle w] = cutBy loopBreaks done ->
  pushCurrent (forEachFrom (S n) l w) = cutBy loopBreaks (done ++ l).
Proof.
  revert done p w n.
  induction l as [|e l IH]; intros done p w n Hlast Hj Hp Hne Hcut.
  - rewrite app_nil_r. simpl. unfold pushCurrent.
    destruct (currentCycle w); [congruence | exact Hcut].
  - simpl forEachFrom.
    destruct (cutBy_snoc loopBreaks done p e Hlast) as (gs & g & E1 & E2).
    rewrite E1 in Hcut. apply app_inj_tail in Hcut as [Hgs Hg].
    replace (done ++ e :: l) with ((done ++ [e]) ++ l)
      by (rewrite <- app_assoc; reflexivity).
    unfold visit. rewrite (newCycle_loopBreaks n w p e Hj Hp).
    destruct (loopBreaks p e).
    + apply IH with (p := e); simpl; try reflexivity.
      * apply last_snoc.
      * discriminate.
      * rewrite E2. unfold pushCurrent.
        destruct (currentCycle w) eqn:Ec; [congruence|].
        rewrite Hgs, Hg. rewrite <- app_assoc. reflexivity.
    + apply IH with (p := e); simpl; try reflexivity.
      * apply last_snoc.
      * destruct (currentCycle w); discriminate.
      * rewrite E2, Hgs, Hg. reflexivity.
Qed.

(** The loop cuts the sorted entries exactly between the neighbours that
    [loopBreaks] holds of. *)
Lemma segment_cutBy (sorted : list Entry) :
  segment sorted = cutBy loopBreaks sorted.
Proof.
  destruct sorted as [|e l]; [reflexivity|].
  unfold segment. simpl forEachFrom.
  change (e :: l) with ([e] ++ l).
  apply forEachFrom_cut with (p := e); try reflexivity.
  simpl. discriminate.
Qed.

Lemma concat_segment (sorted : list Entry) : concat (segment sorted) = sorted.
Proof. rewrite segment_cutBy. apply concat_cutBy. Qed.

Lemma segment_nonempty (sorted : list Entry) :
  Forall (fun c => c <> []) (segment sorted).
Proof. rewrite segment_cutBy. apply cutBy_nonempty. Qed.

(** ** Sorting *)

Lemma insertBy_perm {A} (cmp : A -> A -> number) (x : A) (l : list A) :
  insertBy cmp x l ≡ₚ x :: l.
Proof.
  induction l as [|y l IH]; simpl; [reflexivity|].
  destruct (Num.lt (cmp x y) Num.zero); [reflexivity|].
  rewrite IH. apply Permutation_swap.
Qed.

Lemma fold_insertBy_perm {A} (cmp : A -> A -> number) (l acc : list A) :
  fold_left (fun acc x => insertBy cmp x acc) l acc ≡ₚ acc ++ l.
Proof.
  revert acc. induction l as [|x l IH]; intros acc; simpl.
  - rewrite app_nil_r. reflexivity.
  - rewrite IH, insertBy_perm. apply (Permutation_middle acc l x).
Qed.

Lemma sortBy_perm {A} (cmp : A -> A -> number) (l : list A) :
  sortBy cmp l ≡ₚ l.
Proof. unfold sortBy. rewrite fold_insertBy_perm. reflexivity. Qed.

Lemma sortBy_nil_inv {A} (cmp : A -> A -> number) (l : list A) :
  sortBy cmp l = [] -> l = [].
Proof.
  intros H. pose proof (sortBy_perm cmp l) as P. rewrite H in P.
  apply Permutation.Permutation_nil. exact P.
Qed.

(** ** Order of the sorted entries *)

(** A rounded value is negative only if the sign given to the rounding
    is. *)
Lemma binary_round_aux_negative (s : bool) (mx ex : Z) (lx : location) :
  Num.lt (binary_round_aux Num.prec Num.emax s mx ex lx) Num.zero = true ->
  s = true.
Proof.
  unfold binary_round_aux.
  destruct (shr_fexp Num.prec Num.emax mx ex lx) as [mrs e].
  destruct (shr_fexp Num.prec Num.emax _ e loc_Exact) as [mrs' e'].
  destruct (shr_m mrs') as [|m|m].
  - discriminate.
  - destruct (e' <=? Num.emax - Num.prec); destruct s; try reflexivity;
      discriminate.
  - discriminate.
Qed.

Lemma binary_normalize_negative (m e : Z) :
  Num.lt (binary_normalize Num.prec Num.emax m e false) Num.zero = true ->
  m < 0.
Proof.
  destruct m as [|p|p]; simpl.
  - discriminate.
  - unfold binary_round.
    destruct (shl_align _ _ _) as [mz ez].
    intros H. apply binary_round_aux_negative in H. discriminate H.
  - lia.
Qed.

(** The difference of two numbers is not negative in both orders. *)
Lemma sub_asymmetric (a b : number) :
  Num.lt (Num.sub a b) Num.zero = true ->
  Num.lt (Num.sub b a) Num.zero = false.
Proof.
  destruct a as [sa|sa| |sa ma ea]; destruct b as [sb|sb| |sb mb eb].
  16: { unfold Num.sub, SFsub. intros H.
        apply binary_normalize_negative in H.
        destruct (Num.lt (binary_normalize Num.prec Num.emax _ (Z.min eb ea)
                            false) Num.zero) eqn:E; [|reflexivity].
        apply binary_normalize_negative in E.
        rewrite (Z.min_comm eb ea) in E. lia. }
  all: repeat match goal with s : bool |- _ => destruct s end;
    cbv [Num.lt Num.sub Num.zero SFsub SFltb SFcompare negb]; congruence.
Qed.

Lemma compareJuld_asymmetric (a b : Entry) :
  Num.lt (compareJuld a b) Num.zero = true ->
  Num.lt (compareJuld b a) Num.zero = false.
Proof. apply sub_asymmetric. Qed.

Section Insertion.
Context {A : Type} (cmp : A -> A -> number).
Hypothesis cmp_asymmetric :
  forall x y, Num.lt (cmp x y) Num.zero = true ->
              Num.lt (cmp y x) Num.zero = false.

Lemma insertBy_HdRel (x y : A) (l : list A) :
  notBefore cmp y x -> HdRel (notBefore cmp) y l ->
  HdRel (notBefore cmp) y (insertBy cmp x l).
Proof.
  intros Hyx Hl. destruct l as [|z l]; simpl.
  - constructor. exact Hyx.
  - destruct (Num.lt (cmp x z) Num.zero); constructor.
    + exact Hyx.
    + inversion Hl; assumption.
Qed.

Lemma insertBy_sorted (x : A) (l : list A) :
  Sorted (notBefore cmp) l -> Sorted (notBefore cmp) (insertBy cmp x l).
Proof.
  induction l as [|y l IH]; intros Hs; simpl.
  - repeat constructor.
  - inversion Hs as [|? ? Hl Hy]; subst.
    destruct (Num.lt (cmp x y) Num.zero) eqn:E.
    + constructor; [exact Hs|]. constructor.
      unfold notBefore. apply cmp_asymmetric. exact E.
    + constructor; [exact (IH Hl)|].
      apply insertBy_HdRel; [exact E | exact Hy].
Qed.

Lemma sortBy_sorted (l : list A) : Sorted (notBefore cmp) (sortBy cmp l).
Proof.
  unfold sortBy.
  assert (H : forall acc, Sorted (notBefore cmp) acc ->
              Sorted (notBefore cmp)
                (fold_left (fun acc x => insertBy cmp x acc) l acc)).
  { induction l as [|x l IH]; intros acc Hacc; simpl; [exact Hacc|].
    apply IH. apply insertBy_sorted. exact Hacc. }
  apply H. constructor.
Qed.
End Insertion.

(** [history] is in ascending order of time: no entry sorts strictly
    before its predecessor. *)
Lemma history_sorted (l : list Entry) :
  Sorted (notBefore compareJuld) (sortBy compareJuld l).
Proof. apply sortBy_sorted. exact compareJuld_asymmetric. Qed.

(** ** The partition law *)

Lemma copyEntry_id (h : Entry) : copyEntry h = h.
Proof. destruct h; reflexivity. Qed.

Lemma map_copyEntry (l : list Entry) : map copyEntry l = l.
Proof.
  induction l as [|h l IH]; simpl; [reflexivity|].
  rewrite copyEntry_id, IH. reflexivity.
Qed.

Lemma last_of_nonempty {A} (l : list A) : l <> [] -> exists x, last l = Some x.
Proof.
  intros H. destruct (last l) as [x|] eqn:E; [eauto|].
  apply last_None in E. contradiction.
Qed.

(** What [finalizeBucket] returns for a bucket that has an entry. *)
Lemma finalizeBucket_some (platform : string) (bucket : Bucket) :
  entries bucket <> [] ->
  exists c l,
    last (segment (sortBy compareJuld (entries bucket))) = Some c /\
    last c = Some l /\
    finalizeBucket platform bucket =
      Some {| id := platform;
              type := default core (btype bucket);
              latest := copyEntry l;
              history := map copyEntry (sortBy compareJuld (entries bucket));
              cycles := map (map toProfilePoint)
                          (segment (sortBy compareJuld (entries bucket))) |}.
Proof.
  intros Hne.
  set (sorted := sortBy compareJuld (entries bucket)).
  assert (Hs : sorted <> []).
  { intros E. apply sortBy_nil_inv in E. contradiction. }
  assert (Hc : segment sorted <> []).
  { intros E. rewrite segment_cutBy in E. apply cutBy_nil_inv in E.
    contradiction. }
  destruct (last_of_nonempty _ Hc) as (c & Ec).
  assert (Hcne : c <> []).
  { pose proof (segment_nonempty sorted) as F.
    rewrite Forall_forall in F. apply F.
    apply last_Some_elem_of. exact Ec. }
  destruct (last_of_nonempty _ Hcne) as (l & El).
  exists c, l. repeat split; try assumption.
  unfold finalizeBucket, lastOf. fold sorted. rewrite Ec. simpl.
  rewrite El. reflexivity.
Qed.

(** The object literal of a cycle point copies the nine profile fields of
    the entry, each under its own name. *)
Lemma toProfilePoint_shows (h : Entry) : showsEntry h (toProfilePoint h).
Proof. unfold showsEntry. repeat split. Qed.

Lemma shows_map (l : list Entry) :
  Forall2 showsEntry l (map toProfilePoint l).
Proof.
  induction l as [|h l IH]; simpl; constructor;
    [apply toProfilePoint_shows | exact IH].
Qed.

Lemma shows_map_map (pieces : list (list Entry)) :
  Forall2 (Forall2 showsEntry) pieces (map (map toProfilePoint) pieces).
Proof.
  induction pieces as [|c pieces IH]; simpl; constructor;
    [apply shows_map | exact IH].
Qed.

(** The record of one bucket. *)
Lemma finalizeBucket_partition (platform : string) (bucket : Bucket) :
  entries bucket <> [] ->
  exists f,
    finalizeBucket platform bucket = Some f /\
    id f = platform /\
    history f = sortBy compareJuld (entries bucket) /\
    history f ≡ₚ entries bucket /\
    Sorted (notBefore compareJuld) (history f) /\
    (exists pieces : list (list Entry),
        concat pieces = history f /\
        Forall (fun c => c <> []) pieces /\
        Forall2 (Forall2 showsEntry) pieces (cycles f)) /\
    Forall2 showsEntry (history f) (concat (cycles f)).
Proof.
  intros Hne.
  destruct (finalizeBucket_some platform bucket Hne) as (c & l & _ & _ & E).
  eexists. split; [exact E|]. simpl.
  rewrite map_copyEntry. split; [reflexivity|]. repeat split.
  - apply sortBy_perm.
  - apply history_sorted.
  - exists (segment (sortBy compareJuld (entries bucket))).
    repeat split.
    + apply concat_segment.
    + apply segment_nonempty.
    + apply shows_map_map.
  - rewrite <- concat_map, concat_segment. apply shows_map.
Qed.

Lemma finalizeFloatsFromMap_some (idToEntries : IdMap) :
  Forall (fun pb => entries (snd pb) <> []) idToEntries ->
  exists floats, finalizeFloatsFromMap idToEntries = Some floats.
Proof.
  induction idToEntries as [|[platform bucket] m IH]; intros H.
  - exists []. reflexivity.
  - inversion H as [|? ? Hb Hm]; subst. simpl in Hb.
    destruct (IH Hm) as (fs & Efs).
    destruct (finalizeBucket_partition platform bucket Hb) as (f & E & _).
    exists (f :: fs). simpl. rewrite E. simpl. rewrite Efs. reflexivity.
Qed.

(** C1.  For a map whose buckets all have an entry (as every bucket that
    [loadFloatsStreaming] creates has), [finalizeFloatsFromMap] returns one
    record per bucket, in order, and for each of them: [history] is the
    sorted entry sequence, which holds the entries of the bucket, none lost
    and none repeated, in ascending order of time; [cycles] is a partition
    of it into non-empty consecutive pieces, point for point; flattened,
    the cycles are as long as the history and their points are its
    entries in the same order, each point carrying the latitude,
    longitude, pressure, time, temperature, salinity, oxygen, nitrate and
    pH of the entry at its position. *)
Theorem cycles_flatten_to_history (idToEntries : IdMap) :
  Forall (fun pb => entries (snd pb) <> []) idToEntries ->
  exists floats,
    finalizeFloatsFromMap idToEntries = Some floats /\
    Forall2 (fun pb f =>
               id f = fst pb /\
               history f = sortBy compareJuld (entries (snd pb)) /\
               history f ≡ₚ entries (snd pb) /\
               Sorted (notBefore compareJuld) (history f) /\
               (exists pieces : list (list Entry),
                   concat pieces = history f /\
                   Forall (fun c => c <> []) pieces /\
                   Forall2 (Forall2
                              (fun (h : Entry) (p : ProfilePoint) =>
                                 pp_latitude p = latitude h /\
                                 pp_longitude p = longitude h /\
                                 pp_pres p = pres h /\
                                 pp_juld p = juld h /\
                                 pp_temp p = temp h /\
                                 pp_psal p = psal h /\
                                 pp_doxy p = doxy h /\
                                 pp_nitrate p = nitrate h /\
                                 pp_ph p = ph h))
                           pieces (cycles f)) /\
               Forall2 (fun (h : Entry) (p : ProfilePoint) =>
                          pp_latitude p = latitude h /\
                          pp_longitude p = longitude h /\
                          pp_pres p = pres h /\
                          pp_juld p = juld h /\
                          pp_temp p = temp h /\
                          pp_psal p = psal h /\
                          pp_doxy p = doxy h /\
                          pp_nitrate p = nitrate h /\
                          pp_ph p = ph h)
                       (history f) (concat (cycles f)))
            idToEntries floats.
Proof.
  induction idToEntries as [|[platform bucket] m IH]; intros H.
  - exists []. split; [reflexivity | constructor].
  - inversion H as [|? ? Hb Hm]; subst. simpl in Hb.
    destruct (IH Hm) as (fs & Efs & F).
    destruct (finalizeBucket_partition platform bucket Hb) as (f & E & P).
    exists (f :: fs). split.
    + simpl. rewrite E. simpl. rewrite Efs. reflexivity.
    + constructor; [exact P | exact F].
Qed.

Lemma cycles_flatten_to_history_witness :
  let m := [("1001", {| entries := [Sample.at_ (Some (Num.ofZ 5))
                                               (Some (Num.ofZ 1500));
                                    Sample.day 1];
                        btype := Some core |})] in
  Forall (fun pb => entries (snd pb) <> []) m /\
  exists f,
    finalizeFloatsFromMap m = Some [f] /\
    map juld (history f) = [Some (Num.ofZ 1); Some (Num.ofZ 5)] /\
    map (map pp_juld) (cycles f) = [[Some (Num.ofZ 1)]; [Some (Num.ofZ 5)]] /\
    map (map pp_pres) (cycles f) = [[None]; [Some (Num.ofZ 1500)]] /\
    Forall2 (fun (h : Entry) (p : ProfilePoint) =>
               pp_latitude p = latitude h /\
               pp_longitude p = longitude h /\
               pp_pres p = pres h /\
               pp_juld p = juld h /\
               pp_temp p = temp h /\
               pp_psal p = psal h /\
               pp_doxy p = doxy h /\
               pp_nitrate p = nitrate h /\
               pp_ph p = ph h)
            (history f) (concat (cycles f)).
Proof.
  intros m.
  assert (H : Forall (fun pb : string * Bucket => entries (snd pb) <> []) m).
  { repeat constructor. discriminate. }
  split; [exact H|].
  destruct (cycles_flatten_to_history m H) as (floats & E & F).
  inversion F as [|pb f ? fs (_ & Hh & _ & _ & _ & Hflat) F']; subst.
  inversion F'; subst.
  exists f. split; [exact E|].
  assert (Ef : finalizeFloatsFromMap m = Some [f]) by exact E.
  vm_compute in Ef. injection Ef as Ef.
  split; [rewrite <- Ef; vm_compute; reflexivity|].
  split; [rewrite <- Ef; vm_compute; reflexivity|].
  split; [rewrite <- Ef; vm_compute; reflexivity|].
  exact Hflat.
Defined.

(** When the previous time and pressure are absent or non-zero, the loop
    decides as the specification words it. *)
Lemma loopBreaks_specBreaks (p e : Entry) :
  (juld p = None \/ truthy (juld p) = true) ->
  (pres p = None \/ truthy (pres p) = true) ->
  loopBreaks p e = specBreaks p e.
Proof.
  unfold loopBreaks, specBreaks, timeBreaks, presBreaks, timeGap, presGap.
  intros [-> | Hj] [-> | Hp]; simpl.
  - reflexivity.
  - rewrite Hp. destruct (pres p); [reflexivity | discriminate].
  - rewrite Hj. destruct (juld p); [reflexivity | discriminate].
  - rewrite Hj, Hp.
    destruct (juld p); [|discriminate]. destruct (pres p); [|discriminate].
    reflexivity.
Qed.

(** C2 (the loop misses a case of the specification).  The rows
    [PLATFORM_NUMBER=1001, LATITUDE=10, LONGITUDE=20] with [JULD=0] and
    [JULD=5] give two entries whose times are 0 and 5, already in sorted
    order.  The gap of 5 days exceeds 1, so the second entry starts a new
    cycle as the specification words it ([specBreaks], [specSegment]); the
    loop tests the previous time [0] for truthiness, takes the gap to be 0
    and keeps both entries in one cycle, the only cycle of the record. *)
Theorem zero_time_gap_not_detected :
  exists e0 e5,
    onRow (Sample.row "0") = Pushed "1001" e0 /\
    onRow (Sample.row "5") = Pushed "1001" e5 /\
    juld e0 = Some (Num.ofZ 0) /\ juld e5 = Some (Num.ofZ 5) /\
    sortBy compareJuld [e0; e5] = [e0; e5] /\
    Num.gt (Num.abs (Num.sub (Num.ofZ 5) (Num.ofZ 0))) one = true /\
    specBreaks e0 e5 = true /\
    specSegment [e0; e5] = [[e0]; [e5]] /\
    timeGap (juld e0) e5 = Num.zero /\
    segment [e0; e5] = [[e0; e5]] /\
    exists f,
      finalizeFloatsFromMap
        [("1001", {| entries := [e0; e5]; btype := Some core |})] = Some [f] /\
      cycles f = [[toProfilePoint e0; toProfilePoint e5]].
Proof.
  eexists. eexists.
  split; [vm_compute; reflexivity|].
  split; [vm_compute; reflexivity|].
  do 7 (split; [vm_compute; reflexivity|]).
  split; [vm_compute; reflexivity|].
  eexists. split; vm_compute; reflexivity.
Qed.

Lemma timeGap_after_zero (z : number) (e : Entry) :
  Num.eqb z Num.zero = true -> timeGap (Some z) e = Num.zero.
Proof.
  destruct z as [s|s| |s m x]; intros H.
  - reflexivity.
  - destruct s; discriminate H.
  - discriminate H.
  - destruct s; discriminate H.
Qed.

(** C10. In the sorted entries of a bucket let [a], with time value
    exactly 0, be followed by [b], with a time value above 1.  Then the
    time gap computed at [b] is 0, as it is without a previous time value,
    and the time condition does not fire; the record has [a] and [b] next
    to each other in one cycle, unless the pressure condition holds of
    them, in which case [b] starts the next cycle. *)
Theorem zero_time_suppresses_gap (platform : string) (bucket : Bucket)
  (l1 l2 : list Entry) (a b : Entry) (z t : number) :
  sortBy compareJuld (entries bucket) = l1 ++ a :: b :: l2 ->
  juld a = Some z -> Num.eqb z Num.zero = true ->
  juld b = Some t -> Num.gt t one = true ->
  timeGap (juld a) b = Num.zero /\
  timeGap (juld a) b = timeGap None b /\
  timeBreaks a b = false /\
  exists f gs1 g1 g2 gs2,
    finalizeBucket platform bucket = Some f /\
    concat gs1 ++ g1 = l1 /\ g2 ++ concat gs2 = l2 /\
    cycles f =
      map (map toProfilePoint)
          (if presBreaks a b
           then gs1 ++ [g1 ++ [a]] ++ [b :: g2] ++ gs2
           else gs1 ++ [g1 ++ a :: b :: g2] ++ gs2).
Proof.
  intros Hs Ha Hz Hb Ht.
  assert (Hgap : timeGap (juld a) b = Num.zero).
  { rewrite Ha. apply timeGap_after_zero. exact Hz. }
  assert (Htb : timeBreaks a b = false).
  { unfold timeBreaks. rewrite Hgap. reflexivity. }
  split; [exact Hgap|]. split; [exact Hgap|]. split; [exact Htb|].
  assert (Hne : entries bucket <> []).
  { intros E. rewrite E in Hs. destruct l1; discriminate. }
  destruct (finalizeBucket_some platform bucket Hne) as (c & l & _ & _ & E).
  destruct (cutBy_app loopBreaks l1 l2 a b) as (gs1 & g1 & g2 & gs2 & C1 & C2 & Ec).
  eexists. exists gs1, g1, g2, gs2.
  split; [exact E|]. split; [exact C1|]. split; [exact C2|].
  simpl. rewrite Hs, segment_cutBy, Ec.
  unfold loopBreaks. rewrite Htb. reflexivity.
Qed.

Lemma zero_time_suppresses_gap_witness :
  let bucket := {| entries := [Sample.day 5; Sample.day 0];
                   btype := Some core |} in
  sortBy compareJuld (entries bucket)
    = [] ++ Sample.day 0 :: Sample.day 5 :: [] /\
  juld (Sample.day 0) = Some (Num.ofZ 0) /\
  Num.eqb (Num.ofZ 0) Num.zero = true /\
  juld (Sample.day 5) = Some (Num.ofZ 5) /\
  Num.gt (Num.ofZ 5) one = true /\
  timeGap (juld (Sample.day 0)) (Sample.day 5) = Num.zero /\
  timeGap (juld (Sample.day 0)) (Sample.day 5) = timeGap None (Sample.day 5) /\
  timeBreaks (Sample.day 0) (Sample.day 5) = false /\
  exists f gs1 g1 g2 gs2,
    finalizeBucket "1001" bucket = Some f /\
    concat gs1 ++ g1 = [] /\ g2 ++ concat gs2 = [] /\
    cycles f =
      map (map toProfilePoint)
          (if presBreaks (Sample.day 0) (Sample.day 5)
           then gs1 ++ [g1 ++ [Sample.day 0]] ++ [Sample.day 5 :: g2] ++ gs2
           else gs1 ++ [g1 ++ Sample.day 0 :: Sample.day 5 :: g2] ++ gs2).
Proof.
  split; [vm_compute; reflexivity|]. split; [reflexivity|].
  split; [reflexivity|]. split; [reflexivity|]. split; [reflexivity|].
  apply (zero_time_suppresses_gap "1001"
           {| entries := [Sample.day 5; Sample.day 0]; btype := Some core |}
           [] [] (Sample.day 0) (Sample.day 5) (Num.ofZ 0) (Num.ofZ 5));
    vm_compute; reflexivity.
Defined.

(** ** Alias resolution *)

(** [keyMap] holds, under a lower-cased name, the last key of the row that
    lower-cases to it. *)
Lemma keyMap_fold_lookup (r : Row) (name : string) (keyMap : gmap string string) :
  fold_left (fun keyMap k => <[Str.toLowerCase k := k]> keyMap) (map fst r) keyMap
    !! Str.toLowerCase name =
  match lastMatching r name with
  | Some (k, _) => Some k
  | None => keyMap !! Str.toLowerCase name
  end.
Proof.
  revert keyMap. induction r as [|[k v] r IH]; intros keyMap; simpl.
  - reflexivity.
  - rewrite IH. destruct (lastMatching r name) as [[k' v']|]; [reflexivity|].
    destruct (String.eqb_spec (Str.toLowerCase k) (Str.toLowerCase name)) as [E|N].
    + rewrite E. apply lookup_insert_eq.
    + rewrite lookup_insert_ne by exact N. reflexivity.
Qed.

Lemma keyMapOf_lookup (r : Row) (name : string) :
  keyMapOf r !! Str.toLowerCase name = fst <$> lastMatching r name.
Proof.
  unfold keyMapOf. rewrite keyMap_fold_lookup.
  destruct (lastMatching r name) as [[k v]|]; [reflexivity|].
  apply lookup_empty.
Qed.

Lemma lastMatching_In (r : Row) (name k v : string) :
  lastMatching r name = Some (k, v) -> In (k, v) r.
Proof.
  induction r as [|[k0 v0] r IH]; simpl; [discriminate|].
  destruct (lastMatching r name) as [kv|].
  - intros [= ->]. right. apply IH. reflexivity.
  - destruct (String.eqb _ _); [|discriminate].
    intros [= -> ->]. left. reflexivity.
Qed.

Lemma prop_In (r : Row) (k v : string) :
  NoDup (map fst r) -> In (k, v) r -> prop r k = Some v.
Proof.
  induction r as [|[k0 v0] r IH]; simpl; [contradiction|].
  intros Hnd [E | Hin].
  - injection E as -> ->. rewrite String.eqb_refl. reflexivity.
  - apply NoDup_cons in Hnd as [Hk0 Hnd].
    destruct (String.eqb_spec k0 k) as [->|N].
    + exfalso. apply Hk0. apply list_elem_of_In.
      apply (in_map fst) in Hin. exact Hin.
    + apply IH; assumption.
Qed.

(** C4 (as amended).  For a row (an object: distinct keys) and an alias
    list, [get] returns the value of the first alias that agrees up to case
    with a non-empty key of the row and whose value there is non-empty, and
    the empty string when there is none; of several keys that agree with
    the alias up to case, the last one of the row is the one consulted, so
    that its value decides, whichever alias is listed first. *)
Theorem get_resolves_by_last_key (r : Row) (names : list string) :
  NoDup (map fst r) -> get r names = resolve r names.
Proof.
  intros Hnd. induction names as [|name rest IH]; simpl; [reflexivity|].
  rewrite keyMapOf_lookup.
  destruct (lastMatching r name) as [[k v]|] eqn:E; simpl; [|exact IH].
  rewrite (prop_In r k v Hnd (lastMatching_In r name k v E)).
  unfold Str.truthy. destruct (Str.isEmpty k); simpl; [exact IH|].
  destruct (Str.isEmpty v); [exact IH | reflexivity].
Qed.

Lemma get_resolves_by_last_key_witness :
  let r := [("LATITUDE", "10"); ("latitude", "20"); ("lon", "5")] in
  NoDup (map fst r) /\
  get r Alias.latitude = resolve r Alias.latitude /\
  resolve r Alias.latitude = "20".
Proof.
  assert (H : NoDup (map fst [("LATITUDE", "10"); ("latitude", "20");
                              ("lon", "5")])).
  { apply (bool_decide_unpack _). vm_compute. exact I. }
  split; [exact H|]. split.
  - apply (get_resolves_by_last_key
             [("LATITUDE", "10"); ("latitude", "20"); ("lon", "5")]
             Alias.latitude H).
  - reflexivity.
Defined.

(** C4 fails as stated: with both [LATITUDE] and [latitude] filled in, the
    alias listed first does not always win. *)
Lemma first_listed_alias_can_lose :
  ~ (forall (r : Row) (a b : string),
        NoDup (map fst r) ->
        prop r "LATITUDE" = Some a -> prop r "latitude" = Some b ->
        a <> "" -> b <> "" ->
        get r ["LATITUDE"; "latitude"; "lat"] = a).
Proof.
  intros H.
  specialize (H [("LATITUDE", "10"); ("latitude", "20")] "10" "20").
  assert (Hnd : NoDup (map fst [("LATITUDE", "10"); ("latitude", "20")])).
  { apply (bool_decide_unpack _). vm_compute. exact I. }
  specialize (H Hnd eq_refl eq_refl).
  assert (Hget : get [("LATITUDE", "10"); ("latitude", "20")]
                     ["LATITUDE"; "latitude"; "lat"] = "20")
    by (vm_compute; reflexivity).
  rewrite Hget in H. discriminate H; discriminate.
Qed.

Lemma toLowerCase_nil_inv (s : string) : Str.toLowerCase s = "" -> s = "".
Proof. destruct s; [reflexivity | discriminate]. Qed.

Lemma lastMatching_key (r : Row) (name k v : string) :
  lastMatching r name = Some (k, v) ->
  Str.toLowerCase k = Str.toLowerCase name.
Proof.
  induction r as [|[k0 v0] r IH]; simpl; [discriminate|].
  destruct (lastMatching r name) as [kv|].
  - intros [= ->]. apply IH. reflexivity.
  - destruct (String.eqb_spec (Str.toLowerCase k0) (Str.toLowerCase name));
      [|discriminate].
    intros [= <- _]. assumption.
Qed.

(** When no two keys of the row agree up to case, the key consulted is
    the only candidate. *)
Lemma lastMatching_firstMatching (r : Row) (name : string) :
  NoDup (map (fun kv => Str.toLowerCase (fst kv)) r) ->
  lastMatching r name = firstMatching r name.
Proof.
  induction r as [|[k v] r IH]; simpl; [reflexivity|].
  intros Hnd. apply NoDup_cons in Hnd as [Hk Hnd].
  destruct (String.eqb_spec (Str.toLowerCase k) (Str.toLowerCase name)) as [E|N].
  - destruct (lastMatching r name) as [[k' v']|] eqn:El; [|reflexivity].
    exfalso. apply Hk. apply list_elem_of_In.
    pose proof (lastMatching_In r name k' v' El) as Hin.
    apply (in_map (fun kv => Str.toLowerCase (fst kv)) r (k', v')) in Hin.
    simpl in Hin. rewrite E, <- (lastMatching_key r name k' v' El). exact Hin.
  - rewrite (IH Hnd). destruct (firstMatching r name); reflexivity.
Qed.

(** For a row without keys that differ only in case, and aliases that
    are not the empty string, [get] is the resolution the specification
    words: the first alias present and non-empty wins. *)
Lemma get_first_alias_without_case_clash (r : Row) (names : list string) :
  NoDup (map (fun kv => Str.toLowerCase (fst kv)) r) ->
  Forall (fun name => name <> "") names ->
  get r names = resolveFirst r names.
Proof.
  intros Hnd Hnames.
  assert (Hkeys : NoDup (map fst r)).
  { clear Hnames. induction r as [|[k v] r IH]; simpl; [constructor|].
    simpl in Hnd. apply NoDup_cons in Hnd as [Hk Hnd].
    apply NoDup_cons. split; [|exact (IH Hnd)].
    intros Hin. apply Hk. apply list_elem_of_In. apply list_elem_of_In in Hin.
    apply in_map_iff in Hin as ([k' v'] & Ek & Hin). simpl in Ek. subst k'.
    apply (in_map (fun kv => Str.toLowerCase (fst kv)) r (k, v')). exact Hin. }
  induction names as [|name rest IH]; [reflexivity|].
  apply Forall_cons in Hnames as [Hname Hrest].
  change (get r (name :: rest)) with
    (match keyMapOf r !! Str.toLowerCase name with
     | Some k =>
         if Str.truthy k then
           match prop r k with
           | Some v => if Str.isEmpty v then get r rest else v
           | None => get r rest
           end
         else get r rest
     | None => get r rest
     end).
  simpl resolveFirst.
  rewrite keyMapOf_lookup, <- (lastMatching_firstMatching r name Hnd).
  destruct (lastMatching r name) as [[k v]|] eqn:E; simpl; [|exact (IH Hrest)].
  rewrite (prop_In r k v Hkeys (lastMatching_In r name k v E)).
  assert (Hk : Str.truthy k = true).
  { destruct k; [|reflexivity]. exfalso. apply Hname.
    apply toLowerCase_nil_inv. symmetry.
    exact (lastMatching_key r name "" v E). }
  rewrite Hk. rewrite (IH Hrest). reflexivity.
Qed.

(** The winner follows the order of the columns, not of the aliases; a
    later empty column hides an earlier filled one of the same name up to
    case, and the aliases that remain are still tried. *)
Example get_follows_column_order :
  get [("LATITUDE", "10"); ("latitude", "20")] Alias.latitude = "20" /\
  get [("latitude", "20"); ("LATITUDE", "10")] Alias.latitude = "10" /\
  get [("LATITUDE", "10"); ("latitude", "")] Alias.latitude = "" /\
  get [("LATITUDE", "10"); ("latitude", ""); ("lat", "30")] Alias.latitude
    = "30".
Proof. repeat split; vm_compute; reflexivity. Qed.

(** ** Strings *)

Lemma append_cons (c : ascii) (s t : string) :
  String c s +:+ t = String c (s +:+ t).
Proof. reflexivity. Qed.

Lemma append_nil_l (t : string) : "" +:+ t = t.
Proof. reflexivity. Qed.

Lemma append_assoc (a b c : string) : (a +:+ b) +:+ c = a +:+ (b +:+ c).
Proof.
  induction a as [|x a IH]; [reflexivity|].
  rewrite !append_cons, IH. reflexivity.
Qed.

Lemma toLowerCase_app (a b : string) :
  Str.toLowerCase (a +:+ b) = Str.toLowerCase a +:+ Str.toLowerCase b.
Proof.
  induction a as [|x a IH]; [reflexivity|].
  rewrite append_cons. simpl. rewrite IH. reflexivity.
Qed.

Lemma startsWith_app (p b : string) : Str.startsWith p (p +:+ b) = true.
Proof.
  induction p as [|x p IH]; [reflexivity|].
  rewrite append_cons. simpl. rewrite Ascii.eqb_refl. exact IH.
Qed.

Lemma startsWith_inv (p s : string) :
  Str.startsWith p s = true -> exists b, s = p +:+ b.
Proof.
  revert s. induction p as [|x p IH]; intros s H.
  - exists s. reflexivity.
  - destruct s as [|y s]; [discriminate|]. simpl in H.
    apply andb_true_iff in H as [Hxy Hp].
    apply Ascii.eqb_eq in Hxy as ->.
    destruct (IH s Hp) as (b & ->). exists b. reflexivity.
Qed.

Lemma includes_unfold (s p : string) :
  Str.includes s p =
  Str.startsWith p s ||
  match s with EmptyString => false | String _ s' => Str.includes s' p end.
Proof. destruct s; reflexivity. Qed.

Lemma includes_app_r (a s p : string) :
  Str.includes s p = true -> Str.includes (a +:+ s) p = true.
Proof.
  intros H. induction a as [|x a IH]; [exact H|].
  rewrite append_cons, includes_unfold, IH. apply orb_true_r.
Qed.

(** [includes] is containment as a substring. *)
Lemma includes_iff (s p : string) :
  Str.includes s p = true <-> exists a b, s = a +:+ p +:+ b.
Proof.
  split.
  - induction s as [|x s IH]; rewrite includes_unfold; intros H.
    + rewrite orb_false_r in H. apply startsWith_inv in H as (b & ->).
      exists "", b. reflexivity.
    + apply orb_true_iff in H as [H | H].
      * apply startsWith_inv in H as (b & ->). exists "", b. reflexivity.
      * destruct (IH H) as (a & b & ->). exists (String x a), b. reflexivity.
  - intros (a & b & ->). apply includes_app_r.
    rewrite includes_unfold, startsWith_app. reflexivity.
Qed.

(** ** Files and their source type *)

Lemma pathJoin_below (root current name : string) :
  current = root \/ below root current ->
  below root (pathJoin current name).
Proof.
  intros [-> | (rel & ->)].
  - exists name. reflexivity.
  - exists (rel +:+ sep +:+ name). unfold pathJoin.
    rewrite !append_assoc. reflexivity.
Qed.

Lemma scanDirents_below (root current : string)
  (dirents : list (string * DirentKind)) (stack results stack' results' : list string) :
  current = root \/ below root current ->
  Forall (fun d => d = root \/ below root d) stack ->
  Forall (below root) results ->
  scanDirents current dirents stack results = (stack', results') ->
  Forall (fun d => d = root \/ below root d) stack' /\
  Forall (below root) results'.
Proof.
  intros Hc. revert stack results.
  induction dirents as [|[name kind] rest IH]; intros stack results Hs Hr; simpl.
  - intros [= <- <-]. split; assumption.
  - pose proof (pathJoin_below root current name Hc) as Hb.
    destruct kind.
    + apply IH; [|exact Hr]. constructor; [right; exact Hb | exact Hs].
    + destruct (String.eqb _ _).
      * apply IH; [exact Hs|]. apply Forall_app. split; [exact Hr|].
        constructor; [exact Hb | constructor].
      * apply IH; assumption.
    + apply IH; assumption.
Qed.

Lemma listLoop_below (root : string) (fs : FileSystem) (fuel : nat)
  (stack results files : list string) :
  Forall (fun d => d = root \/ below root d) stack ->
  Forall (below root) results ->
  listLoop fuel fs stack results = Some files ->
  Forall (below root) files.
Proof.
  revert stack results.
  induction fuel as [|fuel IH]; intros stack results Hs Hr; simpl.
  - destruct stack; [intros [= <-]; exact Hr | discriminate].
  - destruct stack as [|current stack]; [intros [= <-]; exact Hr|].
    apply Forall_cons in Hs as [Hc Hs].
    destruct (readdirSync fs current) as [dirents|].
    + destruct (scanDirents current dirents stack results)
        as [stack' results'] eqn:E.
      destruct (scanDirents_below root current dirents stack results
                  stack' results' Hc Hs Hr E) as [Hs' Hr'].
      apply IH; assumption.
    + apply IH; assumption.
Qed.

(** Every listed file lies below the directory the listing started from. *)
Lemma listFilesRecursive_below (fuel : nat) (fs : FileSystem)
  (startDir : string) (files : list string) :
  listFilesRecursive fuel fs startDir = Some files ->
  Forall (below startDir) files.
Proof.
  unfold listFilesRecursive. destruct (existsSync fs startDir).
  - apply listLoop_below; repeat constructor.
  - intros [= <-]. constructor.
Qed.

Lemma below_bgcRoot_is_bgc (dirname file : string) :
  below (bgcRoot dirname) file -> sourceTypeOf file = bgc.
Proof.
  intros (rel & ->). unfold sourceTypeOf.
  assert (H : Str.includes
                (Str.toLowerCase (bgcRoot dirname +:+ sep +:+ rel))
                (sep +:+ "bgc" +:+ sep) = true).
  { apply includes_iff.
    exists (Str.toLowerCase (pathJoin dirname "data")), (Str.toLowerCase rel).
    unfold bgcRoot, pathJoin.
    rewrite !toLowerCase_app, !append_assoc. reflexivity. }
  rewrite H. reflexivity.
Qed.

(** A file found under the bgc root is tagged bgc. *)
Lemma bgcRoot_files_are_bgc (fuel : nat) (fs : FileSystem)
  (dirname : string) (files : list string) (file : string) :
  listFilesRecursive fuel fs (bgcRoot dirname) = Some files ->
  In file files -> sourceTypeOf file = bgc.
Proof.
  intros Hl Hin. apply listFilesRecursive_below in Hl.
  rewrite Forall_forall in Hl. apply (below_bgcRoot_is_bgc dirname).
  apply Hl. apply list_elem_of_In. exact Hin.
Qed.

(** ** Paths without a directory called bgc *)

Lemma includes_cons_false (c : ascii) (s p : string) :
  Str.includes (String c s) p = false -> Str.includes s p = false.
Proof.
  rewrite includes_unfold. intros H. apply orb_false_iff in H as [_ H]. exact H.
Qed.

Lemma includes_cons_true (c : ascii) (s p : string) :
  Str.includes s p = true -> Str.includes (String c s) p = true.
Proof. intros H. rewrite includes_unfold, H. apply orb_true_r. Qed.

Lemma startsWith_includes (s p : string) :
  Str.startsWith p s = true -> Str.includes s p = true.
Proof. intros H. rewrite includes_unfold, H. reflexivity. Qed.

(** A pattern that ends with a slash cannot end inside a name. *)
Lemma startsWith_beyond (q s n : string) :
  noSlash n ->
  Str.startsWith (q +:+ "/") (s +:+ n) = true ->
  Str.startsWith (q +:+ "/") s = true.
Proof.
  unfold noSlash. revert s n. induction q as [|x q IH]; intros s n Hn H.
  - change ("" +:+ "/") with "/" in *. destruct s as [|c s]; [|exact H].
    change ("" +:+ n) with n in H. apply startsWith_includes in H. congruence.
  - rewrite append_cons in *. destruct s as [|c s].
    + rewrite append_nil_l in H. destruct n as [|y n]; [discriminate H|].
      simpl in H. apply andb_true_iff in H as [_ H].
      apply includes_cons_false in Hn.
      specialize (IH "" n Hn H). destruct q; discriminate IH.
    + rewrite append_cons in H. simpl in H. simpl.
      apply andb_true_iff in H as [Hxc H]. rewrite Hxc. simpl.
      exact (IH s n (Hn) H).
Qed.

Lemma includes_beyond (q s n : string) :
  noSlash n ->
  Str.includes (s +:+ n) (q +:+ "/") = true ->
  Str.includes s (q +:+ "/") = true.
Proof.
  intros Hn. induction s as [|c s IH]; intros H.
  - rewrite append_nil_l in H. apply includes_iff in H as (a & b & ->).
    exfalso. unfold noSlash in Hn.
    assert (Str.includes (a +:+ (q +:+ "/") +:+ b) "/" = true); [|congruence].
    apply includes_iff. exists (a +:+ q), b. rewrite !append_assoc. reflexivity.
  - rewrite append_cons, includes_unfold in H.
    apply orb_true_iff in H as [H | H].
    + change (String c (s +:+ n)) with (String c s +:+ n) in H.
      apply startsWith_includes. exact (startsWith_beyond q _ n Hn H).
    + apply includes_cons_true. exact (IH H).
Qed.

(** Splitting at the last slash is unique. *)
Lemma includes_slash_mid (a b : string) :
  Str.includes (a +:+ String "/" b) "/" = true.
Proof. apply includes_iff. exists a, b. reflexivity. Qed.

Lemma last_component_unique (x y n m : string) :
  noSlash n -> noSlash m ->
  x +:+ "/" +:+ n = y +:+ "/" +:+ m -> n = m.
Proof.
  unfold noSlash. revert y. induction x as [|c x IH]; intros y Hn Hm E.
  - destruct y as [|d y];
      repeat (rewrite append_nil_l in E || rewrite append_cons in E).
    + injection E as ->. reflexivity.
    + exfalso. injection E as <- ->.
      rewrite includes_slash_mid in Hn. discriminate Hn.
  - destruct y as [|d y];
      repeat (rewrite append_nil_l in E || rewrite append_cons in E).
    + exfalso. injection E as -> <-.
      rewrite includes_slash_mid in Hm. discriminate Hm.
    + injection E as _ E. apply (IH y Hn Hm).
      repeat (rewrite append_nil_l || rewrite append_cons). exact E.
Qed.

Lemma snoc_inj (u v : string) (c d : ascii) :
  u +:+ String c "" = v +:+ String d "" -> u = v /\ c = d.
Proof.
  revert v. induction u as [|x u IH]; intros v E.
  - rewrite append_nil_l in E. destruct v as [|y v].
    + rewrite append_nil_l in E. injection E as ->. split; reflexivity.
    + rewrite append_cons in E. injection E as _ E.
      destruct v; discriminate E.
  - rewrite append_cons in E. destruct v as [|y v].
    + rewrite append_nil_l in E. injection E as _ E.
      destruct u; discriminate E.
    + rewrite append_cons in E. injection E as -> E.
      destruct (IH v E) as [-> ->]. split; reflexivity.
Qed.

Lemma snoc_cases (b : string) : b = "" \/ exists b' c, b = b' +:+ String c "".
Proof.
  induction b as [|x b IH]; [left; reflexivity|]. right.
  destruct IH as [-> | (b' & c & ->)].
  - exists "", x. reflexivity.
  - exists (String x b'), c. reflexivity.
Qed.

(** One more component [n], a name other than bgc, keeps a directory
    clean. *)
Lemma no_bgc_step (s n : string) :
  Str.includes (s +:+ "/") "/bgc/" = false ->
  noSlash n -> n <> "bgc" ->
  Str.includes ((s +:+ "/") +:+ n +:+ "/") "/bgc/" = false.
Proof.
  intros Hs Hn Hne.
  destruct (Str.includes ((s +:+ "/") +:+ n +:+ "/") "/bgc/") eqn:E;
    [exfalso|reflexivity].
  apply includes_iff in E as (a & b & E).
  destruct (snoc_cases b) as [-> | (b' & c & ->)].
  - assert (E' : (s +:+ "/" +:+ n) +:+ "/" = (a +:+ "/bgc") +:+ "/").
    { rewrite !append_assoc in *. exact E. }
    apply snoc_inj in E' as [E' _].
    apply Hne. apply (last_component_unique s a n "bgc" Hn); [reflexivity|].
    rewrite !append_assoc in *. exact E'.
  - assert (E' : (s +:+ "/" +:+ n) +:+ String "/" ""
                 = (a +:+ "/bgc/" +:+ b') +:+ String c "").
    { rewrite !append_assoc in *. exact E. }
    apply snoc_inj in E' as [E' _].
    assert (H : Str.includes ((s +:+ "/") +:+ n) ("/bgc" +:+ "/") = true).
    { apply includes_iff. exists a, b'. rewrite append_assoc. exact E'. }
    apply includes_beyond in H; [|exact Hn].
    change ("/bgc" +:+ "/") with "/bgc/" in H. congruence.
Qed.

Lemma lowerChar_slash (c : ascii) :
  Ascii.eqb "/" (Str.lowerChar c) = Ascii.eqb "/" c.
Proof.
  destruct c as [[] [] [] [] [] [] [] []]; vm_compute; reflexivity.
Qed.

Lemma includes_slash_cons (c : ascii) (s : string) :
  Str.includes (String c s) "/" = Ascii.eqb "/" c || Str.includes s "/".
Proof.
  rewrite includes_unfold.
  change (Str.startsWith "/" (String c s)) with (Ascii.eqb "/" c && true).
  rewrite andb_true_r. reflexivity.
Qed.

Lemma noSlash_toLowerCase (n : string) :
  noSlash n -> noSlash (Str.toLowerCase n).
Proof.
  unfold noSlash. induction n as [|c n IH]; [reflexivity|].
  change (Str.toLowerCase (String c n))
    with (String (Str.lowerChar c) (Str.toLowerCase n)).
  rewrite !includes_slash_cons, lowerChar_slash.
  intros H. apply orb_false_iff in H as [-> H]. exact (IH H).
Qed.

Lemma pathJoin_cleanDir (d name : string) :
  cleanDir d -> noSlash name -> Str.toLowerCase name <> "bgc" ->
  cleanDir (pathJoin d name).
Proof.
  unfold cleanDir, pathJoin, sep. intros Hd Hn Hne.
  rewrite !toLowerCase_app in *.
  change (Str.toLowerCase "/") with "/" in *.
  rewrite !append_assoc.
  rewrite <- (append_assoc (Str.toLowerCase d) "/").
  apply no_bgc_step; [exact Hd | apply noSlash_toLowerCase; exact Hn | exact Hne].
Qed.

Lemma pathJoin_file_core (d name : string) :
  cleanDir d -> noSlash name -> sourceTypeOf (pathJoin d name) = core.
Proof.
  unfold cleanDir, pathJoin, sourceTypeOf, sep. intros Hd Hn.
  change ("/" +:+ "bgc" +:+ "/") with ("/bgc" +:+ "/").
  destruct (Str.includes (Str.toLowerCase (d +:+ "/" +:+ name))
              ("/bgc" +:+ "/")) eqn:E; [exfalso|reflexivity].
  rewrite !toLowerCase_app in *.
  change (Str.toLowerCase "/") with "/" in *.
  rewrite <- append_assoc in E.
  apply includes_beyond in E; [|apply noSlash_toLowerCase; exact Hn].
  change ("/bgc" +:+ "/") with "/bgc/" in E. congruence.
Qed.

Lemma scanDirents_clean (root current : string)
  (dirents : list (string * DirentKind)) (stack results stack' results' : list string) :
  cleanDir current ->
  Forall (fun nk => noSlash (fst nk) /\
                    (snd nk = isDirectory -> Str.toLowerCase (fst nk) <> "bgc"))
         dirents ->
  Forall cleanDir stack ->
  Forall (fun f => sourceTypeOf f = core) results ->
  scanDirents current dirents stack results = (stack', results') ->
  Forall cleanDir stack' /\ Forall (fun f => sourceTypeOf f = core) results'.
Proof.
  intros Hc. revert stack results.
  induction dirents as [|[name kind] rest IH]; intros stack results Hd Hs Hr; simpl.
  - intros [= <- <-]. split; assumption.
  - apply Forall_cons in Hd as [[Hn Hk] Hd]. simpl in Hn, Hk.
    destruct kind.
    + apply IH; [exact Hd | | exact Hr].
      constructor; [|exact Hs]. apply pathJoin_cleanDir; auto.
    + destruct (String.eqb _ _).
      * apply IH; [exact Hd | exact Hs |]. apply Forall_app. split; [exact Hr|].
        constructor; [|constructor]. apply pathJoin_file_core; assumption.
      * apply IH; assumption.
    + apply IH; assumption.
Qed.

Lemma listLoop_clean (root : string) (fs : FileSystem) (fuel : nat)
  (stack results files : list string) :
  tidyBelow fs root ->
  Forall (fun d => (d = root \/ below root d) /\ cleanDir d) stack ->
  Forall (below root) results ->
  Forall (fun f => sourceTypeOf f = core) results ->
  listLoop fuel fs stack results = Some files ->
  Forall (fun f => sourceTypeOf f = core) files.
Proof.
  intros Htidy. revert stack results.
  induction fuel as [|fuel IH]; intros stack results Hs Hb Hr; simpl.
  - destruct stack; [intros [= <-]; exact Hr | discriminate].
  - destruct stack as [|current stack]; [intros [= <-]; exact Hr|].
    apply Forall_cons in Hs as [[Hcur Hclean] Hs].
    destruct (readdirSync fs current) as [dirents|] eqn:Erd.
    + destruct (scanDirents current dirents stack results)
        as [stack' results'] eqn:E.
      assert (Hd : Forall (fun nk => noSlash (fst nk) /\
                    (snd nk = isDirectory -> Str.toLowerCase (fst nk) <> "bgc"))
                     dirents).
      { apply Forall_forall. intros [name kind] Hin.
        apply list_elem_of_In in Hin.
        exact (Htidy current dirents name kind Hcur Erd Hin). }
      assert (Hs1 : Forall (fun d => d = root \/ below root d) stack).
      { eapply Forall_impl; [exact Hs|]. intros x [H _]. exact H. }
      assert (Hs2 : Forall cleanDir stack).
      { eapply Forall_impl; [exact Hs|]. intros x [_ H]. exact H. }
      destruct (scanDirents_below root current dirents stack results
                  stack' results' Hcur Hs1 Hb E) as [Hs1' Hb'].
      destruct (scanDirents_clean root current dirents stack results
                  stack' results' Hclean Hd Hs2 Hr E) as [Hs2' Hr'].
      apply (IH stack' results'); try assumption.
      apply Forall_forall. intros x Hx. split.
      * rewrite Forall_forall in Hs1'. exact (Hs1' x Hx).
      * rewrite Forall_forall in Hs2'. exact (Hs2' x Hx).
    + apply (IH stack results); assumption.
Qed.

(** Below a root whose own path has no directory called bgc, and below
    which no directory is called bgc, every listed file is tagged core. *)
Lemma clean_root_files_are_core (fuel : nat) (fs : FileSystem)
  (root : string) (files : list string) :
  cleanDir root -> tidyBelow fs root ->
  listFilesRecursive fuel fs root = Some files ->
  Forall (fun f => sourceTypeOf f = core) files.
Proof.
  intros Hc Ht. unfold listFilesRecursive. destruct (existsSync fs root).
  - apply (listLoop_clean root); try assumption; repeat constructor.
    exact Hc.
  - intros [= <-]. constructor.
Qed.

(** C9 (as amended).  The source type of a file is bgc exactly when its
    lower-cased path contains [/bgc/], and core otherwise.  Hence every
    file found under the bgc root is bgc; and a file found under the core
    root, which lies below that root, is core provided that no directory
    on its path is called bgc (in any letter case), neither in the path of
    the core root nor below it. *)
Theorem sourceType_follows_path (fuel : nat) (fs : FileSystem)
  (dirname : string) (files : list string) (file : string) :
  In file files ->
  (sourceTypeOf file = bgc <->
     exists a b, Str.toLowerCase file = a +:+ "/bgc/" +:+ b) /\
  (listFilesRecursive fuel fs (bgcRoot dirname) = Some files ->
     sourceTypeOf file = bgc) /\
  (listFilesRecursive fuel fs (coreRoot dirname) = Some files ->
     below (coreRoot dirname) file /\
     (cleanDir (coreRoot dirname) -> tidyBelow fs (coreRoot dirname) ->
      sourceTypeOf file = core)).
Proof.
  intros Hin. split; [|split].
  - unfold sourceTypeOf.
    change (sep +:+ "bgc" +:+ sep) with "/bgc/".
    rewrite <- includes_iff.
    destruct (Str.includes (Str.toLowerCase file) "/bgc/");
      split; intros H; try reflexivity; discriminate H.
  - intros Hl. apply (bgcRoot_files_are_bgc fuel fs dirname files); assumption.
  - intros Hl. split.
    + apply listFilesRecursive_below in Hl. rewrite Forall_forall in Hl.
      apply Hl. apply list_elem_of_In. exact Hin.
    + intros Hc Ht.
      pose proof (clean_root_files_are_core fuel fs _ files Hc Ht Hl) as H.
      rewrite Forall_forall in H. apply H. apply list_elem_of_In. exact Hin.
Qed.

Lemma plainFs_tidy : tidyBelow Sample.plainFs (coreRoot "/app").
Proof.
  intros d dirents name kind _ Hrd Hin. simpl in Hrd.
  destruct (String.eqb d "/app/data/core").
  - injection Hrd as <-. destruct Hin as [[= <- <-] | []].
    split; [reflexivity | discriminate].
  - destruct (String.eqb d "/app/data/bgc"); [|discriminate].
    injection Hrd as <-. destruct Hin as [[= <- <-] | []].
    split; [reflexivity | discriminate].
Qed.

Lemma sourceType_follows_path_witness :
  In "/app/data/bgc/b.csv" ["/app/data/bgc/b.csv"] /\
  In "/app/data/core/c.csv" ["/app/data/core/c.csv"] /\
  listFilesRecursive 5 Sample.plainFs (bgcRoot "/app")
    = Some ["/app/data/bgc/b.csv"] /\
  listFilesRecursive 5 Sample.plainFs (coreRoot "/app")
    = Some ["/app/data/core/c.csv"] /\
  cleanDir (coreRoot "/app") /\
  tidyBelow Sample.plainFs (coreRoot "/app") /\
  sourceTypeOf "/app/data/bgc/b.csv" = bgc /\
  sourceTypeOf "/app/data/core/c.csv" = core.
Proof.
  assert (Hb : In "/app/data/bgc/b.csv" ["/app/data/bgc/b.csv"])
    by (left; reflexivity).
  assert (Hc : In "/app/data/core/c.csv" ["/app/data/core/c.csv"])
    by (left; reflexivity).
  assert (Hlb : listFilesRecursive 5 Sample.plainFs (bgcRoot "/app")
                = Some ["/app/data/bgc/b.csv"]) by (vm_compute; reflexivity).
  assert (Hlc : listFilesRecursive 5 Sample.plainFs (coreRoot "/app")
                = Some ["/app/data/core/c.csv"]) by (vm_compute; reflexivity).
  assert (Hclean : cleanDir (coreRoot "/app")) by (vm_compute; reflexivity).
  split; [exact Hb|]. split; [exact Hc|]. split; [exact Hlb|].
  split; [exact Hlc|]. split; [exact Hclean|]. split; [exact plainFs_tidy|].
  split.
  - exact (proj1 (proj2 (sourceType_follows_path 5 Sample.plainFs "/app"
                           ["/app/data/bgc/b.csv"] "/app/data/bgc/b.csv" Hb))
                 Hlb).
  - exact (proj2 (proj2 (proj2 (sourceType_follows_path 5 Sample.plainFs "/app"
                           ["/app/data/core/c.csv"] "/app/data/core/c.csv" Hc))
                        Hlc) Hclean plainFs_tidy).
Defined.

(** C9 fails as stated: a file found under the core root is tagged bgc
    when a directory on its way is called [bgc]. *)
Lemma core_root_file_tagged_bgc :
  ~ (forall (fuel : nat) (fs : FileSystem) (dirname : string)
            (files : list string) (file : string),
        listFilesRecursive fuel fs (coreRoot dirname) = Some files ->
        In file files -> sourceTypeOf file = core).
Proof.
  intros H.
  specialize (H 5%nat Sample.nestedFs "/app" ["/app/data/core/bgc/a.csv"]
                "/app/data/core/bgc/a.csv").
  assert (Hl : listFilesRecursive 5 Sample.nestedFs (coreRoot "/app")
               = Some ["/app/data/core/bgc/a.csv"]) by (vm_compute; reflexivity).
  specialize (H Hl (or_introl eq_refl)).
  vm_compute in H. discriminate H.
Qed.

(** ** The platform map *)

Lemma mapGet_mapUpdate (f : Bucket -> Bucket) (p q : string) (m : IdMap) :
  mapGet (mapUpdate f p m) q =
  if String.eqb p q then f <$> mapGet m p else mapGet m q.
Proof.
  induction m as [|[k b] m IH]; simpl.
  - destruct (String.eqb p q); reflexivity.
  - destruct (String.eqb_spec k p) as [->|Nkp]; simpl.
    + destruct (String.eqb_spec p q) as [->|Npq]; reflexivity.
    + rewrite IH. destruct (String.eqb_spec k q) as [->|Nkq].
      * destruct (String.eqb_spec p q) as [->|_]; [contradiction | reflexivity].
      * reflexivity.
Qed.

Lemma mapGet_snoc (m : IdMap) (p q : string) (b : Bucket) :
  mapGet (m ++ [(p, b)]) q =
  match mapGet m q with
  | Some x => Some x
  | None => if String.eqb p q then Some b else None
  end.
Proof.
  induction m as [|[k x] m IH]; simpl; [reflexivity|].
  destruct (String.eqb k q); [reflexivity | exact IH].
Qed.

Lemma keys_mapUpdate (f : Bucket -> Bucket) (p : string) (m : IdMap) :
  map fst (mapUpdate f p m) = map fst m.
Proof.
  induction m as [|[k b] m IH]; simpl; [reflexivity|].
  destruct (String.eqb k p); simpl; [reflexivity | rewrite IH; reflexivity].
Qed.

Lemma mapGet_None_keys (m : IdMap) (p : string) :
  mapGet m p = None -> ~ In p (map fst m).
Proof.
  induction m as [|[k b] m IH]; simpl; [tauto|].
  destruct (String.eqb_spec k p) as [->|N]; [discriminate|].
  intros H [E | Hin]; [contradiction | exact (IH H Hin)].
Qed.

Lemma mapGet_In (m : IdMap) (p : string) (b : Bucket) :
  NoDup (map fst m) -> In (p, b) m -> mapGet m p = Some b.
Proof.
  induction m as [|[k x] m IH]; simpl; [contradiction|].
  intros Hnd [E | Hin].
  - injection E as -> ->. rewrite String.eqb_refl. reflexivity.
  - apply NoDup_cons in Hnd as [Hk Hnd].
    destruct (String.eqb_spec k p) as [->|N].
    + exfalso. apply Hk. apply list_elem_of_In.
      apply (in_map fst) in Hin. exact Hin.
    + apply IH; assumption.
Qed.

(** The bucket of [platform] after the callback pushed [entry]. *)
Lemma mapGet_addEntry (st : SourceType) (p q : string) (e : Entry) (m : IdMap) :
  mapGet (addEntry st p e m) q =
  if String.eqb p q
  then Some (pushInto st e
               (default {| entries := []; btype := Some st |} (mapGet m p)))
  else mapGet m q.
Proof.
  unfold addEntry, mapHas. rewrite mapGet_mapUpdate.
  destruct (mapGet m p) as [b|] eqn:E.
  - rewrite E. reflexivity.
  - rewrite !mapGet_snoc, E, String.eqb_refl. simpl.
    destruct (String.eqb_spec p q) as [->|N]; [reflexivity|].
    destruct (mapGet m q); reflexivity.
Qed.

Lemma keys_addEntry (st : SourceType) (p : string) (e : Entry) (m : IdMap) :
  NoDup (map fst m) -> NoDup (map fst (addEntry st p e m)).
Proof.
  intros Hnd. unfold addEntry, mapHas. rewrite keys_mapUpdate.
  destruct (mapGet m p) eqn:E; [exact Hnd|].
  rewrite map_app. simpl. apply NoDup_app. repeat split.
  - exact Hnd.
  - intros x Hx Hx'. apply list_elem_of_In in Hx.
    apply list_elem_of_singleton in Hx'. subst x.
    exact (mapGet_None_keys m p E Hx).
  - apply NoDup_singleton.
Qed.

Lemma isBgcIn_addEntry (st : SourceType) (p q : string) (e : Entry) (m : IdMap) :
  isBgcIn (addEntry st p e m) q <-> isBgcIn m q \/ (q = p /\ st = bgc).
Proof.
  unfold isBgcIn. rewrite mapGet_addEntry.
  destruct (String.eqb_spec p q) as [->|N].
  - split.
    + intros (b & [= <-] & Hb). simpl in Hb.
      destruct st; simpl in Hb; [right; split; reflexivity|].
      left. destruct (mapGet m q) as [b0|]; [|discriminate].
      exists b0. split; [reflexivity | exact Hb].
    + intros [(b & E & Hb) | [_ ->]].
      * eexists. split; [reflexivity|]. rewrite E. simpl.
        destruct st; [reflexivity | exact Hb].
      * eexists. split; reflexivity.
  - split; [intros H; left; exact H|].
    intros [H | [-> _]]; [exact H | contradiction].
Qed.

Lemma readRows_keys (st : SourceType) (rows : list Row) (m m' : IdMap) :
  readRows st rows m = Some m' -> NoDup (map fst m) -> NoDup (map fst m').
Proof.
  revert m. induction rows as [|r rows IH]; intros m; simpl.
  - intros [= <-]. tauto.
  - destruct (onRow r) as [| |p e]; [apply IH | discriminate |].
    intros H Hnd. apply (IH _ H). apply keys_addEntry. exact Hnd.
Qed.

Lemma readRows_bgc (st : SourceType) (rows : list Row) (m m' : IdMap) (q : string) :
  readRows st rows m = Some m' ->
  (isBgcIn m' q <->
   isBgcIn m q \/
   (st = bgc /\ exists r e, In r rows /\ onRow r = Pushed q e)).
Proof.
  revert m. induction rows as [|r rows IH]; intros m; simpl.
  - intros [= <-]. split; [tauto|]. intros [H | (_ & r & e & [] & _)]. exact H.
  - destruct (onRow r) as [| |p e] eqn:Er; [|discriminate|]; intros H;
      rewrite (IH _ H); clear IH H.
    + split; (intros [H | (Hst & r' & e' & Hin & Hr)]; [left; exact H|]);
        right; split; try exact Hst.
      * exists r', e'. split; [right; exact Hin | exact Hr].
      * destruct Hin as [<- | Hin]; [congruence|].
        exists r', e'. split; assumption.
    + rewrite isBgcIn_addEntry. split.
      * intros [[H | [-> ->]] | (Hst & r' & e' & Hin & Hr)].
        -- left; exact H.
        -- right. split; [reflexivity|]. exists r, e. split; [left; reflexivity | exact Er].
        -- right. split; [exact Hst|]. exists r', e'. split; [right; exact Hin | exact Hr].
      * intros [H | (Hst & r' & e' & [<- | Hin] & Hr)].
        -- left; left; exact H.
        -- left; right. rewrite Er in Hr. injection Hr as -> _.
           split; [reflexivity | exact Hst].
        -- right. split; [exact Hst|]. exists r', e'. split; assumption.
Qed.

Lemma readFiles_keys (rowsOf : string -> list Row) (files : list string)
  (m m' : IdMap) :
  readFiles rowsOf files m = Some m' -> NoDup (map fst m) -> NoDup (map fst m').
Proof.
  revert m. induction files as [|file files IH]; intros m; simpl.
  - intros [= <-]. tauto.
  - destruct (readRows (sourceTypeOf file) (rowsOf file) m) as [m1|] eqn:E;
      [|discriminate]. simpl.
    intros H Hnd. apply (IH _ H). exact (readRows_keys _ _ _ _ E Hnd).
Qed.

Lemma readFiles_bgc (rowsOf : string -> list Row) (files : list string)
  (m m' : IdMap) (q : string) :
  readFiles rowsOf files m = Some m' ->
  (isBgcIn m' q <-> isBgcIn m q \/ contributes rowsOf files q bgc).
Proof.
  revert m. induction files as [|file files IH]; intros m; simpl.
  - intros [= <-]. split; [tauto|].
    intros [H | (f & r & e & [] & _)]. exact H.
  - destruct (readRows (sourceTypeOf file) (rowsOf file) m) as [m1|] eqn:E;
      [|discriminate]. simpl.
    intros H. rewrite (IH _ H), (readRows_bgc _ _ _ _ q E). clear IH H E.
    unfold contributes. split.
    + intros [[H | (Hst & r & e & Hin & Hr)] | (f & r & e & Hf & Hst & Hin & Hr)].
      * left; exact H.
      * right. exists file, r, e. repeat split; try assumption. left; reflexivity.
      * right. exists f, r, e. repeat split; try assumption. right; exact Hf.
    + intros [H | (f & r & e & [<- | Hf] & Hst & Hin & Hr)].
      * left; left; exact H.
      * left; right. split; [exact Hst|]. exists r, e. split; assumption.
      * right. exists f, r, e. repeat split; assumption.
Qed.

(** Each record comes from a binding of the map and has its type. *)
Lemma finalizeFloatsFromMap_In (m : IdMap) (fs : list FloatRecord) (f : FloatRecord) :
  finalizeFloatsFromMap m = Some fs -> In f fs ->
  exists b, In (id f, b) m /\ type f = default core (btype b).
Proof.
  revert fs. induction m as [|[p b] m IH]; intros fs; simpl.
  - intros [= <-] [].
  - destruct (finalizeBucket p b) as [f0|] eqn:E; [|discriminate]. simpl.
    destruct (finalizeFloatsFromMap m) as [fs0|]; [|discriminate]. simpl.
    intros [= <-] [<- | Hin].
    + exists b. unfold finalizeBucket in E.
      destruct (lastOf _) as [c|]; [|discriminate]. simpl in E.
      destruct (lastOf c) as [l|]; [|discriminate]. simpl in E.
      injection E as <-. simpl. split; [left; reflexivity | reflexivity].
    + destruct (IH fs0 eq_refl Hin) as (b' & Hb' & Ht).
      exists b'. split; [right; exact Hb' | exact Ht].
Qed.

(** C7 (as amended).  After the files are read, the record of a platform
    has type bgc if and only if some row pushed for that platform came from
    a file of source type bgc, that is, a file whose lower-cased path
    contains [/bgc/]; in particular it has type bgc as soon as one of its
    rows came from a file found under the bgc root.  The type is sticky:
    whatever files are read afterwards, a bucket that has type bgc keeps
    it. *)
Theorem record_type_bgc_iff_tagged (rowsOf : string -> list Row)
  (files : list string) (m : IdMap) (fs : list FloatRecord) :
  readFiles rowsOf files [] = Some m ->
  finalizeFloatsFromMap m = Some fs ->
  (forall f, In f fs ->
     (type f = bgc <-> contributes rowsOf files (id f) bgc)) /\
  (forall f fuel fsys dirname bgcFiles file r e,
     In f fs ->
     listFilesRecursive fuel fsys (bgcRoot dirname) = Some bgcFiles ->
     In file bgcFiles -> In file files ->
     In r (rowsOf file) -> onRow r = Pushed (id f) e ->
     type f = bgc) /\
  (forall more m' platform,
     readFiles rowsOf more m = Some m' ->
     isBgcIn m platform -> isBgcIn m' platform).
Proof.
  intros Hread Hfin.
  assert (Hiff : forall f, In f fs ->
            (type f = bgc <-> contributes rowsOf files (id f) bgc)).
  2: { split; [exact Hiff|]. split.
       - intros f fuel fsys dirname bgcFiles file r e Hf Hl Hb Hin Hr He.
         apply (Hiff f Hf). exists file, r, e. repeat split; try assumption.
         exact (bgcRoot_files_are_bgc fuel fsys dirname bgcFiles file Hl Hb).
       - intros more m' platform Hmore Hbgc.
         apply (readFiles_bgc rowsOf more m m' platform Hmore). left.
         exact Hbgc. }
  intros f Hf.
  destruct (finalizeFloatsFromMap_In m fs f Hfin Hf) as (b & Hb & Ht).
  assert (Hnd : NoDup (map fst m)).
  { apply (readFiles_keys rowsOf files [] m Hread). constructor. }
  pose proof (mapGet_In m (id f) b Hnd Hb) as Hget.
  pose proof (readFiles_bgc rowsOf files [] m (id f) Hread) as Hiff.
  assert (Hnil : ~ isBgcIn [] (id f)).
  { intros (x & Hx & _). discriminate Hx. }
  rewrite Ht. split.
  - intros Hd.
    assert (Hin : isBgcIn m (id f)).
    { exists b. split; [exact Hget|].
      destruct (btype b) as [[|]|]; try reflexivity; discriminate Hd. }
    apply Hiff in Hin as [H | H]; [contradiction | exact H].
  - intros Hc. destruct (proj2 Hiff (or_intror Hc)) as (b' & Hb' & Hty).
    rewrite Hget in Hb'. injection Hb' as <-. rewrite Hty. reflexivity.
Qed.

Lemma record_type_bgc_iff_tagged_witness :
  exists m fs,
    readFiles Sample.oneRow ["/app/data/core/c.csv"; "/app/data/bgc/b.csv"] []
      = Some m /\
    finalizeFloatsFromMap m = Some fs /\
    map type fs = [bgc] /\
    (forall f, In f fs ->
       (type f = bgc <->
        contributes Sample.oneRow
          ["/app/data/core/c.csv"; "/app/data/bgc/b.csv"] (id f) bgc)) /\
    (forall more m' platform,
       readFiles Sample.oneRow more m = Some m' ->
       isBgcIn m platform -> isBgcIn m' platform).
Proof.
  eexists. eexists.
  split; [vm_compute; reflexivity|].
  split; [vm_compute; reflexivity|].
  split; [reflexivity|].
  destruct (record_type_bgc_iff_tagged Sample.oneRow
              ["/app/data/core/c.csv"; "/app/data/bgc/b.csv"] _ _
              eq_refl eq_refl) as (H1 & _ & H3).
  split; [exact H1 | exact H3].
Defined.

(** C7 fails as stated: a record can have type bgc although no entry of it
    came from a file found under the bgc root. *)
Lemma bgc_type_without_bgc_root_file :
  ~ (forall (fuel : nat) (fs : FileSystem) (dirname : string)
            (rowsOf : string -> list Row) (floats : list FloatRecord)
            (f : FloatRecord) (bgcFiles : list string),
        loadFloatsStreaming fuel fs dirname rowsOf = Some floats ->
        In f floats ->
        listFilesRecursive fuel fs (bgcRoot dirname) = Some bgcFiles ->
        type f = bgc ->
        exists file r e,
          In file bgcFiles /\ In r (rowsOf file) /\
          onRow r = Pushed (id f) e).
Proof.
  intros H.
  destruct (loadFloatsStreaming 5 Sample.nestedFs "/app" Sample.oneRow)
    as [[|f [|]]|] eqn:E; try (vm_compute in E; discriminate E).
  specialize (H 5%nat Sample.nestedFs "/app" Sample.oneRow [f] f [] E
                (or_introl eq_refl) eq_refl).
  assert (Ht : type f = bgc).
  { vm_compute in E. injection E as <-. reflexivity. }
  destruct (H Ht) as (file & r & e & [] & _).
Qed.

(** ** Numeric coercion *)

(** [toNumber] is the parsed value when that is finite and [null] in every
    other case. *)
Lemma toNumber_spec (value : string) :
  (toNumber value = None <->
   Num.isFinite (parseFloat (Str.trim value)) = false) /\
  (forall n, toNumber value = Some n <->
             n = parseFloat (Str.trim value) /\ Num.isFinite n = true).
Proof.
  unfold toNumber.
  destruct (Num.isFinite (parseFloat (Str.trim value))) eqn:E; split.
  - split; discriminate.
  - intros n. split; [intros [= <-]; split; [reflexivity | exact E]|].
    intros [-> _]. reflexivity.
  - split; reflexivity.
  - intros n. split; [discriminate|]. intros [-> H]. congruence.
Qed.

(** A string that does not begin, after white space, with a sign, a
    digit, a dot or the word Infinity parses to NaN. *)
Lemma parseFloat_NaN (s : string) (c : ascii) (s' : string) :
  Str.trimStart s = String c s' ->
  Str.isDigit c = false ->
  Str.code c <> 45 -> Str.code c <> 43 -> Str.code c <> 46 ->
  Str.code c <> 73 ->
  parseFloat s = Num.NaN.
Proof.
  intros Hs Hd Hm Hp Hdot HI. unfold parseFloat. rewrite Hs.
  apply Z.eqb_neq in Hm, Hp, Hdot. rewrite Hm, Hp.
  unfold unsignedLiteral.
  assert (HInf : Str.startsWith "Infinity" (String c s') = false).
  { change (Str.startsWith "Infinity" (String c s'))
      with (Ascii.eqb "I" c && Str.startsWith "nfinity" s').
    destruct (Ascii.eqb_spec "I"%char c) as [<-|_]; [|reflexivity].
    exfalso. apply HI. reflexivity. }
  rewrite HInf. simpl. rewrite Hd, Hdot. reflexivity.
Qed.

Example toNumber_examples :
  toNumber "abc" = None /\ toNumber "" = None /\ toNumber "n/a" = None /\
  toNumber "NaN" = None /\ toNumber "Infinity" = None /\
  toNumber "1e999" = None /\
  toNumber " 12.5 " = Some (S754_finite false 7036874417766400 (-49)) /\
  toNumber "0" = Some Num.zero /\
  toNumber "12abc" = Some (Num.ofZ 12).
Proof. repeat split; vm_compute; reflexivity. Qed.

(** ** The cache *)

Import Cache.

Lemma inv_init : inv init.
Proof. reflexivity. Qed.

Lemma isRunning_inv (st : State) (p : nat) :
  inv st -> isRunning p st = true ->
  CACHE_BUILDING st = Some p /\ FLOATS_CACHE st = None /\
  running st = [p] /\ promises st !! p = Some Pending.
Proof.
  unfold inv, isRunning. intros Hinv Hr.
  destruct (CACHE_BUILDING st) as [q|].
  - destruct Hinv as (Hc & Hrun & Hp). rewrite Hrun in Hr. simpl in Hr.
    rewrite orb_false_r in Hr. apply Nat.eqb_eq in Hr. subst q.
    repeat split; assumption.
  - rewrite Hinv in Hr. discriminate Hr.
Qed.

Lemma finish_single (p : nat) : finish p [p] = [].
Proof. unfold finish. simpl. rewrite Nat.eqb_refl. reflexivity. Qed.

Lemma inv_ensureCache (st : State) : inv st -> inv (snd (ensureCache st)).
Proof.
  unfold inv, ensureCache. intros Hinv.
  destruct (FLOATS_CACHE st) as [floats|] eqn:Ec; simpl.
  - destruct (CACHE_BUILDING st) as [p|]; [|exact Hinv].
    destruct Hinv as (Hc & _). discriminate Hc.
  - destruct (CACHE_BUILDING st) as [p|] eqn:Eb; simpl.
    + rewrite Ec, Eb. exact Hinv.
    + rewrite Hinv. repeat split.
      apply list_lookup_middle. reflexivity.
Qed.

Lemma inv_step (st st' : State) (ev : Event) :
  inv st -> step st ev = Some st' -> inv st'.
Proof.
  intros Hinv. destruct ev as [|p result|p err]; simpl.
  - intros [= <-]. apply inv_ensureCache. exact Hinv.
  - destruct (isRunning p st) eqn:Hr; [|discriminate]. intros [= <-].
    destruct (isRunning_inv st p Hinv Hr) as (_ & _ & Hrun & _).
    unfold inv, onFulfilled. simpl. rewrite Hrun. apply finish_single.
  - destruct (isRunning p st) eqn:Hr; [|discriminate]. intros [= <-].
    destruct (isRunning_inv st p Hinv Hr) as (_ & _ & Hrun & _).
    unfold inv, onRejected. simpl. rewrite Hrun. apply finish_single.
Qed.

Lemma inv_run (evs : list Event) (st st' : State) :
  inv st -> run st evs = Some st' -> inv st'.
Proof.
  revert st. induction evs as [|ev evs IH]; intros st Hinv; simpl.
  - intros [= <-]. exact Hinv.
  - destruct (step st ev) as [st1|] eqn:E; [|discriminate]. simpl.
    apply IH. exact (inv_step st st1 ev Hinv E).
Qed.

Lemma inv_reachable (st : State) : reachable st -> inv st.
Proof. intros (evs & H). exact (inv_run evs init st inv_init H). Qed.

Lemma run_app (evs1 evs2 : list Event) (st st1 : State) :
  run st evs1 = Some st1 -> run st (evs1 ++ evs2) = run st1 evs2.
Proof.
  revert st. induction evs1 as [|ev evs1 IH]; intros st; simpl.
  - intros [= <-]. reflexivity.
  - destruct (step st ev) as [st'|]; [|discriminate]. simpl. apply IH.
Qed.

Lemma reachable_step (st st' : State) (ev : Event) :
  reachable st -> step st ev = Some st' -> reachable st'.
Proof.
  intros (evs & H) Hs. exists (evs ++ [ev]).
  rewrite (run_app evs [ev] init st H). simpl. rewrite Hs. reflexivity.
Qed.

(** A promise that is settled keeps its state through every later event. *)
Lemma settled_step (st st' : State) (ev : Event) (p : nat) (x : PromiseState) :
  inv st -> promises st !! p = Some x -> x <> Pending ->
  step st ev = Some st' -> promises st' !! p = Some x.
Proof.
  intros Hinv Hp Hx. destruct ev as [|q result|q err]; simpl.
  - intros [= <-]. unfold ensureCache.
    destruct (FLOATS_CACHE st); simpl.
    + rewrite lookup_app_l; [exact Hp|]. exact (lookup_lt_Some _ _ _ Hp).
    + destruct (CACHE_BUILDING st); simpl; [exact Hp|].
      rewrite lookup_app_l; [exact Hp|]. exact (lookup_lt_Some _ _ _ Hp).
  - destruct (isRunning q st) eqn:Hr; [|discriminate]. intros [= <-].
    destruct (isRunning_inv st q Hinv Hr) as (_ & _ & _ & Hq). simpl.
    rewrite list_lookup_insert_ne; [exact Hp|]. congruence.
  - destruct (isRunning q st) eqn:Hr; [|discriminate]. intros [= <-].
    destruct (isRunning_inv st q Hinv Hr) as (_ & _ & _ & Hq). simpl.
    rewrite list_lookup_insert_ne; [exact Hp|]. congruence.
Qed.

Lemma settled_run (evs : list Event) (st st' : State) (p : nat) (x : PromiseState) :
  inv st -> promises st !! p = Some x -> x <> Pending ->
  run st evs = Some st' -> promises st' !! p = Some x.
Proof.
  revert st. induction evs as [|ev evs IH]; intros st Hinv Hp Hx; simpl.
  - intros [= <-]. exact Hp.
  - destruct (step st ev) as [st1|] eqn:E; [|discriminate]. simpl.
    apply IH; [exact (inv_step st st1 ev Hinv E) | | exact Hx].
    exact (settled_step st st1 ev p x Hinv Hp Hx E).
Qed.


(** C3.  In every state the cache can reach, at most one ingestion pass
    is in flight.  While pass [p] is in flight, a request returns the
    promise [p] of that pass and changes nothing, so that no second pass
    starts; that promise is pending and becomes the result of the pass
    when it succeeds and its failure when it fails.  A settled promise
    never changes afterwards, so all the requesters that hold [p] observe
    the same result or the same failure. *)
Theorem single_flight (st : State) :
  reachable st ->
  (length (running st) <= 1)%nat /\
  (forall p, isRunning p st = true ->
     running st = [p] /\
     promises st !! p = Some Pending /\
     ensureCache st = (p, st) /\
     (forall result st',
        step st (PassSucceeds p result) = Some st' ->
        promises st' !! p = Some (Fulfilled result) /\ running st' = []) /\
     (forall err st',
        step st (PassFails p err) = Some st' ->
        promises st' !! p = Some (Rejected err) /\ running st' = [])) /\
  (forall p x evs st',
     promises st !! p = Some x -> x <> Pending ->
     run st evs = Some st' -> promises st' !! p = Some x).
Proof.
  intros Hr. pose proof (inv_reachable st Hr) as Hinv.
  split; [|split].
  - unfold inv in Hinv. destruct (CACHE_BUILDING st).
    + destruct Hinv as (_ & -> & _). simpl. lia.
    + rewrite Hinv. simpl. lia.
  - intros p Hp.
    destruct (isRunning_inv st p Hinv Hp) as (Hb & Hc & Hrun & Hpend).
    split; [exact Hrun|]. split; [exact Hpend|]. split.
    { unfold ensureCache. rewrite Hc, Hb. reflexivity. }
    split.
    + intros result st' Hs. simpl in Hs. rewrite Hp in Hs.
      injection Hs as <-. simpl. split.
      * apply list_lookup_insert_eq. exact (lookup_lt_Some _ _ _ Hpend).
      * rewrite Hrun. apply finish_single.
    + intros err st' Hs. simpl in Hs. rewrite Hp in Hs.
      injection Hs as <-. simpl. split.
      * apply list_lookup_insert_eq. exact (lookup_lt_Some _ _ _ Hpend).
      * rewrite Hrun. apply finish_single.
  - intros p x evs st' Hp Hx Hrun.
    exact (settled_run evs st st' p x Hinv Hp Hx Hrun).
Qed.

Lemma single_flight_witness :
  exists st,
    run init [Request; Request; Request] = Some st /\
    running st = [0%nat] /\
    ensureCache st = (0%nat, st) /\
    promises st !! 0%nat = Some Pending.
Proof.
  eexists. split; [vm_compute; reflexivity|].
  assert (Hr : reachable (mkState None (Some 0%nat) [Pending] [0%nat])).
  { exists [Request; Request; Request]. reflexivity. }
  destruct (single_flight _ Hr) as (_ & H & _).
  destruct (H 0%nat eq_refl) as (Hrun & Hp & He & _).
  split; [exact Hrun|]. split; [exact He | exact Hp].
Defined.

(** When the promise of the pass in flight is rejected, nothing is cached
    and [CACHE_BUILDING] is cleared (the cache is empty again), no pass is
    left in flight, and the promise that every requester of that attempt
    holds is rejected with the failure.  The next request starts a fresh
    pass with a new pending promise.  (This is the path of the [catch]
    reaction; an exception in the row callback does not take it.) *)
Theorem failed_pass_resets_cache (st st' : State) (p : nat) (err : string) :
  reachable st ->
  step st (PassFails p err) = Some st' ->
  FLOATS_CACHE st' = None /\
  CACHE_BUILDING st' = None /\
  running st' = [] /\
  ensureCache st = (p, st) /\
  promises st' !! p = Some (Rejected err) /\
  (forall evs st'', run st' evs = Some st'' ->
                    promises st'' !! p = Some (Rejected err)) /\
  exists q st'',
    ensureCache st' = (q, st'') /\ q <> p /\
    promises st' !! q = None /\
    promises st'' !! q = Some Pending /\
    CACHE_BUILDING st'' = Some q /\ running st'' = [q] /\
    FLOATS_CACHE st'' = None.
Proof.
  intros Hr Hs. pose proof (inv_reachable st Hr) as Hinv.
  pose proof (reachable_step st st' _ Hr Hs) as Hr'.
  pose proof (inv_reachable st' Hr') as Hinv'.
  simpl in Hs. destruct (isRunning p st) eqn:Hp; [|discriminate].
  injection Hs as <-.
  destruct (isRunning_inv st p Hinv Hp) as (Hb & Hc & Hrun & Hpend).
  pose proof (lookup_lt_Some _ _ _ Hpend) as Hlt.
  assert (Hrej : promises (onRejected p err st) !! p = Some (Rejected err)).
  { simpl. apply list_lookup_insert_eq. exact Hlt. }
  split; [exact Hc|]. split; [reflexivity|].
  split; [simpl; rewrite Hrun; apply finish_single|].
  split; [unfold ensureCache; rewrite Hc, Hb; reflexivity|].
  split; [exact Hrej|]. split.
  - intros evs st'' Hrun'.
    apply (settled_run evs (onRejected p err st) st'' p (Rejected err));
      try assumption. discriminate.
  - unfold ensureCache. simpl. rewrite Hc. eexists. eexists.
    split; [reflexivity|]. rewrite length_insert. simpl. repeat split.
    + lia.
    + apply lookup_ge_None. rewrite length_insert. lia.
    + apply list_lookup_middle. rewrite length_insert. reflexivity.
    + rewrite Hrun, finish_single. reflexivity.
Qed.

Lemma failed_pass_resets_cache_witness :
  exists st st',
    run init [Request; Request] = Some st /\
    step st (PassFails 0%nat "EIO") = Some st' /\
    FLOATS_CACHE st' = None /\ CACHE_BUILDING st' = None /\
    promises st' !! 0%nat = Some (Rejected "EIO") /\
    fst (ensureCache st') = 1%nat.
Proof.
  eexists. eexists.
  split; [vm_compute; reflexivity|].
  split; [vm_compute; reflexivity|].
  assert (Hr : reachable (mkState None (Some 0%nat) [Pending] [0%nat])).
  { exists [Request; Request]. reflexivity. }
  destruct (failed_pass_resets_cache _ _ 0%nat "EIO" Hr eq_refl)
    as (Hc & Hb & _ & _ & Hp & _).
  split; [exact Hc|]. split; [exact Hb|]. split; [exact Hp | reflexivity].
Defined.

(** ** Calendar arithmetic *)

Lemma DayFromYear_succ (y : Z) :
  JSDate.DayFromYear (y + 1) = JSDate.DayFromYear y + JSDate.DaysInYear y.
Proof.
  unfold JSDate.DayFromYear, JSDate.DaysInYear, JSDate.isLeap.
  destruct (y mod 4 =? 0) eqn:E4; destruct (y mod 100 =? 0) eqn:E100;
    destruct (y mod 400 =? 0) eqn:E400; simpl;
    rewrite ?Z.eqb_eq, ?Z.eqb_neq in *;
    Z.div_mod_to_equations; lia.
Qed.

Lemma yearFromDay_spec (d : Z) :
  JSDate.DayFromYear (JSDate.yearFromDay d) <= d
  < JSDate.DayFromYear (JSDate.yearFromDay d + 1).
Proof.
  unfold JSDate.yearFromDay.
  set (y := 1970 + 400 * d / 146097).
  assert (Hy : 146097 * (y - 1970) <= 400 * d < 146097 * (y - 1970) + 146097).
  { unfold y. Z.div_mod_to_equations. lia. }
  clearbody y.
  assert (H0 : JSDate.DayFromYear (y - 1) <= d).
  { unfold JSDate.DayFromYear. Z.div_mod_to_equations. lia. }
  assert (H2 : d < JSDate.DayFromYear (y + 2)).
  { unfold JSDate.DayFromYear. Z.div_mod_to_equations. lia. }
  destruct (d <? JSDate.DayFromYear y) eqn:E1.
  - apply Z.ltb_lt in E1. replace (y - 1 + 1) with y by lia. lia.
  - apply Z.ltb_ge in E1.
    destruct (JSDate.DayFromYear (y + 1) <=? d) eqn:E2.
    + apply Z.leb_le in E2. replace (y + 1 + 1) with (y + 2) by lia. lia.
    + apply Z.leb_gt in E2. lia.
Qed.

Lemma InLeapYear_cases (t : Z) :
  JSDate.InLeapYear t = 0 \/ JSDate.InLeapYear t = 1.
Proof. unfold JSDate.InLeapYear. destruct (JSDate.isLeap _); auto. Qed.

Lemma DayWithinYear_range (t : Z) :
  0 <= JSDate.DayWithinYear t < 365 + JSDate.InLeapYear t.
Proof.
  unfold JSDate.DayWithinYear, JSDate.InLeapYear, JSDate.YearFromTime.
  pose proof (yearFromDay_spec (JSDate.Day t)) as H.
  rewrite DayFromYear_succ in H. unfold JSDate.DaysInYear in H.
  destruct (JSDate.isLeap _); lia.
Qed.

Ltac split_ifs :=
  repeat match goal with
         | |- context [if ?a <? ?b then _ else _] =>
             destruct (Z.ltb_spec a b)
         end.

Lemma month_and_date (leap dwy : Z) :
  leap = 0 \/ leap = 1 -> 0 <= dwy < 365 + leap ->
  0 <= JSDate.monthOfDay leap dwy <= 11 /\
  1 <= dwy - JSDate.daysBeforeMonth leap (JSDate.monthOfDay leap dwy) + 1 <= 31.
Proof.
  intros Hl Hd. unfold JSDate.monthOfDay. split_ifs;
    unfold JSDate.daysBeforeMonth; simpl; lia.
Qed.

Lemma MonthFromTime_range (t : Z) : 0 <= JSDate.MonthFromTime t <= 11.
Proof.
  apply month_and_date; [apply InLeapYear_cases | apply DayWithinYear_range].
Qed.

Lemma DateFromTime_range (t : Z) : 1 <= JSDate.DateFromTime t <= 31.
Proof.
  apply month_and_date; [apply InLeapYear_cases | apply DayWithinYear_range].
Qed.

(** The day number is recovered from year, month and date. *)
Lemma MakeDay_of_time (t : Z) :
  JSDate.MakeDay (JSDate.YearFromTime t) (JSDate.MonthFromTime t)
                 (JSDate.DateFromTime t) = JSDate.Day t.
Proof.
  pose proof (MonthFromTime_range t) as Hm.
  unfold JSDate.MakeDay.
  replace (JSDate.MonthFromTime t / 12) with 0
    by (Z.div_mod_to_equations; lia).
  replace (JSDate.MonthFromTime t mod 12) with (JSDate.MonthFromTime t)
    by (Z.div_mod_to_equations; lia).
  rewrite Z.add_0_r.
  change (if JSDate.isLeap (JSDate.YearFromTime t) then 1 else 0)
    with (JSDate.InLeapYear t).
  unfold JSDate.DateFromTime, JSDate.DayWithinYear. lia.
Qed.

Lemma MakeTime_of_time (t : Z) :
  JSDate.MakeTime (JSDate.HourFromTime t) (JSDate.MinFromTime t)
                  (JSDate.SecFromTime t) 0
  = JSDate.TimeWithinDay t - JSDate.msFromTime t.
Proof.
  unfold JSDate.MakeTime, JSDate.HourFromTime, JSDate.MinFromTime,
    JSDate.SecFromTime, JSDate.TimeWithinDay, JSDate.msFromTime,
    JSDate.msPerHour, JSDate.msPerMinute, JSDate.msPerSecond, JSDate.msPerDay.
  Z.div_mod_to_equations. lia.
Qed.

Lemma time_fields_range (t : Z) :
  0 <= JSDate.HourFromTime t < 24 /\ 0 <= JSDate.MinFromTime t < 60 /\
  0 <= JSDate.SecFromTime t < 60 /\ 0 <= JSDate.msFromTime t < 1000.
Proof.
  unfold JSDate.HourFromTime, JSDate.MinFromTime, JSDate.SecFromTime,
    JSDate.msFromTime, JSDate.msPerSecond.
  repeat split; Z.div_mod_to_equations; lia.
Qed.

(** [Date.UTC] of the calendar fields of [t] is [t] without its
    milliseconds, for a year that is written with four digits and is not
    taken for a year of the twentieth century. *)
Lemma UTC_of_time (t : Z) :
  Z.abs t <= 8640000000000000 ->
  100 <= JSDate.YearFromTime t ->
  JSDate.UTC (JSDate.YearFromTime t) (JSDate.MonthFromTime t)
             (JSDate.DateFromTime t) (JSDate.HourFromTime t)
             (JSDate.MinFromTime t) (JSDate.SecFromTime t)
  = Some (t - JSDate.msFromTime t).
Proof.
  intros Ht Hy. unfold JSDate.UTC.
  replace ((0 <=? JSDate.YearFromTime t) && (JSDate.YearFromTime t <=? 99))
    with false by (symmetry; apply andb_false_iff; right; apply Z.leb_gt; lia).
  rewrite MakeDay_of_time, MakeTime_of_time.
  assert (E : JSDate.MakeDate (JSDate.Day t)
                (JSDate.TimeWithinDay t - JSDate.msFromTime t)
              = t - JSDate.msFromTime t).
  { unfold JSDate.MakeDate, JSDate.Day, JSDate.TimeWithinDay, JSDate.msPerDay.
    Z.div_mod_to_equations. lia. }
  rewrite E. unfold JSDate.TimeClip.
  replace (Z.abs (t - JSDate.msFromTime t) <=? 8640000000000000) with true;
    [reflexivity|].
  symmetry. apply Z.leb_le. unfold JSDate.msFromTime, JSDate.msPerSecond.
  Z.div_mod_to_equations. lia.
Qed.

(** ** Digits of an ISO string *)

Lemma code_char (z : Z) : 0 <= z < 256 -> Str.code (Str.char z) = z.
Proof.
  intros H. unfold Str.code, Str.char.
  rewrite N_ascii_embedding by lia. lia.
Qed.

Lemma code_digit (n : Z) : Str.code (JSDate.digit n) = 48 + n mod 10.
Proof.
  unfold JSDate.digit. apply code_char.
  pose proof (Z.mod_pos_bound n 10). lia.
Qed.

Lemma isDigit_digit (n : Z) : Str.isDigit (JSDate.digit n) = true.
Proof.
  unfold Str.isDigit. rewrite code_digit.
  pose proof (Z.mod_pos_bound n 10).
  apply andb_true_iff. split; apply Z.leb_le; lia.
Qed.

Lemma digitValue_digit (n : Z) : Str.digitValue (JSDate.digit n) = n mod 10.
Proof. unfold Str.digitValue. rewrite code_digit. lia. Qed.

Lemma onlyDigits_digit (n : Z) (s : string) :
  Str.onlyDigits (String (JSDate.digit n) s)
  = String (JSDate.digit n) (Str.onlyDigits s).
Proof. simpl. rewrite isDigit_digit. reflexivity. Qed.

Lemma takeDigits_digit (n : Z) (s : string) :
  Str.takeDigits (String (JSDate.digit n) s)
  = (n mod 10 :: fst (Str.takeDigits s), snd (Str.takeDigits s)).
Proof.
  simpl. rewrite isDigit_digit, digitValue_digit.
  destruct (Str.takeDigits s). reflexivity.
Qed.

Lemma parseInt_pad2 (n : Z) :
  0 <= n < 100 -> Str.parseInt (JSDate.pad2 n) = Some n.
Proof.
  intros H. unfold Str.parseInt, JSDate.pad2.
  rewrite !takeDigits_digit. simpl fst. unfold Str.valueOfDigits. simpl.
  f_equal. Z.div_mod_to_equations. lia.
Qed.

Lemma parseInt_pad4 (n : Z) :
  0 <= n < 10000 -> Str.parseInt (JSDate.pad4 n) = Some n.
Proof.
  intros H. unfold Str.parseInt, JSDate.pad4, JSDate.pad3, JSDate.pad2.
  rewrite !takeDigits_digit. simpl fst. unfold Str.valueOfDigits. simpl.
  f_equal. Z.div_mod_to_equations. lia.
Qed.

Lemma onlyDigits_isoOfTime (t : Z) :
  0 <= JSDate.YearFromTime t <= 9999 ->
  Str.onlyDigits (JSDate.isoOfTime t)
  = isoDigits (JSDate.YearFromTime t) (JSDate.MonthFromTime t + 1)
      (JSDate.DateFromTime t) (JSDate.HourFromTime t) (JSDate.MinFromTime t)
      (JSDate.SecFromTime t) (JSDate.msFromTime t).
Proof.
  intros Hy. unfold JSDate.isoOfTime, JSDate.isoYear, isoDigits.
  replace ((0 <=? JSDate.YearFromTime t) && (JSDate.YearFromTime t <=? 9999))
    with true by (symmetry; apply andb_true_iff; split; apply Z.leb_le; lia).
  unfold JSDate.pad4, JSDate.pad3, JSDate.pad2.
  cbv [String.append].
  rewrite !onlyDigits_digit.
  repeat (match goal with
          | |- context [Str.onlyDigits (String ?c ?s)] =>
              change (Str.onlyDigits (String c s)) with (Str.onlyDigits s)
          end; rewrite ?onlyDigits_digit).
  reflexivity.
Qed.

Lemma dtMsOfDigits_isoDigits (y mo d h mi s ms : Z) :
  0 <= y < 10000 -> 0 <= mo < 100 -> 0 <= d < 100 -> 0 <= h < 100 ->
  0 <= mi < 100 -> 0 <= s < 100 ->
  dtMsOfDigits (isoDigits y mo d h mi s ms) = JSDate.UTC y (mo - 1) d h mi s.
Proof.
  intros Hy Hmo Hd Hh Hmi Hs.
  pose proof (parseInt_pad4 y Hy) as Py.
  pose proof (parseInt_pad2 mo Hmo) as Pmo.
  pose proof (parseInt_pad2 d Hd) as Pd.
  pose proof (parseInt_pad2 h Hh) as Ph.
  pose proof (parseInt_pad2 mi Hmi) as Pmi.
  pose proof (parseInt_pad2 s Hs) as Ps.
  unfold dtMsOfDigits, optionalField, isoDigits, Str.slice.
  unfold JSDate.pad4, JSDate.pad3, JSDate.pad2 in *.
  cbv [String.append String.length substring Nat.sub Nat.leb].
  rewrite Py, Pmo, Pd, Ph, Pmi, Ps. reflexivity.
Qed.

(** ** The julian day through the ISO string and back *)

Lemma ofNumber_range (v : number) (t : Z) :
  JSDate.ofNumber v = Some t -> Z.abs t <= 8640000000000000.
Proof.
  unfold JSDate.ofNumber. destruct (Num.trunc v) as [z|]; [|discriminate].
  simpl. unfold JSDate.TimeClip.
  destruct (Z.leb_spec (Z.abs z) 8640000000000000); [|discriminate].
  intros [= <-]. assumption.
Qed.

(** C6 (as amended).  Let [t] be the instant of a julian day [J], in whole
    milliseconds, and let it fall in the years 0100 to 9999.  The calendar
    branch applied to the digits of the ISO string of [t] gives back [t]
    without its milliseconds, so that the julian day derived again is that
    of the whole second [t - t mod 1000]: what [J] holds below the second
    is lost, and the instant comes back exactly when it is a whole
    second. *)
Theorem rederive_truncates_to_seconds (J : number) (t : Z) :
  JSDate.ofNumber (Num.add epoch1950 (Num.mul J dayMs)) = Some t ->
  100 <= JSDate.YearFromTime t <= 9999 ->
  isoOfJuld J = Some (JSDate.isoOfTime t) /\
  dtMsOfDigits (Str.onlyDigits (JSDate.isoOfTime t)) = Some (t - t mod 1000) /\
  rederive J = Some (juldOfTime (t - t mod 1000)) /\
  (t mod 1000 = 0 -> rederive J = Some (juldOfTime t)).
Proof.
  intros Ht Hy.
  assert (Hiso : isoOfJuld J = Some (JSDate.isoOfTime t)).
  { unfold isoOfJuld. rewrite Ht. reflexivity. }
  assert (Hdt : dtMsOfDigits (Str.onlyDigits (JSDate.isoOfTime t))
                = Some (t - t mod 1000)).
  { pose proof (MonthFromTime_range t) as Hm.
    pose proof (DateFromTime_range t) as Hd.
    destruct (time_fields_range t) as (Hh & Hmi & Hs & _).
    rewrite onlyDigits_isoOfTime by lia.
    rewrite dtMsOfDigits_isoDigits by lia.
    replace (JSDate.MonthFromTime t + 1 - 1) with (JSDate.MonthFromTime t)
      by lia.
    apply UTC_of_time; [exact (ofNumber_range _ _ Ht) | lia]. }
  assert (Hre : rederive J = Some (juldOfTime (t - t mod 1000))).
  { unfold rederive. rewrite Hiso. simpl. rewrite Hdt. reflexivity. }
  split; [exact Hiso|]. split; [exact Hdt|]. split; [exact Hre|].
  intros H0. rewrite Hre, H0, Z.sub_0_r. reflexivity.
Qed.

Lemma rederive_truncates_to_seconds_witness :
  let J := parseFloat "27394.123456" in
  JSDate.ofNumber (Num.add epoch1950 (Num.mul J dayMs)) = Some 1735700266598 /\
  100 <= JSDate.YearFromTime 1735700266598 <= 9999 /\
  isoOfJuld J = Some "2025-01-01T02:57:46.598Z" /\
  rederive J = Some (juldOfTime 1735700266000).
Proof.
  assert (Ht : JSDate.ofNumber
                 (Num.add epoch1950 (Num.mul (parseFloat "27394.123456") dayMs))
               = Some 1735700266598) by (vm_compute; reflexivity).
  assert (Hy : 100 <= JSDate.YearFromTime 1735700266598 <= 9999)
    by (vm_compute; split; discriminate).
  destruct (rederive_truncates_to_seconds _ _ Ht Hy) as (Hiso & _ & Hre & _).
  split; [exact Ht|]. split; [exact Hy|]. split; [exact Hiso | exact Hre].
Defined.

(** C6 fails as stated: the julian day 0.00001 (864 ms after the epoch)
    comes back as 0, far outside any rounding tolerance. *)
Lemma rederive_loses_milliseconds :
  ~ (forall J J' : number,
        Num.isFinite J = true -> rederive J = Some J' ->
        Num.lt (Num.abs (Num.sub J' J)) tolerance = true).
Proof.
  intros H.
  specialize (H (parseFloat "0.00001") Num.zero eq_refl).
  assert (Hre : rederive (parseFloat "0.00001") = Some Num.zero)
    by (vm_compute; reflexivity).
  specialize (H Hre). vm_compute in H. discriminate H.
Qed.

(** Whole seconds in a year of four digits come back exactly; the years
    before 0100 do not: year 33 is read as 1933. *)
Example rederive_examples :
  isoOfJuld (parseFloat "0.00001") = Some "1950-01-01T00:00:00.864Z" /\
  rederive (parseFloat "27394.5") = Some (parseFloat "27394.5") /\
  isoOfJuld (parseFloat "-700000") = Some "0033-06-19T00:00:00.000Z" /\
  rederive (parseFloat "-700000") = Some (parseFloat "-6040").
Proof. repeat split; vm_compute; reflexivity. Qed.

(** ** The whole pass *)

Lemma mapUpdate_new (f : Bucket -> Bucket) (p : string) (b0 : Bucket) (m : IdMap) :
  mapGet m p = None ->
  mapUpdate f p (m ++ [(p, b0)]) = m ++ [(p, f b0)].
Proof.
  induction m as [|[k b] m IH]; simpl.
  - rewrite String.eqb_refl. reflexivity.
  - destruct (String.eqb k p); [discriminate|].
    intros H. rewrite (IH H). reflexivity.
Qed.

Lemma mapUpdate_Forall (Q : Bucket -> Prop) (f : Bucket -> Bucket)
  (p : string) (m : IdMap) :
  (forall b, Q (f b)) ->
  Forall (fun pb => Q (snd pb)) m ->
  Forall (fun pb => Q (snd pb)) (mapUpdate f p m).
Proof.
  intros Hf. induction m as [|[k b] m IH]; intros H; simpl; [constructor|].
  apply Forall_cons in H as [Hb Hm].
  destruct (String.eqb k p); constructor; simpl; auto.
Qed.

(** Every bucket the callback leaves in the map has an entry. *)
Lemma addEntry_nonempty (st : SourceType) (p : string) (e : Entry) (m : IdMap) :
  Forall (fun pb => entries (snd pb) <> []) m ->
  Forall (fun pb => entries (snd pb) <> []) (addEntry st p e m).
Proof.
  intros H. unfold addEntry, mapHas.
  assert (Hpush : forall b, entries (pushInto st e b) <> []).
  { intros b. simpl. destruct (entries b); discriminate. }
  destruct (mapGet m p) eqn:E.
  - apply (mapUpdate_Forall (fun b => entries b <> [])); assumption.
  - rewrite (mapUpdate_new _ _ _ _ E). apply Forall_app. split; [exact H|].
    constructor; [apply Hpush | constructor].
Qed.

Lemma readRows_nonempty (st : SourceType) (rows : list Row) (m m' : IdMap) :
  readRows st rows m = Some m' ->
  Forall (fun pb => entries (snd pb) <> []) m ->
  Forall (fun pb => entries (snd pb) <> []) m'.
Proof.
  revert m. induction rows as [|r rows IH]; intros m; simpl.
  - intros [= <-]. tauto.
  - destruct (onRow r) as [| |p e]; [apply IH | discriminate |].
    intros H Hm. apply (IH _ H). apply addEntry_nonempty. exact Hm.
Qed.

Lemma readFiles_nonempty (rowsOf : string -> list Row) (files : list string)
  (m m' : IdMap) :
  readFiles rowsOf files m = Some m' ->
  Forall (fun pb => entries (snd pb) <> []) m ->
  Forall (fun pb => entries (snd pb) <> []) m'.
Proof.
  revert m. induction files as [|file files IH]; intros m; simpl.
  - intros [= <-]. tauto.
  - destruct (readRows (sourceTypeOf file) (rowsOf file) m) as [m1|] eqn:E;
      [|discriminate]. simpl.
    intros H Hm. apply (IH _ H). exact (readRows_nonempty _ _ _ _ E Hm).
Qed.

(** Once the files are listed and no row makes the callback throw, the
    pass returns its records: [finalizeFloatsFromMap] never meets a bucket
    without entries. *)
Lemma loadFloatsStreaming_returns (fuel : nat) (fs : FileSystem)
  (dirname : string) (rowsOf : string -> list Row)
  (bgcFiles coreFiles : list string) (m : IdMap) :
  listFilesRecursive fuel fs (bgcRoot dirname) = Some bgcFiles ->
  listFilesRecursive fuel fs (coreRoot dirname) = Some coreFiles ->
  readFiles rowsOf (bgcFiles ++ coreFiles) [] = Some m ->
  exists floats,
    loadFloatsStreaming fuel fs dirname rowsOf = Some floats /\
    (bgcFiles ++ coreFiles <> [] -> finalizeFloatsFromMap m = Some floats).
Proof.
  intros Hb Hc Hr. unfold loadFloatsStreaming. rewrite Hb, Hc. simpl.
  destruct (bgcFiles ++ coreFiles) as [|file files] eqn:E.
  - exists []. split; [reflexivity | congruence].
  - rewrite Hr. simpl.
    assert (Hne : Forall (fun pb => entries (snd pb) <> []) m).
    { apply (readFiles_nonempty rowsOf (file :: files) [] m Hr). constructor. }
    destruct (finalizeFloatsFromMap_some m Hne) as (floats & Hf).
    exists floats. split; [exact Hf | intros _; exact Hf].
Qed.

(** The scenario of the specification: rows with [JULD] 0 and 0.5 in a
    core file and a row with [JULD] 3 in a bgc file, all of platform 1001,
    give one record of type bgc with three history entries in two cycles
    (the gap from 0.5 to 3 exceeds a day). *)
Example two_files_one_platform :
  exists f,
    loadFloatsStreaming 5 Sample.plainFs "/app" Sample.scenarioRows = Some [f] /\
    id f = "1001" /\ type f = bgc /\
    map juld (history f)
      = [Some (Num.ofZ 0); toNumber "0.5"; Some (Num.ofZ 3)] /\
    map (map pp_juld) (cycles f)
      = [[Some (Num.ofZ 0); toNumber "0.5"]; [Some (Num.ofZ 3)]].
Proof.
  eexists. split; [vm_compute; reflexivity|].
  repeat split; vm_compute; reflexivity.
Qed.

(** Correct rounding at the edges of binary64. *)
Example parseFloat_rounding :
  parseFloat "0.1" = S754_finite false 7205759403792794 (-56) /\
  parseFloat "9007199254740993" = S754_finite false 4503599627370496 1 /\
  parseFloat "5e-324" = S754_finite false 1 (-1074) /\
  parseFloat "2.4e-324" = S754_zero false /\
  parseFloat "1.7976931348623157e308"
    = S754_finite false 9007199254740991 971 /\
  parseFloat "1.7976931348623159e308" = S754_infinity false /\
  parseFloat "-0" = S754_zero true /\
  parseFloat "1e" = Num.ofZ 1 /\
  parseFloat ".5" = S754_finite false 4503599627370496 (-53) /\
  parseFloat "." = Num.NaN.
Proof. repeat split; vm_compute; reflexivity. Qed.

(** * Further properties of the code *)

(** ** Trimming *)

Lemma trimEnd_idem (s : string) : Str.trimEnd (Str.trimEnd s) = Str.trimEnd s.
Proof.
  induction s as [|c s IH]; [reflexivity|].
  simpl. destruct (Str.trimEnd s) as [|c' r] eqn:E.
  - destruct (Str.isWhiteSpace c) eqn:Ec; [reflexivity|].
    simpl. rewrite Ec. reflexivity.
  - simpl in IH |- *. rewrite IH. reflexivity.
Qed.

Lemma trimStart_head (s : string) :
  match Str.trimStart s with
  | EmptyString => True
  | String c _ => Str.isWhiteSpace c = false
  end.
Proof.
  induction s as [|c s IH]; simpl; [exact I|].
  destruct (Str.isWhiteSpace c) eqn:Ec; [exact IH | exact Ec].
Qed.

Lemma trimStart_trimEnd (t : string) :
  match t with
  | EmptyString => True
  | String c _ => Str.isWhiteSpace c = false
  end ->
  Str.trimStart (Str.trimEnd t) = Str.trimEnd t.
Proof.
  destruct t as [|c t]; [reflexivity|]. intros Hc. simpl.
  destruct (Str.trimEnd t); [rewrite Hc|]; simpl; rewrite Hc; reflexivity.
Qed.

Lemma trim_idem (s : string) : Str.trim (Str.trim s) = Str.trim s.
Proof.
  unfold Str.trim.
  rewrite (trimStart_trimEnd _ (trimStart_head s)). apply trimEnd_idem.
Qed.

Lemma isEmpty_false (s : string) : Str.isEmpty s = false -> s <> "".
Proof. destruct s; [discriminate | discriminate]. Qed.

(** ** The CSV line parser *)

Lemma append_nil_r (s : string) : s +:+ "" = s.
Proof.
  induction s as [|c s IH]; [reflexivity|].
  rewrite append_cons, IH. reflexivity.
Qed.

Lemma addChar_app (current : string) (c : ascii) (s : string) :
  addChar current c +:+ s = current +:+ String c s.
Proof. unfold addChar. rewrite append_assoc, append_cons, append_nil_l. reflexivity. Qed.

Lemma noQuote_cons (c : ascii) (s : string) :
  noQuote (String c s) -> isQuote c = false /\ noQuote s.
Proof.
  intros H. split.
  - apply H. left. reflexivity.
  - intros x Hx. apply H. right. exact Hx.
Qed.

Lemma concat_cons (c : ascii) (h : string) (t : list string) :
  String.concat "," (String c h :: t) = String c (String.concat "," (h :: t)).
Proof. destruct t; reflexivity. Qed.

(** Outside quotes, a stretch without quotes is cut at its commas; what
    stands before its first comma continues the field being read. *)
Lemma csvLoop_plain (line : string) :
  noQuote line ->
  exists h t,
    (forall values current,
       csvLoop line values current false = values ++ (current +:+ h) :: t) /\
    String.concat "," (h :: t) = line /\
    Forall noComma (h :: t).
Proof.
  induction line as [|c rest IH]; intros Hq.
  - exists "", []. split; [|split].
    + intros values current. simpl. rewrite append_nil_r. reflexivity.
    + reflexivity.
    + constructor; [intros c []| constructor].
  - apply noQuote_cons in Hq as [Hc Hq].
    destruct (IH Hq) as (h & t & Hloop & Hcat & Hnc).
    destruct (isComma c) eqn:Ec.
    + exists "", (h :: t). split; [|split].
      * intros values current. simpl. rewrite Ec, Hloop.
        rewrite append_nil_r, append_nil_l, <- app_assoc. reflexivity.
      * apply Ascii.eqb_eq in Ec. subst c.
        change (String.concat "," ("" :: h :: t))
          with ("" +:+ "," +:+ String.concat "," (h :: t)).
        rewrite Hcat. reflexivity.
      * constructor; [intros x []| exact Hnc].
    + exists (String c h), t. split; [|split].
      * intros values current. simpl. rewrite Ec, Hc, Hloop.
        rewrite addChar_app. reflexivity.
      * rewrite concat_cons, Hcat. reflexivity.
      * apply Forall_cons in Hnc as [Hh Ht]. constructor; [|exact Ht].
        intros x [<- | Hx]; [exact Ec | exact (Hh x Hx)].
Qed.

(** X1.  A line without a double quote is cut at its commas and nowhere
    else: joining the fields with commas gives the line back, and no field
    contains a comma. *)
Theorem parseCsvLine_plain (line : string) :
  noQuote line ->
  String.concat "," (parseCsvLine line) = line /\
  Forall noComma (parseCsvLine line).
Proof.
  intros Hq. destruct (csvLoop_plain line Hq) as (h & t & Hloop & Hcat & Hnc).
  unfold parseCsvLine. rewrite Hloop, append_nil_l. simpl.
  split; [exact Hcat | exact Hnc].
Qed.

Lemma parseCsvLine_plain_witness :
  String.concat "," (parseCsvLine "1001,10.5,,20") = "1001,10.5,,20" /\
  Forall noComma (parseCsvLine "1001,10.5,,20") /\
  parseCsvLine "1001,10.5,,20" = ["1001"; "10.5"; ""; "20"].
Proof.
  assert (Hq : noQuote "1001,10.5,,20").
  { intros c Hc. simpl in Hc.
    repeat (destruct Hc as [<- | Hc]; [reflexivity|]). destruct Hc. }
  destruct (parseCsvLine_plain "1001,10.5,,20" Hq) as [H1 H2].
  split; [exact H1|]. split; [exact H2 | reflexivity].
Defined.

Lemma csvLoop_inside (c : ascii) (line : string) (values : list string)
  (current : string) :
  isQuote c = false ->
  csvLoop (String c line) values current true =
  csvLoop line values (addChar current c) true.
Proof. intros H. cbn [csvLoop]. rewrite H. reflexivity. Qed.

Lemma csvLoop_escaped (line : string) (values : list string)
  (current : string) :
  csvLoop (String quote (String quote line)) values current true =
  csvLoop line values (addChar current quote) true.
Proof. reflexivity. Qed.

(** Inside quotes, a field written with its quotes doubled is read back as
    it was, up to the quote that closes it. *)
Lemma csvLoop_quoted (field rest : string) (values : list string)
  (current : string) :
  (forall rest', rest <> String quote rest') ->
  csvLoop (doubleQuotes field +:+ String quote rest) values current true =
  csvLoop rest values (current +:+ field) false.
Proof.
  intros Hrest. revert current.
  induction field as [|c field IH]; intros current.
  - rewrite append_nil_l, append_nil_r.
    destruct rest as [|next rest']; [reflexivity|].
    simpl. destruct (isQuote next) eqn:En; [|reflexivity].
    apply Ascii.eqb_eq in En. subst next.
    exfalso. exact (Hrest rest' eq_refl).
  - simpl doubleQuotes. destruct (isQuote c) eqn:Ec.
    + apply Ascii.eqb_eq in Ec. subst c.
      rewrite !append_cons, csvLoop_escaped, IH, addChar_app. reflexivity.
    + rewrite append_cons, (csvLoop_inside _ _ _ _ Ec), IH, addChar_app.
      reflexivity.
Qed.

(** X2.  Fields written the way a CSV writer does, each between quotes with
    its own quotes doubled and the fields joined by commas, are read back
    exactly, whatever commas, quotes and white space they contain. *)
Theorem parseCsvLine_csvLine (fields : list string) :
  fields <> [] -> parseCsvLine (csvLine fields) = fields.
Proof.
  intros Hne. unfold parseCsvLine.
  enough (H : forall values,
             csvLoop (csvLine fields) values "" false = values ++ fields)
    by exact (H []).
  induction fields as [|f fs IH]; intros values; [contradiction|].
  destruct fs as [|g fs].
  - unfold csvLine. simpl map. simpl String.concat. unfold quoted.
    simpl. rewrite csvLoop_quoted by (intros ? H; discriminate H).
    rewrite append_nil_l. reflexivity.
  - change (csvLine (f :: g :: fs))
      with (quoted f +:+ "," +:+ csvLine (g :: fs)).
    unfold quoted at 1. rewrite append_cons, append_assoc, append_cons,
      append_nil_l.
    simpl. rewrite csvLoop_quoted by (intros ? H; discriminate H).
    rewrite append_nil_l. rewrite append_cons, append_nil_l. simpl.
    rewrite IH by discriminate. rewrite <- app_assoc. reflexivity.
Qed.

Lemma parseCsvLine_csvLine_witness :
  parseCsvLine (csvLine ["Kiel, DE"; String quote "BGC" +:+ String quote " float"; ""])
  = ["Kiel, DE"; String quote "BGC" +:+ String quote " float"; ""].
Proof. apply parseCsvLine_csvLine. discriminate. Defined.

(** The state of the loop after a stretch without quotes. *)
Lemma csvLoop_app_plain (a : string) :
  noQuote a ->
  forall values current,
  exists values' current',
    csvLoop a values current false = values' ++ [current'] /\
    forall rest,
      csvLoop (a +:+ rest) values current false =
      csvLoop rest values' current' false.
Proof.
  induction a as [|c a IH]; intros Hq values current.
  - exists values, current. split; [reflexivity|].
    intros rest. rewrite append_nil_l. reflexivity.
  - apply noQuote_cons in Hq as [Hc Hq].
    destruct (isComma c) eqn:Ec.
    + destruct (IH Hq (values ++ [current]) "") as (vs & cur & H1 & H2).
      exists vs, cur. split.
      * simpl. rewrite Ec. exact H1.
      * intros rest. rewrite append_cons. simpl. rewrite Ec. apply H2.
    + destruct (IH Hq values (addChar current c)) as (vs & cur & H1 & H2).
      exists vs, cur. split.
      * simpl. rewrite Ec, Hc. exact H1.
      * intros rest. rewrite append_cons. simpl. rewrite Ec, Hc. apply H2.
Qed.

Lemma csvLoop_open (s : string) (values : list string) (current : string) :
  noQuote s ->
  csvLoop s values current true = values ++ [current +:+ s].
Proof.
  revert current. induction s as [|c s IH]; intros current Hq.
  - simpl. rewrite append_nil_r. reflexivity.
  - apply noQuote_cons in Hq as [Hc Hq]. simpl. rewrite Hc.
    rewrite (IH _ Hq), addChar_app. reflexivity.
Qed.

(** X3.  A quote that is opened and never closed raises no error: the rest
    of the line, commas included, goes into the field being read. *)
Theorem parseCsvLine_unterminated (a s : string) (init : list string)
  (field : string) :
  noQuote a -> noQuote s ->
  parseCsvLine a = init ++ [field] ->
  parseCsvLine (a +:+ String quote s) = init ++ [field +:+ s].
Proof.
  intros Ha Hs Hpa. unfold parseCsvLine in *.
  destruct (csvLoop_app_plain a Ha [] "") as (vs & cur & H1 & H2).
  rewrite H2. rewrite H1 in Hpa. apply app_inj_tail in Hpa as [-> ->].
  simpl. rewrite (csvLoop_open s init field Hs). reflexivity.
Qed.

Lemma parseCsvLine_unterminated_witness :
  parseCsvLine ("1001,GEOMAR" +:+ String quote " Kiel, DE,12.5")
  = ["1001"] ++ ["GEOMAR" +:+ " Kiel, DE,12.5"].
Proof.
  apply parseCsvLine_unterminated.
  - intros c Hc. simpl in Hc.
    repeat (destruct Hc as [<- | Hc]; [reflexivity|]). destruct Hc.
  - intros c Hc. simpl in Hc.
    repeat (destruct Hc as [<- | Hc]; [reflexivity|]). destruct Hc.
  - reflexivity.
Defined.

(** ** The row objects of the stream reader *)

Lemma keys_setOwn (k v : string) (r : Row) :
  map fst (setOwn k v r) = map fst r.
Proof.
  induction r as [|[k' v'] r IH]; simpl; [reflexivity|].
  destruct (String.eqb k' k); simpl; [reflexivity | rewrite IH; reflexivity].
Qed.

Lemma keys_insertIndex (n : Z) (k v : string) (r : Row) :
  Permutation (map fst (insertIndex n k v r)) (k :: map fst r).
Proof.
  induction r as [|[k' v'] r IH]; simpl; [reflexivity|].
  destruct (arrayIndex k') as [n'|]; [|reflexivity].
  destruct (n <? n'); [reflexivity|]. simpl.
  rewrite IH. apply perm_swap.
Qed.

Lemma prop_None_keys (r : Row) (k : string) :
  prop r k = None -> ~ In k (map fst r).
Proof.
  induction r as [|[k' v'] r IH]; simpl; [tauto|].
  destruct (String.eqb_spec k' k) as [->|N]; [discriminate|].
  intros H [E | Hin]; [contradiction | exact (IH H Hin)].
Qed.

Lemma keys_objSet (k v : string) (r : Row) :
  Permutation (map fst (objSet k v r)) (map fst r) \/
  (~ In k (map fst r) /\ k <> "__proto__" /\
   Permutation (map fst (objSet k v r)) (k :: map fst r)).
Proof.
  unfold objSet. destruct (String.eqb_spec k "__proto__") as [->|Np];
    [left; reflexivity|].
  destruct (prop r k) eqn:E.
  - left. rewrite keys_setOwn. reflexivity.
  - right. split; [exact (prop_None_keys r k E)|]. split; [exact Np|].
    destruct (arrayIndex k).
    + apply keys_insertIndex.
    + rewrite map_app. simpl. symmetry. apply Permutation_cons_append.
Qed.

Lemma objSet_properKeys (k v : string) (r : Row) :
  properKeys r -> properKeys (objSet k v r).
Proof.
  intros [Hnd Hp].
  destruct (keys_objSet k v r) as [H | (Hk & Hkp & H)]; split.
  - rewrite H. exact Hnd.
  - intros Hin. apply Hp. apply list_elem_of_In.
    rewrite <- H. apply list_elem_of_In. exact Hin.
  - rewrite H. apply NoDup_cons. split; [|exact Hnd].
    intros Hin. apply Hk. apply list_elem_of_In. exact Hin.
  - intros Hin. apply list_elem_of_In in Hin. rewrite H in Hin.
    apply list_elem_of_In in Hin. destruct Hin as [E | Hin];
      [congruence | exact (Hp Hin)].
Qed.

Lemma fillFrom_properKeys (i : nat) (rest values : list string) (obj : Row) :
  properKeys obj -> properKeys (fillFrom i rest values obj).
Proof.
  revert i obj. induction rest as [|h rest IH]; intros i obj H; simpl;
    [exact H|].
  apply IH. apply objSet_properKeys. exact H.
Qed.

Lemma readLines_properKeys (header : option (list string))
  (lines : list string) (r : Row) :
  In r (readLines header lines) -> properKeys r.
Proof.
  revert header. induction lines as [|line lines IH]; intros header; simpl;
    [contradiction|].
  unfold onLine. destruct (Str.isEmpty (Str.trim line)); [apply IH|].
  destruct header as [h|]; [|apply IH].
  intros [<- | Hin]; [|exact (IH _ Hin)].
  apply fillFrom_properKeys. split; [constructor | intros []].
Qed.

Lemma objSet_keys_Forall (P : string -> Prop) (k v : string) (r : Row) :
  P k -> Forall P (map fst r) -> Forall P (map fst (objSet k v r)).
Proof.
  intros Hk Hr.
  destruct (keys_objSet k v r) as [H | (_ & _ & H)]; rewrite H;
    [exact Hr | constructor; assumption].
Qed.

Lemma fillFrom_keys_Forall (P : string -> Prop) (i : nat)
  (rest values : list string) (obj : Row) :
  Forall P rest -> Forall P (map fst obj) ->
  Forall P (map fst (fillFrom i rest values obj)).
Proof.
  revert i obj. induction rest as [|h rest IH]; intros i obj Hrest Hobj;
    simpl; [exact Hobj|].
  apply Forall_cons in Hrest as [Hh Hrest].
  apply IH; [exact Hrest|]. apply objSet_keys_Forall; assumption.
Qed.

Lemma readLines_trimmed (header : option (list string))
  (lines : list string) (r : Row) :
  match header with
  | Some h => Forall (fun k => Str.trim k = k) h
  | None => True
  end ->
  In r (readLines header lines) ->
  Forall (fun k => Str.trim k = k) (map fst r).
Proof.
  revert header. induction lines as [|line lines IH]; intros header Hh; simpl;
    [contradiction|].
  unfold onLine. destruct (Str.isEmpty (Str.trim line)); [apply IH; exact Hh|].
  destruct header as [h|].
  - intros [<- | Hin]; [|exact (IH (Some h) Hh Hin)].
    apply fillFrom_keys_Forall; [exact Hh | constructor].
  - apply (IH (Some _)). apply Forall_map. apply Forall_forall. intros x _.
    apply trim_idem.
Qed.

(** X4.  Every row object the reader hands to the callback has distinct
    keys, all of them trimmed and none of them [__proto__], whatever the
    header line holds; so for these rows [get] resolves an alias list by
    the last key that agrees with an alias up to case. *)
Theorem reader_rows_are_objects (lines : list string) (r : Row) :
  In r (parseCsvFileStream lines) ->
  NoDup (map fst r) /\ ~ In "__proto__" (map fst r) /\
  Forall (fun k => Str.trim k = k) (map fst r) /\
  forall names, get r names = resolve r names.
Proof.
  intros Hin. destruct (readLines_properKeys None lines r Hin) as [Hnd Hp].
  split; [exact Hnd|]. split; [exact Hp|].
  split; [exact (readLines_trimmed None lines r I Hin)|].
  induction names as [|name rest IH]; simpl; [reflexivity|].
  rewrite keyMapOf_lookup.
  destruct (lastMatching r name) as [[k v]|] eqn:E; simpl; [|exact IH].
  rewrite (prop_In r k v Hnd (lastMatching_In r name k v E)).
  unfold Str.truthy. destruct (Str.isEmpty k); simpl; [exact IH|].
  destruct (Str.isEmpty v); [exact IH | reflexivity].
Qed.

Lemma reader_rows_are_objects_witness :
  let lines := [" lat ,LAT,__proto__,lat"; "1,2,3,4"] in
  parseCsvFileStream lines = [[("lat", "4"); ("LAT", "2")]] /\
  forall r, In r (parseCsvFileStream lines) ->
    NoDup (map fst r) /\ ~ In "__proto__" (map fst r) /\
    Forall (fun k => Str.trim k = k) (map fst r) /\
    forall names, get r names = resolve r names.
Proof.
  split; [reflexivity|].
  intros r Hin.
  exact (reader_rows_are_objects [" lat ,LAT,__proto__,lat"; "1,2,3,4"] r Hin).
Defined.

Lemma readLines_header (h : list string) (lines : list string) :
  readLines (Some h) lines =
  map (fun line => fillFrom 0 h (parseCsvLine line) [])
      (List.filter nonBlank lines).
Proof.
  induction lines as [|line lines IH]; simpl; [reflexivity|].
  unfold onLine, nonBlank.
  destruct (Str.isEmpty (Str.trim line)); simpl; [exact IH|].
  rewrite IH. reflexivity.
Qed.

(** X5.  Blank lines are dropped wherever they stand; the first line that
    is not blank is the header, read after trimming, each of its names
    trimmed; every later non-blank line gives exactly one row, in order, read
    without trimming.  A file without a non-blank line gives no row. *)
Theorem reader_rows (lines : list string) :
  parseCsvFileStream lines =
  match List.filter nonBlank lines with
  | [] => []
  | first :: data =>
      let header := map Str.trim (parseCsvLine (Str.trim first)) in
      map (fun line => fillFrom 0 header (parseCsvLine line) []) data
  end.
Proof.
  unfold parseCsvFileStream.
  induction lines as [|line lines IH]; simpl; [reflexivity|].
  unfold onLine, nonBlank.
  destruct (Str.isEmpty (Str.trim line)); simpl; [exact IH|].
  apply readLines_header.
Qed.

Lemma prop_setOwn (k v q : string) (r : Row) :
  prop (setOwn k v r) q =
  if String.eqb k q then (fun _ => v) <$> prop r k else prop r q.
Proof.
  induction r as [|[k' v'] r IH]; simpl.
  - destruct (String.eqb k q); reflexivity.
  - destruct (String.eqb_spec k' k) as [->|N]; simpl.
    + destruct (String.eqb_spec k q) as [->|Nq]; reflexivity.
    + rewrite IH. destruct (String.eqb_spec k' q) as [->|Nq].
      * destruct (String.eqb_spec k q) as [->|_]; [contradiction | reflexivity].
      * reflexivity.
Qed.

Lemma prop_insertIndex (n : Z) (k v q : string) (r : Row) :
  prop r k = None ->
  prop (insertIndex n k v r) q =
  if String.eqb k q then Some v else prop r q.
Proof.
  induction r as [|[k' v'] r IH]; simpl; [reflexivity|].
  destruct (String.eqb_spec k' k) as [->|N]; [discriminate|]. intros Hk.
  destruct (arrayIndex k') as [n'|]; [|reflexivity].
  destruct (n <? n'); [reflexivity|]. simpl. rewrite (IH Hk).
  destruct (String.eqb_spec k' q) as [->|Nq]; [|reflexivity].
  destruct (String.eqb_spec k q) as [->|_]; [contradiction | reflexivity].
Qed.

Lemma prop_snoc (k v q : string) (r : Row) :
  prop (r ++ [(k, v)]) q =
  match prop r q with
  | Some x => Some x
  | None => if String.eqb k q then Some v else None
  end.
Proof.
  induction r as [|[k' v'] r IH]; simpl; [reflexivity|].
  destruct (String.eqb k' q); [reflexivity | exact IH].
Qed.

(** Reading a property after an assignment. *)
Lemma prop_objSet (k v q : string) (r : Row) :
  prop (objSet k v r) q =
  if String.eqb k "__proto__" then prop r q
  else if String.eqb k q then Some v else prop r q.
Proof.
  unfold objSet. destruct (String.eqb k "__proto__"); [reflexivity|].
  destruct (prop r k) as [x|] eqn:E.
  - rewrite prop_setOwn, E. reflexivity.
  - destruct (arrayIndex k) as [n|].
    + apply prop_insertIndex. exact E.
    + rewrite prop_snoc. destruct (String.eqb_spec k q) as [->|N].
      * rewrite E. reflexivity.
      * destruct (prop r q); reflexivity.
Qed.

Lemma prop_fillFrom_skip (i : nat) (rest values : list string) (obj : Row)
  (q : string) :
  ~ In q rest ->
  prop (fillFrom i rest values obj) q = prop obj q.
Proof.
  revert i obj. induction rest as [|h rest IH]; intros i obj Hq; simpl;
    [reflexivity|].
  rewrite IH by (intros H; apply Hq; right; exact H).
  rewrite prop_objSet. destruct (String.eqb h "__proto__"); [reflexivity|].
  destruct (String.eqb_spec h q) as [->|N]; [|reflexivity].
  exfalso. apply Hq. left. reflexivity.
Qed.

Lemma prop_fillFrom_proto (i : nat) (rest values : list string) (obj : Row) :
  prop (fillFrom i rest values obj) "__proto__" = prop obj "__proto__".
Proof.
  revert i obj. induction rest as [|h rest IH]; intros i obj; simpl;
    [reflexivity|].
  rewrite IH, prop_objSet.
  destruct (String.eqb_spec h "__proto__") as [->|N]; [reflexivity|].
  destruct (String.eqb_spec h "__proto__"); [contradiction | reflexivity].
Qed.

Lemma prop_fillFrom_last (i : nat) (pre post values : list string)
  (obj : Row) (k : string) :
  k <> "__proto__" -> ~ In k post ->
  prop (fillFrom i (pre ++ k :: post) values obj) k =
  Some (nth (i + length pre) values "").
Proof.
  intros Hk Hpost. revert i obj.
  induction pre as [|h pre IH]; intros i obj; simpl.
  - rewrite prop_fillFrom_skip by exact Hpost. rewrite prop_objSet.
    destruct (String.eqb_spec k "__proto__"); [contradiction|].
    rewrite String.eqb_refl, Nat.add_0_r. reflexivity.
  - rewrite IH. f_equal. f_equal. lia.
Qed.

(** X6.  In a row, the value under a column name is the field of the data
    line at the position of the last header column of that name, and the
    empty string when the data line has no field there; a name that is no
    header column, and the name [__proto__], are not properties of the
    row. *)
Theorem row_value_of_last_column (header values : list string) (k : string) :
  let row := fillFrom 0 header values [] in
  (forall pre post,
     header = pre ++ k :: post -> ~ In k post -> k <> "__proto__" ->
     prop row k = Some (nth (length pre) values "")) /\
  (~ In k header -> prop row k = None) /\
  prop row "__proto__" = None.
Proof.
  simpl. split; [|split].
  - intros pre post -> Hpost Hk.
    exact (prop_fillFrom_last 0 pre post values [] k Hk Hpost).
  - intros Hk. rewrite prop_fillFrom_skip by exact Hk. reflexivity.
  - apply prop_fillFrom_proto.
Qed.

Lemma row_value_of_last_column_witness :
  let row := fillFrom 0 ["id"; "lat"; "id"] ["7"; "10"] [] in
  prop row "id" = Some "" /\ prop row "lon" = None.
Proof.
  destruct (row_value_of_last_column ["id"; "lat"; "id"] ["7"; "10"] "id")
    as (H1 & _ & _).
  destruct (row_value_of_last_column ["id"; "lat"; "id"] ["7"; "10"] "lon")
    as (_ & H2 & _).
  split.
  - apply (H1 ["id"; "lat"] []); [reflexivity | intros [] | discriminate].
  - apply H2. intros [H | [H | [H | []]]]; discriminate H.
Defined.

Lemma fillFrom_plain (i : nat) (rest values : list string) (obj : Row) :
  NoDup (map fst obj ++ rest) ->
  Forall (fun k => arrayIndex k = None /\ k <> "__proto__") rest ->
  fillFrom i rest values obj =
  obj ++ map (fun j => (nth j rest "", nth (i + j) values ""))
             (seq 0 (length rest)).
Proof.
  revert i obj. induction rest as [|h rest IH]; intros i obj Hnd Hp; simpl.
  - rewrite app_nil_r. reflexivity.
  - apply Forall_cons in Hp as [[Hidx Hproto] Hp].
    assert (Hh : prop obj h = None).
    { destruct (prop obj h) as [v|] eqn:E; [|reflexivity]. exfalso.
      apply NoDup_app in Hnd as (_ & Hdisj & _).
      apply (Hdisj h); [|left].
      clear -E. induction obj as [|[k' v'] obj IH]; simpl in *; [discriminate|].
      destruct (String.eqb_spec k' h) as [->|N]; [left | right; auto]. }
    assert (Hset : objSet h (nth i values "") obj = obj ++ [(h, nth i values "")]).
    { unfold objSet. destruct (String.eqb_spec h "__proto__"); [contradiction|].
      rewrite Hh, Hidx. reflexivity. }
    rewrite Hset, IH.
    + rewrite <- app_assoc. simpl. rewrite Nat.add_0_r. f_equal. f_equal.
      rewrite <- seq_shift, map_map. apply map_ext. intros j.
      f_equal. f_equal. lia.
    + rewrite map_app. simpl. rewrite <- app_assoc. simpl.
      exact Hnd.
    + exact Hp.
Qed.

Lemma map_nth_seq {A} (d : A) (l : list A) :
  map (fun j => nth j l d) (seq 0 (length l)) = l.
Proof.
  induction l as [|a l IH]; simpl; [reflexivity|].
  rewrite <- seq_shift, map_map. simpl. rewrite IH. reflexivity.
Qed.

(** X7.  When the header names are distinct, none of them the numeral of
    an array index or [__proto__], the keys of every row are the header
    names in the order of the header, and the values are the fields of the
    data line at the same positions: fields beyond the header are dropped,
    missing ones are the empty string. *)
Theorem row_of_plain_header (header values : list string) :
  NoDup header ->
  Forall (fun k => arrayIndex k = None /\ k <> "__proto__") header ->
  let row := fillFrom 0 header values [] in
  map fst row = header /\
  map snd row = map (fun j => nth j values "") (seq 0 (length header)).
Proof.
  intros Hnd Hp. simpl.
  rewrite (fillFrom_plain 0 header values [] Hnd Hp). simpl.
  rewrite !map_map. simpl. split; [|reflexivity].
  apply map_nth_seq.
Qed.

Lemma row_of_plain_header_witness :
  let row := fillFrom 0 ["id"; "lat"; "lon"] ["7"; "10"] [] in
  map fst row = ["id"; "lat"; "lon"] /\ map snd row = ["7"; "10"; ""].
Proof.
  apply (row_of_plain_header ["id"; "lat"; "lon"] ["7"; "10"]).
  - apply (bool_decide_unpack _). vm_compute. exact I.
  - repeat constructor; discriminate.
Defined.

(** ** What the listing finds *)

(** The stack and the results after the entries of one directory. *)
Lemma scanDirents_spec (current : string)
  (dirents : list (string * DirentKind)) (stack results : list string) :
  (forall x, In x (fst (scanDirents current dirents stack results)) <->
     In x stack \/
     exists name, In (name, isDirectory) dirents /\ x = pathJoin current name) /\
  (forall f, In f (snd (scanDirents current dirents stack results)) <->
     In f results \/
     exists name, In (name, isFile) dirents /\
       Str.toLowerCase (extname name) = ".csv" /\ f = pathJoin current name).
Proof.
  revert stack results.
  induction dirents as [|[name kind] rest IH]; intros stack results.
  - simpl. split; intros x; split; try tauto; intros [H | (n & [] & _)];
      exact H.
  - simpl scanDirents.
    assert (Hd : forall (P : string -> Prop) k,
               (exists n, In (n, k) rest /\ P n) ->
               exists n, In (n, k) ((name, kind) :: rest) /\ P n).
    { intros P k (n & Hn & HP). exists n. split; [right; exact Hn | exact HP]. }
    destruct kind.
    + destruct (IH (pathJoin current name :: stack) results) as [H1 H2].
      split; intros x; [rewrite H1 | rewrite H2]; clear H1 H2; split.
      * intros [[<- | H] | H]; [right | left; exact H | right].
        -- exists name. split; [left; reflexivity | reflexivity].
        -- apply (Hd (fun n => x = pathJoin current n)). exact H.
      * intros [H | (n & [[= -> ] | Hn] & ->)].
        -- left; right; exact H.
        -- left; left; reflexivity.
        -- right. exists n. split; [exact Hn | reflexivity].
      * intros [H | H]; [left; exact H | right].
        apply (Hd (fun n => Str.toLowerCase (extname n) = ".csv" /\
                            x = pathJoin current n)). exact H.
      * intros [H | (n & [[=] | Hn] & Hx)]; [left; exact H | right].
        exists n. split; [exact Hn | exact Hx].
    + destruct (String.eqb_spec (Str.toLowerCase (extname name)) ".csv")
        as [Ecsv | Ncsv].
      * destruct (IH stack (results ++ [pathJoin current name])) as [H1 H2].
        split; intros x; [rewrite H1 | rewrite H2]; clear H1 H2; split.
        -- intros [H | H]; [left; exact H | right].
           apply (Hd (fun n => x = pathJoin current n)). exact H.
        -- intros [H | (n & [[=] | Hn] & Hx)]; [left; exact H | right].
           exists n. split; [exact Hn | exact Hx].
        -- rewrite in_app_iff. intros [[H | [<- | []]] | H].
           ++ left; exact H.
           ++ right. exists name. split; [left; reflexivity|].
              split; [exact Ecsv | reflexivity].
           ++ right.
              apply (Hd (fun n => Str.toLowerCase (extname n) = ".csv" /\
                                  x = pathJoin current n)). exact H.
        -- rewrite in_app_iff.
           intros [H | (n & [[= ->] | Hn] & Hcsv & ->)].
           ++ left; left; exact H.
           ++ left; right; left; reflexivity.
           ++ right. exists n. split; [exact Hn|]. split; [exact Hcsv | reflexivity].
      * destruct (IH stack results) as [H1 H2].
        split; intros x; [rewrite H1 | rewrite H2]; clear H1 H2; split.
        -- intros [H | H]; [left; exact H | right].
           apply (Hd (fun n => x = pathJoin current n)). exact H.
        -- intros [H | (n & [[=] | Hn] & Hx)]; [left; exact H | right].
           exists n. split; [exact Hn | exact Hx].
        -- intros [H | H]; [left; exact H | right].
           apply (Hd (fun n => Str.toLowerCase (extname n) = ".csv" /\
                               x = pathJoin current n)). exact H.
        -- intros [H | (n & [[= ->] | Hn] & Hcsv & Hx)];
             [left; exact H | contradiction | right].
           exists n. split; [exact Hn|]. split; [exact Hcsv | exact Hx].
    + destruct (IH stack results) as [H1 H2].
      split; intros x; [rewrite H1 | rewrite H2]; clear H1 H2; split.
      * intros [H | H]; [left; exact H | right].
        apply (Hd (fun n => x = pathJoin current n)). exact H.
      * intros [H | (n & [[=] | Hn] & Hx)]; [left; exact H | right].
        exists n. split; [exact Hn | exact Hx].
      * intros [H | H]; [left; exact H | right].
        apply (Hd (fun n => Str.toLowerCase (extname n) = ".csv" /\
                            x = pathJoin current n)). exact H.
      * intros [H | (n & [[=] | Hn] & Hx)]; [left; exact H | right].
        exists n. split; [exact Hn | exact Hx].
Qed.

Lemma reaches_trans (fs : FileSystem) (a b c : string) :
  reaches fs a b -> reaches fs b c -> reaches fs a c.
Proof.
  intros Hab Hbc. induction Hbc as [|d dirents name _ IH Hd Hn];
    [exact Hab|].
  exact (reaches_sub fs a d dirents name IH Hd Hn).
Qed.

(** A directory reached from [s] is [s] or is reached from a
    subdirectory of [s]. *)
Lemma reaches_inv (fs : FileSystem) (s d : string) :
  reaches fs s d ->
  d = s \/
  exists dirents name,
    readdirSync fs s = Some dirents /\ In (name, isDirectory) dirents /\
    reaches fs (pathJoin s name) d.
Proof.
  intros H. induction H as [|d dirents name _ IH Hd Hn]; [left; reflexivity|].
  right. destruct IH as [-> | (ds & n & Hs & Hin & Hr)].
  - exists dirents, name. repeat split; try assumption. constructor.
  - exists ds, n. repeat split; try assumption.
    exact (reaches_sub fs _ d dirents name Hr Hd Hn).
Qed.

Lemma listLoop_sound (fs : FileSystem) (root : string) (fuel : nat)
  (stack results files : list string) :
  listLoop fuel fs stack results = Some files ->
  (forall s, In s stack -> reaches fs root s) ->
  (forall f, In f results -> csvFileBelow fs root f) ->
  forall f, In f files -> csvFileBelow fs root f.
Proof.
  revert stack results.
  induction fuel as [|fuel IH]; intros stack results; simpl.
  - destruct stack; [|discriminate]. intros [= <-] _ H. exact H.
  - destruct stack as [|current stack]; [intros [= <-] _ H; exact H|].
    destruct (readdirSync fs current) as [dirents|] eqn:Ed.
    + destruct (scanDirents current dirents stack results) as [st rs] eqn:Es.
      pose proof (scanDirents_spec current dirents stack results) as [H1 H2].
      rewrite Es in H1, H2. simpl in H1, H2.
      intros Hl Hst Hrs. apply (IH _ _ Hl).
      * intros s Hs. apply H1 in Hs as [Hs | (n & Hn & ->)].
        -- apply Hst. right. exact Hs.
        -- apply (reaches_sub fs root current dirents n); [|assumption..].
           apply Hst. left. reflexivity.
      * intros f Hf. apply H2 in Hf as [Hf | (n & Hn & Hcsv & ->)].
        -- apply Hrs. exact Hf.
        -- exists current, dirents, n. repeat split; try assumption.
           apply Hst. left. reflexivity.
    + intros Hl Hst Hrs. apply (IH _ _ Hl); [|exact Hrs].
      intros s Hs. apply Hst. right. exact Hs.
Qed.

Lemma listLoop_complete (fs : FileSystem) (root : string) (fuel : nat)
  (stack results files : list string) :
  listLoop fuel fs stack results = Some files ->
  (forall d, reaches fs root d ->
     (exists s, In s stack /\ reaches fs s d) \/
     (forall dirents name,
        readdirSync fs d = Some dirents -> In (name, isFile) dirents ->
        Str.toLowerCase (extname name) = ".csv" ->
        In (pathJoin d name) results)) ->
  forall d dirents name,
    reaches fs root d ->
    readdirSync fs d = Some dirents -> In (name, isFile) dirents ->
    Str.toLowerCase (extname name) = ".csv" ->
    In (pathJoin d name) files.
Proof.
  revert stack results.
  induction fuel as [|fuel IH]; intros stack results; simpl.
  - destruct stack; [|discriminate]. intros [= <-] Hinv d dirents name Hd.
    destruct (Hinv d Hd) as [(s & [] & _) | H]. apply H.
  - destruct stack as [|current stack].
    { intros [= <-] Hinv d dirents name Hd.
      destruct (Hinv d Hd) as [(s & [] & _) | H]. apply H. }
    destruct (readdirSync fs current) as [dirents|] eqn:Ed.
    + destruct (scanDirents current dirents stack results) as [st rs] eqn:Es.
      pose proof (scanDirents_spec current dirents stack results) as [H1 H2].
      rewrite Es in H1, H2. simpl in H1, H2.
      intros Hl Hinv. apply (IH _ _ Hl). intros d Hd.
      destruct (Hinv d Hd) as [(s & [<- | Hs] & Hsd) | H].
      * apply reaches_inv in Hsd as [-> | (ds & n & Hds & Hn & Hr)].
        -- right. intros ds name Hds Hn Hcsv.
           rewrite Ed in Hds. injection Hds as <-.
           apply H2. right. exists name. repeat split; assumption.
        -- rewrite Ed in Hds. injection Hds as <-.
           left. exists (pathJoin current n). split; [|exact Hr].
           apply H1. right. exists n. split; [exact Hn | reflexivity].
      * left. exists s. split; [|exact Hsd]. apply H1. left. exact Hs.
      * right. intros ds name Hds Hn Hcsv. apply H2. left.
        exact (H ds name Hds Hn Hcsv).
    + intros Hl Hinv. apply (IH _ _ Hl). intros d Hd.
      destruct (Hinv d Hd) as [(s & [<- | Hs] & Hsd) | H].
      * apply reaches_inv in Hsd as [-> | (ds & n & Hds & _)];
          [|congruence].
        right. intros ds name Hds. congruence.
      * left. exists s. split; assumption.
      * right. exact H.
Qed.

(** X8.  When the listing returns, it holds exactly the regular files with
    extension [.csv], in any letter case, of the start directory and of
    every directory below it that can be read, provided that the start
    directory exists; files of other extensions, entries that are neither
    file nor directory, and directories that cannot be read contribute
    nothing, and a start directory that does not exist gives the empty
    list. *)
Theorem listFilesRecursive_exact (fuel : nat) (fs : FileSystem)
  (startDir : string) (files : list string) :
  listFilesRecursive fuel fs startDir = Some files ->
  forall f, In f files <->
            existsSync fs startDir = true /\ csvFileBelow fs startDir f.
Proof.
  unfold listFilesRecursive.
  destruct (existsSync fs startDir); intros Hl f.
  - split.
    + intros Hf. split; [reflexivity|].
      apply (listLoop_sound fs startDir fuel [startDir] [] files Hl);
        [| intros ? [] | exact Hf].
      intros s [<- | []]. constructor.
    + intros (_ & d & dirents & name & Hd & Hds & Hn & Hcsv & ->).
      apply (listLoop_complete fs startDir fuel [startDir] [] files Hl)
        with (dirents := dirents); try assumption.
      intros d' Hd'. left. exists startDir. split; [left; reflexivity | exact Hd'].
  - injection Hl as <-. split; [intros [] | intros [H _]; discriminate H].
Qed.

Lemma listFilesRecursive_exact_witness :
  listFilesRecursive 5 Sample.nestedFs "/app/data/core"
    = Some ["/app/data/core/bgc/a.csv"] /\
  forall f, In f ["/app/data/core/bgc/a.csv"] <->
            existsSync Sample.nestedFs "/app/data/core" = true /\
            csvFileBelow Sample.nestedFs "/app/data/core" f.
Proof.
  split; [reflexivity|].
  exact (listFilesRecursive_exact 5 Sample.nestedFs "/app/data/core"
           ["/app/data/core/bgc/a.csv"] eq_refl).
Defined.

(** ** The listing terminates *)

Lemma scanDirents_stack (current : string)
  (dirents : list (string * DirentKind)) (stack results : list string) :
  fst (scanDirents current dirents stack results) =
  rev (flat_map (fun entry : string * DirentKind =>
                   match snd entry with
                   | isDirectory => [pathJoin current (fst entry)]
                   | _ => []
                   end) dirents) ++ stack.
Proof.
  revert stack results.
  induction dirents as [|[name kind] rest IH]; intros stack results;
    [reflexivity|].
  simpl scanDirents. destruct kind; simpl flat_map.
  - rewrite IH. simpl. rewrite <- app_assoc. reflexivity.
  - destruct (String.eqb _ _); apply IH.
  - apply IH.
Qed.

Lemma list_sum_rev (l : list nat) : list_sum (rev l) = list_sum l.
Proof.
  induction l as [|a l IH]; simpl; [reflexivity|].
  rewrite list_sum_app, IH. simpl. lia.
Qed.

Lemma listLoop_terminates (fs : FileSystem) (size : string -> nat)
  (fuel : nat) (stack results : list string) :
  finiteTree fs size ->
  (list_sum (map size stack) <= fuel)%nat ->
  exists files, listLoop fuel fs stack results = Some files.
Proof.
  intros Hfin. revert stack results.
  induction fuel as [|fuel IH]; intros stack results Hfuel.
  - destruct stack as [|d stack]; [exists results; reflexivity|].
    simpl in Hfuel. pose proof (Hfin d). lia.
  - destruct stack as [|d stack]; [exists results; reflexivity|].
    simpl in Hfuel |- *. pose proof (Hfin d) as Hd.
    unfold subdirectories in Hd.
    destruct (readdirSync fs d) as [dirents|].
    + destruct (scanDirents d dirents stack results) as [st rs] eqn:Es.
      apply IH.
      pose proof (scanDirents_stack d dirents stack results) as Hst.
      rewrite Es in Hst. simpl in Hst. rewrite Hst.
      rewrite map_app, list_sum_app, map_rev, list_sum_rev. lia.
    + apply IH. lia.
Qed.

(** X9.  On a finite directory tree the listing returns: when [size]
    bounds the tree below every directory, [size startDir] iterations of
    the loop are enough, whatever the tree holds. *)
Theorem listFilesRecursive_terminates (fs : FileSystem)
  (size : string -> nat) (fuel : nat) (startDir : string) :
  finiteTree fs size ->
  (size startDir <= fuel)%nat ->
  exists files, listFilesRecursive fuel fs startDir = Some files.
Proof.
  intros Hfin Hfuel. unfold listFilesRecursive.
  destruct (existsSync fs startDir); [|exists []; reflexivity].
  apply (listLoop_terminates fs size); [exact Hfin|]. simpl. lia.
Qed.

Lemma listFilesRecursive_terminates_witness :
  let size := fun d : string =>
    if String.eqb d "/app/data/core" then 2%nat else 1%nat in
  finiteTree Sample.nestedFs size /\
  exists files,
    listFilesRecursive 2 Sample.nestedFs "/app/data/core" = Some files.
Proof.
  intros size.
  assert (Hfin : finiteTree Sample.nestedFs size).
  { intros d. unfold subdirectories, size. simpl.
    destruct (String.eqb_spec d "/app/data/core") as [->|N]; simpl; [lia|].
    destruct (String.eqb d "/app/data/core/bgc"); simpl; lia. }
  split; [exact Hfin|].
  apply (listFilesRecursive_terminates Sample.nestedFs size 2
           "/app/data/core" Hfin).
  unfold size. simpl. lia.
Defined.

(** ** The records of [finalizeFloatsFromMap] *)

Lemma finalizeFloatsFromMap_bucket (m : IdMap) (fs : list FloatRecord)
  (f : FloatRecord) :
  finalizeFloatsFromMap m = Some fs -> In f fs ->
  exists p b, In (p, b) m /\ finalizeBucket p b = Some f.
Proof.
  revert fs. induction m as [|[p b] m IH]; intros fs; simpl.
  - intros [= <-] [].
  - destruct (finalizeBucket p b) as [f0|] eqn:E; [|discriminate]. simpl.
    destruct (finalizeFloatsFromMap m) as [fs0|]; [|discriminate]. simpl.
    intros [= <-] [<- | Hin].
    + exists p, b. split; [left; reflexivity | exact E].
    + destruct (IH fs0 eq_refl Hin) as (p' & b' & Hb' & Ef).
      exists p', b'. split; [right; exact Hb' | exact Ef].
Qed.

Lemma last_concat {A} (cs : list (list A)) (c : list A) (x : A) :
  last cs = Some c -> last c = Some x -> last (concat cs) = Some x.
Proof.
  intros Hc Hx. apply last_Some in Hc as (cs' & ->).
  apply last_Some in Hx as (c' & ->).
  rewrite concat_app. simpl. rewrite app_nil_r, app_assoc.
  apply last_snoc.
Qed.

Lemma last_map {A B} (g : A -> B) (l : list A) :
  last (map g l) = option_map g (last l).
Proof.
  induction l as [|a l IH]; [reflexivity|].
  destruct l as [|a' l]; [reflexivity|]. exact IH.
Qed.

(** The record of a bucket, read off the body of the loop. *)
Lemma finalizeBucket_inv (p : string) (b : Bucket) (f : FloatRecord) :
  finalizeBucket p b = Some f ->
  exists c l,
    last (segment (sortBy compareJuld (entries b))) = Some c /\
    last c = Some l /\
    id f = p /\ latest f = l /\
    history f = sortBy compareJuld (entries b) /\
    cycles f = map (map toProfilePoint)
                 (segment (sortBy compareJuld (entries b))).
Proof.
  unfold finalizeBucket, lastOf.
  destruct (last (segment _)) as [c|] eqn:Ec; [|discriminate]. simpl.
  destruct (last c) as [l|] eqn:El; [|discriminate]. simpl.
  intros [= <-]. exists c, l. simpl.
  rewrite copyEntry_id, map_copyEntry. repeat split; assumption.
Qed.

(** X10.  In every record, [latest] is the last entry of [history], and the
    last point of the last cycle shows it with its
    nine profile fields, each equal to the field of [latest]. *)
Theorem latest_is_last (m : IdMap) (floats : list FloatRecord)
  (f : FloatRecord) :
  finalizeFloatsFromMap m = Some floats -> In f floats ->
  last (history f) = Some (latest f) /\
  exists c, last (cycles f) = Some c /\
            last c = Some (toProfilePoint (latest f)) /\
            exists p, last c = Some p /\ showsEntry (latest f) p.
Proof.
  intros Hfin Hf.
  destruct (finalizeFloatsFromMap_bucket m floats f Hfin Hf)
    as (p & b & _ & Eb).
  destruct (finalizeBucket_inv p b f Eb) as (c & l & Hc & Hl & _ & -> & -> & ->).
  split.
  - rewrite <- (concat_segment (sortBy compareJuld (entries b))) at 1.
    exact (last_concat _ c l Hc Hl).
  - assert (Hlast : last (map toProfilePoint c) = Some (toProfilePoint l)).
    { rewrite last_map. rewrite Hl. reflexivity. }
    exists (map toProfilePoint c). split; [|split; [exact Hlast|]].
    + rewrite last_map. rewrite Hc. reflexivity.
    + exists (toProfilePoint l). split; [exact Hlast|].
      apply toProfilePoint_shows.
Qed.

Lemma latest_is_last_witness :
  let m := [("1001", {| entries := [Sample.day 3; Sample.day 0];
                        btype := Some core |})] in
  exists f,
    finalizeFloatsFromMap m = Some [f] /\
    last (history f) = Some (latest f) /\
    exists c, last (cycles f) = Some c /\
              last c = Some (toProfilePoint (latest f)) /\
              exists p, last c = Some p /\ showsEntry (latest f) p.
Proof.
  intros m.
  destruct (finalizeFloatsFromMap m) as [[|f [|]]|] eqn:E;
    try (vm_compute in E; discriminate E).
  exists f. split; [reflexivity|].
  exact (latest_is_last m [f] f E (or_introl eq_refl)).
Defined.

Lemma finalizeBucket_empty (p : string) (b : Bucket) :
  entries b = [] -> finalizeBucket p b = None.
Proof. unfold finalizeBucket. intros ->. reflexivity. Qed.

(** X11.  [finalizeFloatsFromMap] fails, with the TypeError of reading
    the last cycle of none, exactly when some bucket of the map has no
    entry. *)
Theorem finalize_throws_iff_empty_bucket (m : IdMap) :
  finalizeFloatsFromMap m = None <->
  Exists (fun pb => entries (snd pb) = []) m.
Proof.
  induction m as [|[p b] m IH]; simpl.
  - split; [discriminate | intros H; inversion H].
  - destruct (entries b) as [|e es] eqn:Eb.
    + rewrite (finalizeBucket_empty p b Eb). simpl. split; [|reflexivity].
      intros _. apply Exists_cons. left. exact Eb.
    + assert (Hne : entries b <> []) by (rewrite Eb; discriminate).
      destruct (finalizeBucket_some p b Hne) as (c & l & _ & _ & ->). simpl.
      destruct (finalizeFloatsFromMap m) as [fs|]; simpl.
      * split; [discriminate|]. intros H. apply Exists_cons in H as [H | H].
        -- simpl in H. congruence.
        -- apply IH in H. discriminate H.
      * split; [|reflexivity]. intros _. apply Exists_cons. right.
        apply IH. reflexivity.
Qed.

Section Runs.
Context {A : Type} (breaks : A -> A -> bool).

Lemma cutBy_head (l : list A) (g : list A) (gs : list (list A)) :
  cutBy breaks l = g :: gs -> head g = head l.
Proof.
  destruct l as [|x [|y l]].
  - discriminate.
  - intros [= <- _]. reflexivity.
  - destruct (cutBy_cons2 breaks x y l) as (g' & gs' & _ & ->).
    destruct (breaks x y); intros [= <- _]; reflexivity.
Qed.

(** Inside a group no two neighbours are cut apart, and between two
    groups that follow each other the cut is made. *)
Lemma cutBy_runs (l : list A) :
  Forall (Sorted (fun a b => breaks a b = false)) (cutBy breaks l) /\
  Sorted (fun g1 g2 => exists a b, last g1 = Some a /\ head g2 = Some b /\
                                   breaks a b = true)
         (cutBy breaks l).
Proof.
  induction l as [|x l IH]; [split; constructor|].
  destruct l as [|y l].
  - simpl. split; repeat constructor.
  - destruct (cutBy_cons2 breaks x y l) as (g & gs & E & E2).
    rewrite E in IH. destruct IH as [HF HS]. rewrite E2.
    pose proof (cutBy_head (y :: l) g gs E) as Hhd. simpl in Hhd.
    apply Forall_cons in HF as [Hg Hgs].
    destruct (breaks x y) eqn:Eb.
    + split.
      * constructor; [repeat constructor|]. constructor; assumption.
      * constructor; [exact HS|]. constructor.
        exists x, y. repeat split; assumption.
    + split.
      * constructor; [|exact Hgs]. constructor; [exact Hg|].
        destruct g as [|y' g]; [discriminate|]. injection Hhd as ->.
        constructor. exact Eb.
      * inversion HS as [|? ? HS' Hrel]; subst. constructor; [exact HS'|].
        destruct gs as [|h gs]; constructor.
        inversion Hrel as [|? ? (a & b & Ha & Hb & Hab)]; subst.
        exists a, b. repeat split; try assumption.
        destruct g as [|y' g]; [discriminate|]. exact Ha.
Qed.

End Runs.

(** X12.  The cycles of a record are the maximal runs of its history: they
    are consecutive pieces of it, point for point and field for field,
    inside a cycle the loop's condition holds of no two neighbours, and
    it holds of the last entry of each cycle and the first entry of the
    next. *)
Theorem cycles_are_maximal_runs (m : IdMap) (floats : list FloatRecord)
  (f : FloatRecord) :
  finalizeFloatsFromMap m = Some floats -> In f floats ->
  exists pieces : list (list Entry),
    cycles f = map (map toProfilePoint) pieces /\
    concat pieces = history f /\
    Forall unbroken pieces /\
    Sorted cutBetween pieces /\
    Forall2 (Forall2 showsEntry) pieces (cycles f).
Proof.
  intros Hfin Hf.
  destruct (finalizeFloatsFromMap_bucket m floats f Hfin Hf)
    as (p & b & _ & Eb).
  destruct (finalizeBucket_inv p b f Eb) as (c & l & _ & _ & _ & _ & -> & ->).
  exists (segment (sortBy compareJuld (entries b))).
  split; [reflexivity|]. split; [apply concat_segment|].
  destruct (cutBy_runs loopBreaks (sortBy compareJuld (entries b)))
    as [Hin Hbetween].
  rewrite segment_cutBy.
  split; [exact Hin|]. split; [exact Hbetween|]. apply shows_map_map.
Qed.

Lemma cycles_are_maximal_runs_witness :
  let m := [("1001", {| entries := [Sample.day 3; Sample.day 0; Sample.day 1];
                        btype := Some core |})] in
  exists f,
    finalizeFloatsFromMap m = Some [f] /\
    exists pieces : list (list Entry),
      cycles f = map (map toProfilePoint) pieces /\
      concat pieces = history f /\
      Forall unbroken pieces /\
      Sorted cutBetween pieces /\
      Forall2 (Forall2 showsEntry) pieces (cycles f).
Proof.
  intros m.
  destruct (finalizeFloatsFromMap m) as [[|f [|]]|] eqn:E;
    try (vm_compute in E; discriminate E).
  exists f. split; [reflexivity|].
  exact (cycles_are_maximal_runs m [f] f E (or_introl eq_refl)).
Defined.

(** ** Entries without a time *)

(** An entry without a time sorts strictly before one with a finite
    time. *)
Lemma untimed_before_timed (b a : Entry) (j : number) :
  juld b = None -> juld a = Some j -> Num.isFinite j = true ->
  Num.lt (compareJuld b a) Num.zero = true.
Proof.
  unfold compareJuld. intros -> -> Hj.
  destruct j; try discriminate Hj; reflexivity.
Qed.

Lemma sorted_untimed_first (l : list Entry) :
  Sorted (notBefore compareJuld) l ->
  (forall e j, In e l -> juld e = Some j -> Num.isFinite j = true) ->
  exists untimed timed,
    l = untimed ++ timed /\
    Forall (fun e => juld e = None) untimed /\
    Forall (fun e => juld e <> None) timed.
Proof.
  induction 1 as [|a l Hs IH Hrel]; intros Hfin.
  - exists [], []. repeat split; constructor.
  - destruct IH as (un & ti & -> & Hun & Hti).
    { intros e j He. apply Hfin. right. exact He. }
    destruct (juld a) as [j|] eqn:Ea.
    + destruct un as [|b un].
      * exists [], (a :: ti). repeat split; [constructor|].
        constructor; [congruence | exact Hti].
      * exfalso. apply Forall_cons in Hun as [Hb _].
        inversion Hrel as [|? ? Hab]; subst. unfold notBefore in Hab.
        rewrite (untimed_before_timed b a j Hb Ea) in Hab; [discriminate|].
        apply (Hfin a j); [left; reflexivity | exact Ea].
    + exists (a :: un), ti. repeat split; [|exact Hti].
      constructor; assumption.
Qed.

(** X13.  Entries without a time value sort as minus infinity: when the
    time values of a record are finite numbers, all its entries without a
    time come first in the history, before every entry that has one; so
    [latest] has a time as soon as one entry of the record has. *)
Theorem untimed_entries_first (m : IdMap) (floats : list FloatRecord)
  (f : FloatRecord) :
  finalizeFloatsFromMap m = Some floats -> In f floats ->
  (forall e j, In e (history f) -> juld e = Some j -> Num.isFinite j = true) ->
  exists untimed timed,
    history f = untimed ++ timed /\
    Forall (fun e => juld e = None) untimed /\
    Forall (fun e => juld e <> None) timed /\
    (timed <> [] -> juld (latest f) <> None).
Proof.
  intros Hfin Hf Hj.
  destruct (finalizeFloatsFromMap_bucket m floats f Hfin Hf)
    as (p & b & _ & Eb).
  destruct (finalizeBucket_inv p b f Eb) as (c & l & Hc & Hl & _ & Hlat & Hh & _).
  assert (Hlast : last (history f) = Some (latest f)).
  { rewrite Hh, Hlat, <- (concat_segment (sortBy compareJuld (entries b))).
    exact (last_concat _ c l Hc Hl). }
  assert (Hs : Sorted (notBefore compareJuld) (history f)).
  { rewrite Hh. apply history_sorted. }
  destruct (sorted_untimed_first (history f) Hs Hj)
    as (un & ti & E & Hun & Hti).
  exists un, ti. split; [exact E|]. split; [exact Hun|]. split; [exact Hti|].
  intros Hne. rewrite E, last_app in Hlast.
  destruct (last ti) as [x|] eqn:El.
  - injection Hlast as <-. rewrite Forall_forall in Hti. apply Hti.
    apply last_Some_elem_of. exact El.
  - apply last_None in El. contradiction.
Qed.

Lemma untimed_entries_first_witness :
  let m := [("1001", {| entries := [Sample.day 3; Sample.at_ None None;
                                    Sample.day 0];
                        btype := Some core |})] in
  exists f,
    finalizeFloatsFromMap m = Some [f] /\
    map juld (history f) = [None; Some (Num.ofZ 0); Some (Num.ofZ 3)] /\
    exists untimed timed,
      history f = untimed ++ timed /\
      Forall (fun e => juld e = None) untimed /\
      Forall (fun e => juld e <> None) timed /\
      (timed <> [] -> juld (latest f) <> None).
Proof.
  intros m.
  destruct (finalizeFloatsFromMap m) as [[|f [|]]|] eqn:E;
    try (vm_compute in E; discriminate E).
  exists f.
  assert (Hh : map juld (history f)
               = [None; Some (Num.ofZ 0); Some (Num.ofZ 3)]).
  { vm_compute in E. injection E as <-. vm_compute. reflexivity. }
  split; [reflexivity|]. split; [exact Hh|].
  apply (untimed_entries_first m [f] f E (or_introl eq_refl)).
  intros e j He Hj.
  assert (Hin : In (juld e) (map juld (history f))) by (apply in_map; exact He).
  rewrite Hh, Hj in Hin.
  destruct Hin as [H | [H | [H | []]]]; try discriminate H;
    injection H as <-; reflexivity.
Defined.

(** ** What the buckets hold *)

Lemma entriesOf_app (p : string) (l1 l2 : list (string * Entry)) :
  entriesOf p (l1 ++ l2) = entriesOf p l1 ++ entriesOf p l2.
Proof. unfold entriesOf. rewrite List.filter_app, map_app. reflexivity. Qed.

Lemma bucketEntries_addEntry (st : SourceType) (p q : string) (e : Entry)
  (m : IdMap) :
  bucketEntries (addEntry st p e m) q =
  bucketEntries m q ++ entriesOf q [(p, e)].
Proof.
  unfold bucketEntries, entriesOf. rewrite mapGet_addEntry. simpl.
  destruct (String.eqb_spec p q) as [->|N]; simpl.
  - destruct (mapGet m q); reflexivity.
  - rewrite app_nil_r. reflexivity.
Qed.

Lemma readRows_entries (st : SourceType) (rows : list Row) (m m' : IdMap)
  (q : string) :
  readRows st rows m = Some m' ->
  bucketEntries m' q = bucketEntries m q ++ entriesOf q (pushedBy rows).
Proof.
  revert m. induction rows as [|r rows IH]; intros m; simpl.
  - intros [= <-]. rewrite app_nil_r. reflexivity.
  - unfold pushedBy. simpl. fold (pushedBy rows).
    destruct (onRow r) as [| |p e]; [apply IH | discriminate |].
    intros H. rewrite (IH _ H), bucketEntries_addEntry, entriesOf_app,
      app_assoc. reflexivity.
Qed.

Lemma readFiles_entries (rowsOf : string -> list Row) (files : list string)
  (m m' : IdMap) (q : string) :
  readFiles rowsOf files m = Some m' ->
  bucketEntries m' q = bucketEntries m q ++ entriesOf q (pushedAll rowsOf files).
Proof.
  revert m. induction files as [|file files IH]; intros m; simpl.
  - intros [= <-]. rewrite app_nil_r. reflexivity.
  - destruct (readRows (sourceTypeOf file) (rowsOf file) m) as [m1|] eqn:E;
      [|discriminate]. simpl.
    intros H. rewrite (IH _ H), (readRows_entries _ _ _ _ q E).
    unfold pushedAll. simpl. rewrite entriesOf_app, app_assoc. reflexivity.
Qed.

Lemma In_entriesOf (p : string) (e : Entry) (l : list (string * Entry)) :
  In e (entriesOf p l) <-> In (p, e) l.
Proof.
  unfold entriesOf. rewrite in_map_iff. split.
  - intros ([p' e'] & <- & H). apply filter_In in H as [H E]. simpl in E.
    apply String.eqb_eq in E. subst p'. exact H.
  - intros H. exists (p, e). split; [reflexivity|].
    apply filter_In. split; [exact H | apply String.eqb_refl].
Qed.

Lemma finalizeFloatsFromMap_ids (m : IdMap) (floats : list FloatRecord) :
  finalizeFloatsFromMap m = Some floats -> map id floats = map fst m.
Proof.
  revert floats. induction m as [|[p b] m IH]; intros floats; simpl.
  - intros [= <-]. reflexivity.
  - destruct (finalizeBucket p b) as [f|] eqn:E; [|discriminate]. simpl.
    destruct (finalizeFloatsFromMap m) as [fs|]; [|discriminate]. simpl.
    intros [= <-]. simpl. rewrite (IH fs eq_refl).
    destruct (finalizeBucket_inv p b f E) as (_ & _ & _ & _ & -> & _).
    reflexivity.
Qed.

Lemma mapGet_Some_keys (m : IdMap) (p : string) (b : Bucket) :
  mapGet m p = Some b -> In p (map fst m).
Proof.
  induction m as [|[k x] m IH]; simpl; [discriminate|].
  destruct (String.eqb_spec k p) as [->|N]; [left; reflexivity|].
  intros H. right. exact (IH H).
Qed.

(** What a pass leaves: the ids are distinct, each history is the sorted
    list of the entries pushed for its platform, and the ids are the
    platforms that an entry was pushed for. *)
Lemma pass_summary (rowsOf : string -> list Row)
  (files : list string) (m : IdMap) (floats : list FloatRecord) :
  readFiles rowsOf files [] = Some m ->
  finalizeFloatsFromMap m = Some floats ->
  NoDup (map id floats) /\
  (forall f, In f floats ->
     history f
       = sortBy compareJuld (entriesOf (id f) (pushedAll rowsOf files))) /\
  (forall platform,
     In platform (map id floats) <->
     exists entry, In (platform, entry) (pushedAll rowsOf files)).
Proof.
  intros Hread Hfin.
  assert (Hnd : NoDup (map fst m)).
  { apply (readFiles_keys rowsOf files [] m Hread). constructor. }
  assert (Hne : Forall (fun pb => entries (snd pb) <> []) m).
  { apply (readFiles_nonempty rowsOf files [] m Hread). constructor. }
  assert (Hent : forall q, bucketEntries m q
                           = entriesOf q (pushedAll rowsOf files)).
  { intros q. rewrite (readFiles_entries rowsOf files [] m q Hread).
    reflexivity. }
  rewrite (finalizeFloatsFromMap_ids m floats Hfin).
  split; [exact Hnd|]. split.
  - intros f Hf.
    destruct (finalizeFloatsFromMap_bucket m floats f Hfin Hf)
      as (p & b & Hb & Eb).
    destruct (finalizeBucket_inv p b f Eb) as (_ & _ & _ & _ & -> & _ & -> & _).
    rewrite <- Hent. unfold bucketEntries.
    rewrite (mapGet_In m p b Hnd Hb). reflexivity.
  - intros p. split.
    + intros Hp. apply in_map_iff in Hp as ([p' b] & <- & Hb). simpl.
      rewrite Forall_forall in Hne.
      pose proof (Hne (p', b) (proj2 (list_elem_of_In _ _) Hb)) as Hbne.
      simpl in Hbne. pose proof (Hent p') as He. unfold bucketEntries in He.
      rewrite (mapGet_In m p' b Hnd Hb) in He.
      destruct (entries b) as [|e es] eqn:Eb; [contradiction|].
      exists e. apply In_entriesOf. rewrite <- He. left. reflexivity.
    + intros (e & Hpe).
      assert (Hin : In e (bucketEntries m p)).
      { rewrite Hent. apply In_entriesOf. exact Hpe. }
      unfold bucketEntries in Hin.
      destruct (mapGet m p) as [b|] eqn:Eg; [|destruct Hin].
      exact (mapGet_Some_keys m p b Eg).
Qed.

(** X14.  After a pass, there is exactly one record for each platform that
    a row was pushed for, and none for another; the history of a record
    holds exactly the entries pushed for its platform by all the files,
    none lost, none repeated, none of another platform: it is the stable
    sort by time of these entries in the order they were read. *)
Theorem records_hold_the_pushed_entries (rowsOf : string -> list Row)
  (files : list string) (m : IdMap) (floats : list FloatRecord) :
  readFiles rowsOf files [] = Some m ->
  finalizeFloatsFromMap m = Some floats ->
  NoDup (map id floats) /\
  (forall platform,
     In platform (map id floats) <->
     exists entry, In (platform, entry) (pushedAll rowsOf files)) /\
  (forall f, In f floats ->
     history f
       = sortBy compareJuld (entriesOf (id f) (pushedAll rowsOf files)) /\
     history f ≡ₚ entriesOf (id f) (pushedAll rowsOf files) /\
     forall entry,
       In entry (history f) <-> In (id f, entry) (pushedAll rowsOf files)).
Proof.
  intros Hread Hfin.
  destruct (pass_summary rowsOf files m floats Hread Hfin)
    as (Hnd & Hhist & Hids).
  split; [exact Hnd|]. split; [exact Hids|].
  intros f Hf.
  assert (Hperm : history f ≡ₚ entriesOf (id f) (pushedAll rowsOf files)).
  { rewrite (Hhist f Hf). apply sortBy_perm. }
  split; [exact (Hhist f Hf)|]. split; [exact Hperm|].
  intros e. rewrite <- In_entriesOf. rewrite <- !list_elem_of_In.
  rewrite Hperm. reflexivity.
Qed.

Lemma records_hold_the_pushed_entries_witness :
  let files := ["/app/data/bgc/b.csv"; "/app/data/core/c.csv"] in
  exists m f,
    readFiles Sample.scenarioRows files [] = Some m /\
    finalizeFloatsFromMap m = Some [f] /\
    length (entriesOf "1001" (pushedAll Sample.scenarioRows files)) = 3%nat /\
    NoDup (map id [f]) /\
    (forall platform,
       In platform (map id [f]) <->
       exists entry, In (platform, entry) (pushedAll Sample.scenarioRows files)) /\
    (forall g, In g [f] ->
       history g
         = sortBy compareJuld
             (entriesOf (id g) (pushedAll Sample.scenarioRows files)) /\
       history g ≡ₚ entriesOf (id g) (pushedAll Sample.scenarioRows files) /\
       forall entry,
         In entry (history g) <->
         In (id g, entry) (pushedAll Sample.scenarioRows files)).
Proof.
  intros files.
  destruct (readFiles Sample.scenarioRows files []) as [m|] eqn:Er;
    [|vm_compute in Er; discriminate Er].
  destruct (finalizeFloatsFromMap m) as [[|f [|]]|] eqn:Ef;
    try (vm_compute in Er; injection Er as <-; vm_compute in Ef;
         discriminate Ef).
  exists m, f. split; [reflexivity|]. split; [exact Ef|].
  split; [vm_compute; reflexivity|].
  exact (records_hold_the_pushed_entries Sample.scenarioRows files m [f]
           Er Ef).
Defined.

(** ** The order of the records *)

Lemma mapHas_keys (m : IdMap) (p : string) :
  mapHas m p = existsb (String.eqb p) (map fst m).
Proof.
  unfold mapHas. induction m as [|[k b] m IH]; simpl; [reflexivity|].
  rewrite (String.eqb_sym p k). destruct (String.eqb k p); [reflexivity|].
  exact IH.
Qed.

Lemma keys_addEntry_eq (st : SourceType) (p : string) (e : Entry) (m : IdMap) :
  map fst (addEntry st p e m) =
  if existsb (String.eqb p) (map fst m) then map fst m else map fst m ++ [p].
Proof.
  unfold addEntry. rewrite keys_mapUpdate, <- mapHas_keys.
  destruct (mapHas m p); [reflexivity|]. rewrite map_app. reflexivity.
Qed.

Lemma readRows_key_order (st : SourceType) (rows : list Row) (m m' : IdMap) :
  readRows st rows m = Some m' ->
  map fst m' =
  fold_left (fun seen p =>
               if existsb (String.eqb p) seen then seen else seen ++ [p])
            (map fst (pushedBy rows)) (map fst m).
Proof.
  revert m. induction rows as [|r rows IH]; intros m; simpl.
  - intros [= <-]. reflexivity.
  - unfold pushedBy. simpl. fold (pushedBy rows).
    destruct (onRow r) as [| |p e]; [apply IH | discriminate |].
    intros H. rewrite (IH _ H), keys_addEntry_eq. reflexivity.
Qed.

Lemma readFiles_key_order (rowsOf : string -> list Row) (files : list string)
  (m m' : IdMap) :
  readFiles rowsOf files m = Some m' ->
  map fst m' =
  fold_left (fun seen p =>
               if existsb (String.eqb p) seen then seen else seen ++ [p])
            (map fst (pushedAll rowsOf files)) (map fst m).
Proof.
  revert m. induction files as [|file files IH]; intros m; simpl.
  - intros [= <-]. reflexivity.
  - destruct (readRows (sourceTypeOf file) (rowsOf file) m) as [m1|] eqn:E;
      [|discriminate]. simpl.
    intros H. rewrite (IH _ H), (readRows_key_order _ _ _ _ E).
    unfold pushedAll. simpl. rewrite map_app, fold_left_app. reflexivity.
Qed.

(** X15.  The records of a pass come in the order in which their platforms
    are first met in the rows that are pushed, the files taken in the order
    of the listing (those of the bgc root before those of the core root)
    and the rows in the order of each file. *)
Theorem records_in_order_of_first_row (rowsOf : string -> list Row)
  (files : list string) (m : IdMap) (floats : list FloatRecord) :
  readFiles rowsOf files [] = Some m ->
  finalizeFloatsFromMap m = Some floats ->
  map id floats = firstSeen (map fst (pushedAll rowsOf files)).
Proof.
  intros Hread Hfin.
  rewrite (finalizeFloatsFromMap_ids m floats Hfin).
  exact (readFiles_key_order rowsOf files [] m Hread).
Qed.

Lemma records_in_order_of_first_row_witness :
  let rowsOf := fun file : string =>
    if String.eqb file "/app/data/bgc/b.csv"
    then [[("PLATFORM_NUMBER", "2002"); ("LATITUDE", "1"); ("LONGITUDE", "2")]]
    else [[("PLATFORM_NUMBER", "1001"); ("LATITUDE", "1"); ("LONGITUDE", "2")];
          [("PLATFORM_NUMBER", "2002"); ("LATITUDE", "3"); ("LONGITUDE", "4")]] in
  let files := ["/app/data/bgc/b.csv"; "/app/data/core/c.csv"] in
  exists m floats,
    readFiles rowsOf files [] = Some m /\
    finalizeFloatsFromMap m = Some floats /\
    map id floats = ["2002"; "1001"] /\
    map id floats = firstSeen (map fst (pushedAll rowsOf files)).
Proof.
  intros rowsOf files.
  destruct (readFiles rowsOf files []) as [m|] eqn:Er;
    [|vm_compute in Er; discriminate Er].
  destruct (finalizeFloatsFromMap m) as [floats|] eqn:Ef;
    [|vm_compute in Er; injection Er as <-; vm_compute in Ef;
      discriminate Ef].
  exists m, floats. split; [reflexivity|]. split; [exact Ef|].
  pose proof (records_in_order_of_first_row rowsOf files m floats Er Ef) as H.
  split; [|exact H]. rewrite H. vm_compute. reflexivity.
Defined.

(** ** The rows that are pushed *)

Lemma onRow_Pushed (r : Row) (p : string) (e : Entry) :
  onRow r = Pushed p e ->
  p = Str.trim (get r Alias.platform) /\ p <> "" /\
  toNumber (get r Alias.latitude) = Some (latitude e) /\
  toNumber (get r Alias.longitude) = Some (longitude e).
Proof.
  unfold onRow.
  destruct (Str.isEmpty (Str.trim (get r Alias.platform))) eqn:Ep;
    [discriminate|].
  destruct (toNumber (get r Alias.latitude)) as [lat|]; [|discriminate].
  destruct (toNumber (get r Alias.longitude)) as [lon|]; [|discriminate].
  destruct (timeAxis r) as [[j iso]|]; [|discriminate].
  intros [= <- <-]. simpl. repeat split. exact (isEmpty_false _ Ep).
Qed.

Lemma In_pushedBy (rows : list Row) (p : string) (e : Entry) :
  In (p, e) (pushedBy rows) <-> exists r, In r rows /\ onRow r = Pushed p e.
Proof.
  unfold pushedBy. rewrite in_flat_map. split.
  - intros (r & Hr & Hin). exists r. split; [exact Hr|].
    destruct (onRow r) as [| |p' e']; try destruct Hin.
    + congruence.
    + destruct H.
  - intros (r & Hr & E). exists r. split; [exact Hr|]. rewrite E.
    left. reflexivity.
Qed.

Lemma In_pushedAll (rowsOf : string -> list Row) (files : list string)
  (p : string) (e : Entry) :
  In (p, e) (pushedAll rowsOf files) <->
  exists file r, In file files /\ In r (rowsOf file) /\ onRow r = Pushed p e.
Proof.
  unfold pushedAll. rewrite in_flat_map. split.
  - intros (file & Hf & Hin). apply In_pushedBy in Hin as (r & Hr & E).
    exists file, r. repeat split; assumption.
  - intros (file & r & Hf & Hr & E). exists file. split; [exact Hf|].
    apply In_pushedBy. exists r. split; assumption.
Qed.

(** X16.  The id of every record of a pass is the trimmed platform value
    of a row that was pushed: it is not empty, has no white space at
    either end, and no two records share an id.  Platform values that
    differ otherwise, in letter case or inner white space, make different
    records. *)
Theorem record_ids_are_trimmed (rowsOf : string -> list Row)
  (files : list string) (m : IdMap) (floats : list FloatRecord) :
  readFiles rowsOf files [] = Some m ->
  finalizeFloatsFromMap m = Some floats ->
  NoDup (map id floats) /\
  forall f, In f floats ->
    id f <> "" /\ Str.trim (id f) = id f /\
    exists file r entry,
      In file files /\ In r (rowsOf file) /\
      onRow r = Pushed (id f) entry /\
      id f = Str.trim (get r Alias.platform).
Proof.
  intros Hread Hfin.
  destruct (pass_summary rowsOf files m floats Hread Hfin)
    as (Hnd & _ & Hids).
  split; [exact Hnd|]. intros f Hf.
  assert (Hid : In (id f) (map id floats)) by (apply in_map; exact Hf).
  apply Hids in Hid as (e & He).
  apply In_pushedAll in He as (file & r & Hfile & Hr & E).
  destruct (onRow_Pushed r (id f) e E) as (Hp & Hne & _).
  split; [exact Hne|]. split.
  - rewrite Hp. apply trim_idem.
  - exists file, r, e. repeat split; assumption.
Qed.

Lemma record_ids_are_trimmed_witness :
  let rowsOf := fun _ : string =>
    [[("PLATFORM_NUMBER", "  1001 "); ("LATITUDE", "10"); ("LONGITUDE", "20")];
     [("PLATFORM_NUMBER", "1001"); ("LATITUDE", "11"); ("LONGITUDE", "21")]] in
  exists m f,
    readFiles rowsOf ["/app/data/core/c.csv"] [] = Some m /\
    finalizeFloatsFromMap m = Some [f] /\
    id f = "1001" /\ length (history f) = 2%nat /\
    Str.trim (id f) = id f.
Proof.
  intros rowsOf.
  destruct (readFiles rowsOf ["/app/data/core/c.csv"] []) as [m|] eqn:Er;
    [|vm_compute in Er; discriminate Er].
  destruct (finalizeFloatsFromMap m) as [[|f [|]]|] eqn:Ef;
    try (vm_compute in Er; injection Er as <-; vm_compute in Ef;
         discriminate Ef).
  exists m, f. split; [reflexivity|]. split; [exact Ef|].
  destruct (record_ids_are_trimmed rowsOf ["/app/data/core/c.csv"] m [f]
              Er Ef) as (_ & H).
  destruct (H f (or_introl eq_refl)) as (_ & Ht & _).
  vm_compute in Er. injection Er as <-. vm_compute in Ef.
  injection Ef as <-.
  split; [reflexivity|]. split; [reflexivity | exact Ht].
Defined.

(** ** The routes *)

Lemma sliceLast_suffix {A} (n : nat) (a : list A) :
  a = firstn (length a - n) a ++ sliceLast n a.
Proof. unfold sliceLast. symmetry. apply firstn_skipn. Qed.

Lemma sliceLast_length {A} (n : nat) (a : list A) :
  length (sliceLast n a) = Nat.min n (length a).
Proof. unfold sliceLast. rewrite length_skipn. lia. Qed.

Lemma sliceLast_all {A} (n : nat) (a : list A) :
  (length a <= n)%nat -> sliceLast n a = a.
Proof.
  intros H. unfold sliceLast.
  replace (length a - n)%nat with 0%nat by lia. reflexivity.
Qed.

Lemma sliceLast_last {A} (n : nat) (a : list A) :
  (0 < n)%nat -> last (sliceLast n a) = last a.
Proof.
  intros Hn. pose proof (sliceLast_length n a) as Hl.
  rewrite (sliceLast_suffix n a) at 2. rewrite last_app.
  destruct (sliceLast n a) as [|x s] eqn:E.
  - simpl in Hl. assert (Ha : length a = 0%nat) by lia.
    destruct a; [reflexivity | discriminate].
  - destruct (last (x :: s)) eqn:El; [reflexivity|].
    apply last_None in El. discriminate.
Qed.

Lemma map_sliceLast_all {A} (n : nat) (l : list (list A)) :
  Forall (fun c => (length c <= n)%nat) l -> map (sliceLast n) l = l.
Proof.
  induction 1 as [|c l Hc _ IH]; simpl; [reflexivity|].
  rewrite IH, (sliceLast_all n c Hc). reflexivity.
Qed.

(** X17.  What [/api/floats] sends for a record of the aggregate: id, type
    and latest unchanged; at most the last 200 history entries, at most
    the last 10 cycles, at most the last 50 points of each.  The view
    still ends at [latest], in its history and in its last cycle, and none
    of its cycles is empty.  A record within the three limits is sent
    whole. *)
Theorem api_view_keeps_the_end (m : IdMap) (floats : list FloatRecord)
  (f : FloatRecord) :
  finalizeFloatsFromMap m = Some floats -> In f floats ->
  let v := optimizedFloat f in
  In v (optimizedFloats floats) /\
  id v = id f /\ type v = type f /\ latest v = latest f /\
  (exists older, history f = older ++ history v) /\
  length (history v) = Nat.min 200 (length (history f)) /\
  length (cycles v) = Nat.min 10 (length (cycles f)) /\
  Forall (fun c => (1 <= length c <= 50)%nat) (cycles v) /\
  last (history v) = Some (latest v) /\
  (exists c, last (cycles v) = Some c /\
             last c = Some (toProfilePoint (latest v)) /\
             exists p, last c = Some p /\ showsEntry (latest v) p) /\
  ((length (history f) <= 200)%nat -> (length (cycles f) <= 10)%nat ->
   Forall (fun c => (length c <= 50)%nat) (cycles f) -> v = f).
Proof.
  intros Hfin Hf v.
  destruct (finalizeFloatsFromMap_bucket m floats f Hfin Hf)
    as (p & b & _ & Eb).
  destruct (finalizeBucket_inv p b f Eb) as (c & l & Hc & Hl & _ & Hlat & Hh & Hcy).
  set (sorted := sortBy compareJuld (entries b)) in *.
  assert (Hlast : last (history f) = Some (latest f)).
  { rewrite Hh, Hlat, <- (concat_segment sorted).
    exact (last_concat _ c l Hc Hl). }
  assert (Hne : Forall (fun c : list ProfilePoint => c <> []) (cycles f)).
  { rewrite Hcy. apply Forall_map. 
    eapply Forall_impl; [apply (segment_nonempty sorted)|].
    intros x Hx. simpl. destruct x; [contradiction | discriminate]. }
  split; [apply in_map; exact Hf|].
  split; [reflexivity|]. split; [reflexivity|]. split; [reflexivity|].
  assert (Hv : v = optimizedFloat f) by reflexivity.
  assert (Hvh : history v = sliceLast 200 (history f)) by reflexivity.
  assert (Hvc : cycles v = map (sliceLast 50) (sliceLast 10 (cycles f)))
    by reflexivity.
  assert (Hvl : latest v = latest f) by reflexivity.
  rewrite Hvh, Hvc, Hvl. clearbody v.
  split; [eexists; apply sliceLast_suffix|].
  split; [apply sliceLast_length|].
  split; [rewrite length_map; apply sliceLast_length|].
  split; [|split; [|split]].
  - apply Forall_map.
    assert (Hsub : Forall (fun c : list ProfilePoint => c <> [])
                     (sliceLast 10 (cycles f))).
    { rewrite (sliceLast_suffix 10 (cycles f)) in Hne.
      apply Forall_app in Hne as [_ H]. exact H. }
    eapply Forall_impl; [exact Hsub|].
    intros x Hx. cbv beta. rewrite sliceLast_length.
    destruct x; [contradiction | cbn [length]; lia].
  - rewrite sliceLast_last by lia. exact Hlast.
  - assert (Hp : last (sliceLast 50 (map toProfilePoint c))
                 = Some (toProfilePoint (latest f))).
    { rewrite sliceLast_last by lia. rewrite last_map, Hl, Hlat. reflexivity. }
    exists (sliceLast 50 (map toProfilePoint c)).
    split; [|split; [exact Hp|]].
    + rewrite last_map, sliceLast_last by lia.
      rewrite Hcy, last_map, Hc. reflexivity.
    + exists (toProfilePoint (latest f)). split; [exact Hp|].
      apply toProfilePoint_shows.
  - intros H1 H2 H3. rewrite Hv. unfold optimizedFloat.
    rewrite (sliceLast_all 200 _ H1), (sliceLast_all 10 _ H2),
      (map_sliceLast_all 50 _ H3).
    destruct f; reflexivity.
Qed.

Lemma api_view_keeps_the_end_witness :
  let m := [("1001", {| entries := [Sample.day 3; Sample.day 0];
                        btype := Some core |})] in
  exists f,
    finalizeFloatsFromMap m = Some [f] /\
    optimizedFloat f = f /\
    last (history (optimizedFloat f)) = Some (latest f).
Proof.
  intros m.
  destruct (finalizeFloatsFromMap m) as [[|f [|]]|] eqn:E;
    try (vm_compute in E; discriminate E).
  exists f. split; [reflexivity|].
  destruct (api_view_keeps_the_end m [f] f E (or_introl eq_refl))
    as (_ & _ & _ & _ & _ & _ & _ & _ & Hl & _ & Hsame).
  split; [|exact Hl].
  vm_compute in E. injection E as <-.
  apply Hsame; [simpl; lia | simpl; lia | repeat constructor; simpl; lia].
Defined.

Lemma findFloat_In (floats : list FloatRecord) (f : FloatRecord) :
  NoDup (map id floats) -> In f floats -> findFloat floats (id f) = Some f.
Proof.
  unfold findFloat.
  induction floats as [|g floats IH]; simpl; [contradiction|].
  intros Hnd [-> | Hin].
  - rewrite String.eqb_refl. reflexivity.
  - apply NoDup_cons in Hnd as [Hg Hnd].
    destruct (String.eqb_spec (id g) (id f)) as [E|N].
    + exfalso. apply Hg. rewrite E. apply list_elem_of_In.
      apply in_map. exact Hin.
    + apply IH; assumption.
Qed.

Lemma findFloat_None (floats : list FloatRecord) (q : string) :
  findFloat floats q = None <-> ~ In q (map id floats).
Proof.
  unfold findFloat.
  induction floats as [|g floats IH]; simpl; [tauto|].
  destruct (String.eqb_spec (id g) q) as [E|N].
  - split; [discriminate | intros H; exfalso; apply H; left; exact E].
  - rewrite IH. tauto.
Qed.

(** X18.  After a pass, [/api/float/:id] sends the whole record of a
    platform, uncapped, for the id of every record of the aggregate, and
    status 404 exactly for the ids that no row was pushed for; ids are
    compared as they are, letter case and white space included. *)
Theorem api_float_by_id (rowsOf : string -> list Row)
  (files : list string) (m : IdMap) (floats : list FloatRecord) :
  readFiles rowsOf files [] = Some m ->
  finalizeFloatsFromMap m = Some floats ->
  (forall f, In f floats ->
     apiFloat (Cache.Fulfilled floats) (id f) = Some (JsonOne f)) /\
  (forall floatId,
     apiFloat (Cache.Fulfilled floats) floatId = Some Status404 <->
     forall entry, ~ In (floatId, entry) (pushedAll rowsOf files)).
Proof.
  intros Hread Hfin.
  destruct (pass_summary rowsOf files m floats Hread Hfin)
    as (Hnd & _ & Hids).
  split.
  - intros f Hf. simpl. rewrite (findFloat_In floats f Hnd Hf). reflexivity.
  - intros q. simpl. destruct (findFloat floats q) as [f|] eqn:E.
    + split; [discriminate|]. intros Hno. exfalso.
      assert (Hq : In q (map id floats)).
      { destruct (in_dec string_dec q (map id floats)) as [H|H]; [exact H|].
        apply findFloat_None in H. congruence. }
      apply Hids in Hq as (e & He). exact (Hno e He).
    + split; [|reflexivity]. intros _ e He.
      apply findFloat_None in E. apply E. apply Hids. exists e. exact He.
Qed.

Lemma api_float_by_id_witness :
  let files := ["/app/data/bgc/b.csv"; "/app/data/core/c.csv"] in
  exists m f,
    readFiles Sample.scenarioRows files [] = Some m /\
    finalizeFloatsFromMap m = Some [f] /\
    apiFloat (Cache.Fulfilled [f]) "1001" = Some (JsonOne f) /\
    apiFloat (Cache.Fulfilled [f]) " 1001" = Some Status404.
Proof.
  intros files.
  destruct (readFiles Sample.scenarioRows files []) as [m|] eqn:Er;
    [|vm_compute in Er; discriminate Er].
  destruct (finalizeFloatsFromMap m) as [[|f [|]]|] eqn:Ef;
    try (vm_compute in Er; injection Er as <-; vm_compute in Ef;
         discriminate Ef).
  exists m, f. split; [reflexivity|]. split; [exact Ef|].
  destruct (api_float_by_id Sample.scenarioRows files m [f] Er Ef)
    as [H1 H2].
  assert (Hid : id f = "1001").
  { vm_compute in Er. injection Er as <-. vm_compute in Ef.
    injection Ef as <-. reflexivity. }
  split.
  - rewrite <- Hid. apply H1. left. reflexivity.
  - simpl. unfold findFloat. simpl. rewrite Hid. reflexivity.
Defined.

(** ** The cache, once filled *)

Lemma filled_step (st st' : State) (ev : Event) (a : Aggregate) :
  FLOATS_CACHE st = Some a -> CACHE_BUILDING st = None -> running st = [] ->
  step st ev = Some st' ->
  ev = Request /\
  FLOATS_CACHE st' = Some a /\ CACHE_BUILDING st' = None /\ running st' = [].
Proof.
  intros Hc Hb Hr. destruct ev as [|p result|p err]; simpl.
  - intros [= <-]. unfold ensureCache. rewrite Hc. simpl.
    repeat split; assumption.
  - unfold isRunning. rewrite Hr. discriminate.
  - unfold isRunning. rewrite Hr. discriminate.
Qed.

Lemma filled_run (evs : list Event) (st st' : State) (a : Aggregate) :
  FLOATS_CACHE st = Some a -> CACHE_BUILDING st = None -> running st = [] ->
  run st evs = Some st' ->
  Forall (fun ev => ev = Request) evs /\
  FLOATS_CACHE st' = Some a /\ CACHE_BUILDING st' = None /\ running st' = [].
Proof.
  revert st. induction evs as [|ev evs IH]; intros st Hc Hb Hr; simpl.
  - intros [= <-]. split; [constructor|]. repeat split; assumption.
  - destruct (step st ev) as [st1|] eqn:E; [|discriminate]. simpl.
    destruct (filled_step st st1 ev a Hc Hb Hr E) as (-> & Hc1 & Hb1 & Hr1).
    intros Hrun. destruct (IH st1 Hc1 Hb1 Hr1 Hrun) as (HF & H).
    split; [constructor; [reflexivity | exact HF] | exact H].
Qed.

(** X19.  Once an aggregate is cached, also an empty one, it stays: in
    every later state the same aggregate is cached, no pass is in flight
    and none can start, and every request is answered with a promise
    fulfilled with that aggregate.  Nothing but a restart reads the files
    again. *)
Theorem cache_is_permanent (st st' : State) (a : Aggregate)
  (evs : list Event) :
  reachable st -> FLOATS_CACHE st = Some a ->
  run st evs = Some st' ->
  FLOATS_CACHE st' = Some a /\ CACHE_BUILDING st' = None /\
  running st' = [] /\
  Forall (fun ev => ev = Request) evs /\
  promises (snd (ensureCache st')) !! fst (ensureCache st')
    = Some (Fulfilled a).
Proof.
  intros Hreach Hc Hrun.
  pose proof (inv_reachable st Hreach) as Hinv. unfold inv in Hinv.
  destruct (CACHE_BUILDING st) as [p|] eqn:Hb.
  { destruct Hinv as (H & _). congruence. }
  destruct (filled_run evs st st' a Hc Hb Hinv Hrun) as (HF & Hc' & Hb' & Hr').
  repeat split; try assumption.
  unfold ensureCache. rewrite Hc'. simpl.
  apply list_lookup_middle. reflexivity.
Qed.

Lemma cache_is_permanent_witness :
  exists st st',
    run init [Request; PassSucceeds 0%nat []] = Some st /\
    run st [Request; Request] = Some st' /\
    FLOATS_CACHE st' = Some [] /\ running st' = [] /\
    promises (snd (ensureCache st')) !! fst (ensureCache st')
      = Some (Fulfilled []).
Proof.
  eexists. eexists.
  split; [vm_compute; reflexivity|].
  split; [vm_compute; reflexivity|].
  assert (Hr : reachable (mkState (Some []) None [Fulfilled []] [])).
  { exists [Request; PassSucceeds 0%nat []]. reflexivity. }
  destruct (cache_is_permanent _ _ [] [Request; Request] Hr eq_refl eq_refl)
    as (Hc & _ & Hrun & _ & Hp).
  split; [exact Hc|]. split; [exact Hrun | exact Hp].
Defined.

(** ** The calendar branch never fails *)

Lemma allDigits_cons (c : ascii) (s : string) :
  allDigits (String c s) <-> Str.isDigit c = true /\ allDigits s.
Proof.
  unfold allDigits. simpl. split.
  - intros H. split; [apply H; left; reflexivity|].
    intros x Hx. apply H. right. exact Hx.
  - intros [Hc Hs] x [<- | Hx]; [exact Hc | exact (Hs x Hx)].
Qed.

Lemma allDigits_onlyDigits (s : string) : allDigits (Str.onlyDigits s).
Proof.
  induction s as [|c s IH]; simpl; [intros c []|].
  destruct (Str.isDigit c) eqn:Ec; [|exact IH].
  apply allDigits_cons. split; assumption.
Qed.

Lemma allDigits_substring (a n : nat) (s : string) :
  allDigits s -> allDigits (substring a n s).
Proof.
  revert a n. induction s as [|c s IH]; intros a n Hs.
  - destruct a, n; intros x [].
  - apply allDigits_cons in Hs as [Hc Hs].
    destruct a as [|a]; [destruct n as [|n]|]; simpl.
    + intros x [].
    + apply allDigits_cons. split; [exact Hc | apply IH; exact Hs].
    + apply IH. exact Hs.
Qed.

Lemma length_substring (a n : nat) (s : string) :
  (a + n <= String.length s)%nat -> String.length (substring a n s) = n.
Proof.
  revert a n. induction s as [|c s IH]; intros a n; simpl.
  - intros H. destruct a, n; try lia; reflexivity.
  - destruct a as [|a]; [destruct n as [|n]|]; simpl; intros H.
    + reflexivity.
    + rewrite IH by lia. reflexivity.
    + apply IH. lia.
Qed.

Lemma isDigit_value (c : ascii) :
  Str.isDigit c = true -> 0 <= Str.digitValue c <= 9.
Proof. unfold Str.isDigit, Str.digitValue. lia. Qed.

Lemma takeDigits_allDigits (s : string) :
  allDigits s ->
  exists ds, Str.takeDigits s = (ds, EmptyString) /\
             length ds = String.length s /\
             Forall (fun d => 0 <= d <= 9) ds.
Proof.
  induction s as [|c s IH]; intros Hs.
  - exists []. repeat split. constructor.
  - apply allDigits_cons in Hs as [Hc Hs].
    destruct (IH Hs) as (ds & E & Hl & HF).
    exists (Str.digitValue c :: ds). simpl. rewrite Hc, E, Hl.
    repeat split. constructor; [exact (isDigit_value c Hc) | exact HF].
Qed.

Lemma fold_digits_bound (ds : list Z) (acc : Z) :
  0 <= acc -> Forall (fun d => 0 <= d <= 9) ds ->
  0 <= fold_left (fun acc d => 10 * acc + d) ds acc
    < (acc + 1) * 10 ^ Z.of_nat (length ds).
Proof.
  revert acc. induction ds as [|d ds IH]; intros acc Hacc HF.
  - simpl. lia.
  - apply Forall_cons in HF as [Hd HF].
    specialize (IH (10 * acc + d) ltac:(lia) HF). cbn [fold_left].
    replace (Z.of_nat (length (d :: ds))) with (Z.succ (Z.of_nat (length ds)))
      by (simpl; lia).
    rewrite Z.pow_succ_r by lia.
    assert (0 < 10 ^ Z.of_nat (length ds)) by (apply Z.pow_pos_nonneg; lia).
    nia.
Qed.

(** [parseInt] of a slice that lies within a string of digits. *)
Lemma parseInt_slice (a b : nat) (digits : string) :
  allDigits digits -> (a < b)%nat -> (b <= String.length digits)%nat ->
  exists v, Str.parseInt (Str.slice a b digits) = Some v /\
            0 <= v < 10 ^ Z.of_nat (b - a).
Proof.
  intros Hd Hab Hb. unfold Str.slice, Str.parseInt.
  pose proof (allDigits_substring a (b - a) digits Hd) as Hs.
  pose proof (length_substring a (b - a) digits ltac:(lia)) as Hl.
  destruct (takeDigits_allDigits _ Hs) as (ds & E & Hlen & HF).
  rewrite E. rewrite Hl in Hlen.
  destruct ds as [|d ds]; [simpl in Hlen; lia|].
  eexists. split; [reflexivity|]. unfold Str.valueOfDigits.
  rewrite <- Hlen. pose proof (fold_digits_bound (d :: ds) 0 ltac:(lia) HF).
  lia.
Qed.

Lemma optionalField_some (digits : string) (n a b : nat) :
  allDigits digits -> (a < b)%nat -> (b <= n)%nat ->
  exists v, optionalField digits n a b = Some v /\
            0 <= v < 10 ^ Z.of_nat (b - a).
Proof.
  intros Hd Hab Hbn. unfold optionalField.
  destruct (Nat.leb_spec n (String.length digits)).
  - apply parseInt_slice; [exact Hd | exact Hab | lia].
  - exists 0. split; [reflexivity|].
    assert (0 < 10 ^ Z.of_nat (b - a)) by (apply Z.pow_pos_nonneg; lia). lia.
Qed.

Lemma daysBeforeMonth_range (leap m : Z) :
  0 <= leap <= 1 -> 0 <= JSDate.daysBeforeMonth leap m <= 335.
Proof.
  intros H. unfold JSDate.daysBeforeMonth.
  repeat match goal with
         | |- context [if ?b then _ else _] => destruct b
         end; lia.
Qed.

(** [Date.UTC] of fields of at most four and two digits is a valid time
    value, whatever the fields are: months and days out of range roll
    over. *)
Lemma UTC_some (y m d hh mm ss : Z) :
  0 <= y < 10000 -> -1 <= m < 100 -> 0 <= d < 100 ->
  0 <= hh < 100 -> 0 <= mm < 100 -> 0 <= ss < 100 ->
  exists t, JSDate.UTC y m d hh mm ss = Some t.
Proof.
  intros Hy Hm Hd Hhh Hmm Hss. unfold JSDate.UTC, JSDate.TimeClip.
  set (yr := if (0 <=? y) && (y <=? 99) then 1900 + y else y).
  assert (Hyr : 0 <= yr < 10000).
  { unfold yr. destruct ((0 <=? y) && (y <=? 99)) eqn:E; lia. }
  clearbody yr.
  match goal with
  | |- context [Z.abs ?t <=? ?k] =>
      assert (Hb : Z.abs t <= k); [|apply Z.leb_le in Hb; rewrite Hb; eauto]
  end.
  unfold JSDate.MakeDate, JSDate.MakeDay, JSDate.MakeTime, JSDate.msPerDay,
    JSDate.msPerHour, JSDate.msPerMinute, JSDate.msPerSecond.
  set (ym := yr + m / 12).
  assert (Hym : -1 <= ym < 10009).
  { unfold ym. Z.div_mod_to_equations. lia. }
  pose proof (daysBeforeMonth_range (if JSDate.isLeap ym then 1 else 0)
                (m mod 12) ltac:(destruct (JSDate.isLeap ym); lia)) as Hdb.
  assert (Hdy : -1000000 <= JSDate.DayFromYear ym <= 3000000).
  { unfold JSDate.DayFromYear. Z.div_mod_to_equations. lia. }
  lia.
Qed.

Lemma dtMsOfDigits_some (digits : string) :
  allDigits digits -> (8 <= String.length digits)%nat ->
  exists t, dtMsOfDigits digits = Some t.
Proof.
  intros Hd Hl. unfold dtMsOfDigits.
  destruct (parseInt_slice 0 4 digits Hd ltac:(lia) ltac:(lia))
    as (y & -> & Hy).
  destruct (parseInt_slice 4 6 digits Hd ltac:(lia) ltac:(lia))
    as (m1 & -> & Hm1).
  destruct (parseInt_slice 6 8 digits Hd ltac:(lia) ltac:(lia))
    as (d & -> & Hdd).
  destruct (optionalField_some digits 10 8 10 Hd ltac:(lia) ltac:(lia))
    as (hh & -> & Hhh).
  destruct (optionalField_some digits 12 10 12 Hd ltac:(lia) ltac:(lia))
    as (mm & -> & Hmm).
  destruct (optionalField_some digits 14 12 14 Hd ltac:(lia) ltac:(lia))
    as (ss & -> & Hss).
  simpl in *. apply UTC_some; lia.
Qed.

(** The time axis fails only in the branch of the julian day. *)
Lemma timeAxis_None (r : Row) :
  timeAxis r = None <->
  exists j, toNumber (get r Alias.juld) = Some j /\ isoOfJuld j = None.
Proof.
  unfold timeAxis. destruct (toNumber (get r Alias.juld)) as [j|].
  - destruct (isoOfJuld j) as [iso|] eqn:E; simpl.
    + split; [discriminate | intros (j' & [= <-] & H); congruence].
    + split; [intros _; exists j; split; [reflexivity | exact E] | reflexivity].
  - split; [|intros (j & H & _); discriminate H].
    destruct (Nat.leb_spec 8 (String.length (Str.onlyDigits (get r Alias.date))))
      as [Hl|Hl]; [|discriminate].
    destruct (dtMsOfDigits_some _ (allDigits_onlyDigits _) Hl) as (t & ->).
    discriminate.
Qed.

(** X20.  The row callback raises an exception in one case only: the row
    has a platform, a latitude and a longitude, its julian-day column
    holds a number, and the instant of that julian day is outside the
    range of [Date], so that [toISOString] throws.  The calendar branch
    never fails, whatever digits the date column holds. *)
Theorem row_throws_only_for_juld (r : Row) :
  onRow r = Thrown <->
  Str.trim (get r Alias.platform) <> "" /\
  toNumber (get r Alias.latitude) <> None /\
  toNumber (get r Alias.longitude) <> None /\
  exists j, toNumber (get r Alias.juld) = Some j /\
            JSDate.ofNumber (Num.add epoch1950 (Num.mul j dayMs)) = None.
Proof.
  assert (Hiso : forall j, isoOfJuld j = None <->
            JSDate.ofNumber (Num.add epoch1950 (Num.mul j dayMs)) = None).
  { intros j. unfold isoOfJuld, JSDate.toISOString.
    destruct (JSDate.ofNumber _); simpl; split; congruence. }
  unfold onRow.
  destruct (Str.trim (get r Alias.platform)) as [|c p] eqn:Ep;
    cbn [Str.isEmpty].
  { split; [discriminate | intros (H & _); contradiction]. }
  destruct (toNumber (get r Alias.latitude)) as [lat|],
           (toNumber (get r Alias.longitude)) as [lon|];
    try (split; [discriminate | intros (_ & H1 & H2 & _); contradiction]).
  destruct (timeAxis r) as [[j iso]|] eqn:Et.
  - split; [discriminate|]. intros (_ & _ & _ & j' & Hj & Hn).
    assert (Hnone : timeAxis r = None).
    { apply timeAxis_None. exists j'. split; [exact Hj | apply Hiso; exact Hn]. }
    congruence.
  - split; [|reflexivity]. intros _.
    apply timeAxis_None in Et as (j & Hj & Hn).
    repeat split; try discriminate.
    exists j. split; [exact Hj | apply Hiso; exact Hn].
Qed.

Lemma readRows_some (st : SourceType) (rows : list Row) (m : IdMap) :
  (forall r, In r rows -> onRow r <> Thrown) ->
  exists m', readRows st rows m = Some m'.
Proof.
  revert m. induction rows as [|r rows IH]; intros m H; simpl.
  - eauto.
  - assert (H' : forall r', In r' rows -> onRow r' <> Thrown)
      by (intros r' Hr'; apply H; right; exact Hr').
    destruct (onRow r) as [| |p e] eqn:E.
    + apply IH. exact H'.
    + exfalso. apply (H r); [left; reflexivity | exact E].
    + apply IH. exact H'.
Qed.

Lemma readFiles_some (rowsOf : string -> list Row) (files : list string)
  (m : IdMap) :
  (forall file r, In file files -> In r (rowsOf file) -> onRow r <> Thrown) ->
  exists m', readFiles rowsOf files m = Some m'.
Proof.
  revert m. induction files as [|file files IH]; intros m H; simpl.
  - eauto.
  - destruct (readRows_some (sourceTypeOf file) (rowsOf file) m) as (m1 & ->).
    { intros r Hr. apply (H file r); [left; reflexivity | exact Hr]. }
    simpl. apply IH. intros f r Hf Hr. apply (H f r); [right|]; assumption.
Qed.

(** X21.  When both listings return, the pass returns an aggregate unless
    some row of a listed file has a julian day whose instant is outside
    the range of [Date]: nothing else in the row callback or in
    [finalizeFloatsFromMap] can fail. *)
Theorem pass_returns (fuel : nat) (fs : FileSystem) (dirname : string)
  (rowsOf : string -> list Row) (bgcFiles coreFiles : list string) :
  listFilesRecursive fuel fs (bgcRoot dirname) = Some bgcFiles ->
  listFilesRecursive fuel fs (coreRoot dirname) = Some coreFiles ->
  (forall file r j,
     In file (bgcFiles ++ coreFiles) -> In r (rowsOf file) ->
     toNumber (get r Alias.juld) = Some j ->
     JSDate.ofNumber (Num.add epoch1950 (Num.mul j dayMs)) <> None) ->
  exists floats, loadFloatsStreaming fuel fs dirname rowsOf = Some floats.
Proof.
  intros Hb Hc Hj.
  destruct (readFiles_some rowsOf (bgcFiles ++ coreFiles) []) as (m & Hm).
  { intros file r Hf Hr Et. unfold onRow in Et.
    destruct (Str.isEmpty _); [discriminate|].
    destruct (toNumber (get r Alias.latitude)),
             (toNumber (get r Alias.longitude)); try discriminate.
    destruct (timeAxis r) as [[j iso]|] eqn:Ea; [discriminate|].
    apply timeAxis_None in Ea as (j & Ej & Hn).
    apply (Hj file r j Hf Hr Ej).
    unfold isoOfJuld, JSDate.toISOString in Hn.
    destruct (JSDate.ofNumber _); [discriminate | reflexivity]. }
  destruct (loadFloatsStreaming_returns fuel fs dirname rowsOf bgcFiles
              coreFiles m Hb Hc Hm) as (floats & E & _).
  exists floats. exact E.
Qed.

Lemma pass_returns_witness :
  exists floats,
    loadFloatsStreaming 5 Sample.plainFs "/app" Sample.scenarioRows
      = Some floats.
Proof.
  apply (pass_returns 5 Sample.plainFs "/app" Sample.scenarioRows
           ["/app/data/bgc/b.csv"] ["/app/data/core/c.csv"]);
    [reflexivity | reflexivity |].
  intros file r j [<- | [<- | []]] Hr Hj.
  - destruct Hr as [<- | []]. vm_compute in Hj. injection Hj as <-.
    vm_compute. discriminate.
  - destruct Hr as [<- | [<- | []]]; vm_compute in Hj; injection Hj as <-;
      vm_compute; discriminate.
Defined.

(** ** Numbers followed by text *)

Lemma isDigit_not_white (c : ascii) :
  Str.isDigit c = true -> Str.isWhiteSpace c = false.
Proof. unfold Str.isDigit, Str.isWhiteSpace. lia. Qed.

Lemma trimEnd_digits_app (d t : string) :
  allDigits d -> Str.trimEnd (d +:+ t) = d +:+ Str.trimEnd t.
Proof.
  induction d as [|c d IH]; intros Hd.
  - rewrite !append_nil_l. reflexivity.
  - apply allDigits_cons in Hd as [Hc Hd]. rewrite !append_cons.
    cbn [Str.trimEnd]. rewrite (IH Hd), (isDigit_not_white c Hc).
    destruct (d +:+ Str.trimEnd t); reflexivity.
Qed.

Lemma trim_digits_app (d t : string) :
  d <> "" -> allDigits d -> Str.trim (d +:+ t) = d +:+ Str.trimEnd t.
Proof.
  intros Hne Hd. unfold Str.trim.
  destruct d as [|c d]; [contradiction|].
  pose proof (proj1 (allDigits_cons c d) Hd) as [Hc _].
  rewrite append_cons. cbn [Str.trimStart].
  rewrite (isDigit_not_white c Hc), <- append_cons.
  apply trimEnd_digits_app. exact Hd.
Qed.

Lemma plainTail_trimEnd (t : string) : plainTail t -> plainTail (Str.trimEnd t).
Proof.
  destruct t as [|c t]; [exact (fun H => H)|]. intros H. cbn [Str.trimEnd].
  destruct (Str.trimEnd t); [destruct (Str.isWhiteSpace c)|];
    first [exact I | exact H].
Qed.

Lemma takeDigits_app (d u : string) :
  allDigits d -> plainTail u ->
  Str.takeDigits (d +:+ u) = (fst (Str.takeDigits d), u).
Proof.
  induction d as [|c d IH]; intros Hd Hu.
  - rewrite append_nil_l. destruct u as [|c u]; [reflexivity|].
    destruct Hu as (Hc & _). cbn [Str.takeDigits]. rewrite Hc. reflexivity.
  - apply allDigits_cons in Hd as [Hc Hd]. rewrite append_cons.
    cbn [Str.takeDigits]. rewrite Hc, (IH Hd Hu).
    destruct (Str.takeDigits d). reflexivity.
Qed.

Lemma exponentPart_plain (u : string) : plainTail u -> exponentPart u = 0.
Proof.
  destruct u as [|c u]; [reflexivity|]. intros (_ & _ & H1 & H2).
  unfold exponentPart.
  destruct (Z.eqb_spec (Str.code c) 101); [contradiction|].
  destruct (Z.eqb_spec (Str.code c) 69); [contradiction|]. reflexivity.
Qed.

(** [parseFloat] stops where the numeral stops. *)
Lemma parseFloat_digits_app (d u : string) :
  d <> "" -> allDigits d -> plainTail u ->
  parseFloat (d +:+ u)
  = ofDecimal false (Str.valueOfDigits (fst (Str.takeDigits d))) 0.
Proof.
  intros Hne Hd Hu. destruct d as [|c d]; [contradiction|].
  pose proof (proj1 (allDigits_cons c d) Hd) as [Hc _].
  unfold parseFloat. rewrite append_cons. cbn [Str.trimStart].
  rewrite (isDigit_not_white c Hc).
  assert (H45 : (Str.code c =? 45) = false)
    by (unfold Str.isDigit in Hc; lia).
  assert (H43 : (Str.code c =? 43) = false)
    by (unfold Str.isDigit in Hc; lia).
  rewrite H45, H43. unfold unsignedLiteral.
  assert (HI : Str.startsWith "Infinity" (String c (d +:+ u)) = false).
  { cbn [Str.startsWith].
    destruct (Ascii.eqb_spec "I" c) as [<-|_]; [discriminate Hc | reflexivity]. }
  rewrite HI, <- append_cons, (takeDigits_app _ u Hd Hu).
  assert (Hds : fst (Str.takeDigits (String c d)) <> []).
  { cbn [Str.takeDigits]. rewrite Hc. destruct (Str.takeDigits d).
    discriminate. }
  assert (Hfp : match u with
                | String c0 r =>
                    if Str.code c0 =? 46 then Str.takeDigits r else ([], u)
                | EmptyString => ([], u)
                end = ([], u)).
  { destruct u as [|c0 r]; [reflexivity|]. destruct Hu as (_ & H46 & _).
    destruct (Z.eqb_spec (Str.code c0) 46); [contradiction | reflexivity]. }
  rewrite Hfp, (exponentPart_plain u Hu), app_nil_r.
  destruct (fst (Str.takeDigits (String c d))); [contradiction | reflexivity].
Qed.

(** X22.  [toNumber] does not reject a number that is followed by text: a
    run of digits followed by anything that cannot continue a decimal
    numeral (a unit, a letter, white space and more) is read as the number
    the digits write; the text after it is ignored. *)
Theorem toNumber_ignores_trailing_text (d t : string) :
  d <> "" -> allDigits d -> plainTail t ->
  toNumber (d +:+ t) = toNumber d.
Proof.
  intros Hne Hd Ht. unfold toNumber.
  assert (Htd : Str.trim d = d +:+ Str.trimEnd "").
  { pose proof (trim_digits_app d "" Hne Hd) as H.
    rewrite append_nil_r in H. exact H. }
  rewrite (trim_digits_app d t Hne Hd), Htd.
  rewrite (parseFloat_digits_app d _ Hne Hd (plainTail_trimEnd t Ht)).
  rewrite (parseFloat_digits_app d (Str.trimEnd "") Hne Hd I).
  reflexivity.
Qed.

Lemma toNumber_ignores_trailing_text_witness :
  toNumber ("1500" +:+ " dbar") = toNumber "1500" /\
  toNumber "1500" = Some (Num.ofZ 1500).
Proof.
  split; [|vm_compute; reflexivity].
  apply toNumber_ignores_trailing_text.
  - discriminate.
  - intros c Hc. simpl in Hc.
    repeat (destruct Hc as [<- | Hc]; [reflexivity|]). destruct Hc.
  - vm_compute. repeat split; discriminate.
Defined.

(** ** From calendar fields to the instant and back *)

Lemma DayFromYear_mono (a b : Z) :
  a <= b -> JSDate.DayFromYear a <= JSDate.DayFromYear b.
Proof. unfold JSDate.DayFromYear. intros H. Z.div_mod_to_equations. lia. Qed.

(** The year of a day is the only one whose days include it. *)
Lemma yearFromDay_unique (y day : Z) :
  JSDate.DayFromYear y <= day < JSDate.DayFromYear (y + 1) ->
  JSDate.yearFromDay day = y.
Proof.
  intros H. pose proof (yearFromDay_spec day) as S.
  destruct (Z.lt_trichotomy (JSDate.yearFromDay day) y) as [Hlt | [E | Hgt]];
    [|exact E|].
  - pose proof (DayFromYear_mono (JSDate.yearFromDay day + 1) y ltac:(lia)).
    lia.
  - pose proof (DayFromYear_mono (y + 1) (JSDate.yearFromDay day) ltac:(lia)).
    lia.
Qed.

Lemma dayOfYear_range (y mo d : Z) :
  1 <= mo <= 12 -> 1 <= d <= daysInMonth y mo ->
  let leap := if JSDate.isLeap y then 1 else 0 in
  let dwy := JSDate.daysBeforeMonth leap (mo - 1) + d - 1 in
  0 <= dwy < 365 + leap /\
  JSDate.monthOfDay leap dwy = mo - 1.
Proof.
  intros Hmo Hd. unfold daysInMonth in Hd.
  assert (Hcases : mo = 1 \/ mo = 2 \/ mo = 3 \/ mo = 4 \/ mo = 5 \/ mo = 6 \/
                   mo = 7 \/ mo = 8 \/ mo = 9 \/ mo = 10 \/ mo = 11 \/ mo = 12)
    by lia.
  destruct (JSDate.isLeap y);
    repeat (destruct Hcases as [-> | Hcases]); try subst mo;
    cbv zeta; unfold JSDate.daysBeforeMonth, JSDate.monthOfDay;
    simpl in Hd |- *; split_ifs; lia.
Qed.

(** The calendar fields of the instant that [Date.UTC] makes of a valid
    date are the fields it was made of. *)
Lemma fields_of_UTC (y mo d hh mi ss : Z) :
  validDate y mo d hh mi ss ->
  exists t,
    JSDate.UTC y (mo - 1) d hh mi ss = Some t /\
    JSDate.YearFromTime t = y /\ JSDate.MonthFromTime t = mo - 1 /\
    JSDate.DateFromTime t = d /\ JSDate.HourFromTime t = hh /\
    JSDate.MinFromTime t = mi /\ JSDate.SecFromTime t = ss /\
    JSDate.msFromTime t = 0.
Proof.
  intros (Hy & Hmo & Hd & Hhh & Hmi & Hss).
  destruct (dayOfYear_range y mo d Hmo Hd) as [Hdwy Hmonth].
  set (leap := if JSDate.isLeap y then 1 else 0) in *.
  set (dwy := JSDate.daysBeforeMonth leap (mo - 1) + d - 1) in *.
  set (day := JSDate.DayFromYear y + dwy).
  set (time := hh * 3600000 + mi * 60000 + ss * 1000).
  assert (Hday : JSDate.MakeDay y (mo - 1) d = day).
  { unfold JSDate.MakeDay.
    replace ((mo - 1) / 12) with 0 by (Z.div_mod_to_equations; lia).
    replace ((mo - 1) mod 12) with (mo - 1) by (Z.div_mod_to_equations; lia).
    rewrite Z.add_0_r. fold leap. unfold day, dwy. lia. }
  assert (Htime : JSDate.MakeTime hh mi ss 0 = time).
  { unfold JSDate.MakeTime, JSDate.msPerHour, JSDate.msPerMinute,
      JSDate.msPerSecond, time. lia. }
  assert (Ht : 0 <= time < 86400000) by (unfold time; lia).
  set (t := day * 86400000 + time).
  assert (HDay : JSDate.Day t = day).
  { unfold JSDate.Day, JSDate.msPerDay, t. Z.div_mod_to_equations. lia. }
  assert (Hyear : JSDate.YearFromTime t = y).
  { unfold JSDate.YearFromTime. rewrite HDay. apply yearFromDay_unique.
    rewrite DayFromYear_succ. unfold JSDate.DaysInYear, day.
    fold leap in Hdwy. unfold leap in *. destruct (JSDate.isLeap y); lia. }
  assert (Hleap : JSDate.InLeapYear t = leap).
  { unfold JSDate.InLeapYear. rewrite Hyear. reflexivity. }
  assert (Hwithin : JSDate.DayWithinYear t = dwy).
  { unfold JSDate.DayWithinYear. rewrite HDay, Hyear. unfold day. lia. }
  assert (HM : JSDate.MonthFromTime t = mo - 1).
  { unfold JSDate.MonthFromTime. rewrite Hleap, Hwithin. exact Hmonth. }
  exists t. split.
  - unfold JSDate.UTC.
    replace ((0 <=? y) && (y <=? 99)) with false
      by (symmetry; apply andb_false_iff; right; apply Z.leb_gt; lia).
    rewrite Hday, Htime. unfold JSDate.MakeDate, JSDate.msPerDay. fold t.
    unfold JSDate.TimeClip.
    assert (Hdy : -1000000 <= JSDate.DayFromYear y <= 3000000).
    { unfold JSDate.DayFromYear. Z.div_mod_to_equations. lia. }
    assert (Hl : 0 <= leap <= 1) by (unfold leap; destruct (JSDate.isLeap y); lia).
    replace (Z.abs t <=? 8640000000000000) with true; [reflexivity|].
    symmetry. apply Z.leb_le. unfold t, day. lia.
  - split; [exact Hyear|]. split; [exact HM|]. split.
    { unfold JSDate.DateFromTime. rewrite Hleap, Hwithin, HM. unfold dwy. lia. }
    unfold JSDate.HourFromTime, JSDate.MinFromTime, JSDate.SecFromTime,
      JSDate.msFromTime, JSDate.msPerHour, JSDate.msPerMinute,
      JSDate.msPerSecond, t, time.
    clearbody day. clear -Hhh Hmi Hss.
    repeat split; Z.div_mod_to_equations; lia.
Qed.

Lemma dtMsOfDigits_date (y mo d : Z) :
  0 <= y < 10000 -> 0 <= mo < 100 -> 0 <= d < 100 ->
  dtMsOfDigits (dateDigits y mo d +:+ "") = JSDate.UTC y (mo - 1) d 0 0 0.
Proof.
  intros Hy Hmo Hd.
  pose proof (parseInt_pad4 y Hy) as Py.
  pose proof (parseInt_pad2 mo Hmo) as Pmo.
  pose proof (parseInt_pad2 d Hd) as Pd.
  unfold dtMsOfDigits, optionalField, dateDigits, Str.slice.
  unfold JSDate.pad4, JSDate.pad3, JSDate.pad2 in *.
  cbv [String.append String.length substring Nat.sub Nat.leb].
  rewrite Py, Pmo, Pd. reflexivity.
Qed.

Lemma dtMsOfDigits_date_time (y mo d hh mi ss : Z) (rest : string) :
  0 <= y < 10000 -> 0 <= mo < 100 -> 0 <= d < 100 -> 0 <= hh < 100 ->
  0 <= mi < 100 -> 0 <= ss < 100 ->
  dtMsOfDigits (dateDigits y mo d +:+ timeDigits hh mi ss +:+ rest)
  = JSDate.UTC y (mo - 1) d hh mi ss.
Proof.
  intros Hy Hmo Hd Hh Hmi Hs.
  pose proof (parseInt_pad4 y Hy) as Py.
  pose proof (parseInt_pad2 mo Hmo) as Pmo.
  pose proof (parseInt_pad2 d Hd) as Pd.
  pose proof (parseInt_pad2 hh Hh) as Ph.
  pose proof (parseInt_pad2 mi Hmi) as Pmi.
  pose proof (parseInt_pad2 ss Hs) as Ps.
  unfold dtMsOfDigits, optionalField, dateDigits, timeDigits, Str.slice.
  unfold JSDate.pad4, JSDate.pad3, JSDate.pad2 in *.
  destruct rest as [|c rest];
    cbv [String.append String.length substring Nat.sub Nat.leb];
    rewrite Py, Pmo, Pd, Ph, Pmi, Ps; reflexivity.
Qed.

Lemma daysInMonth_le (y mo : Z) : daysInMonth y mo <= 31.
Proof.
  unfold daysInMonth.
  repeat match goal with
         | |- context [if ?b then _ else _] => destruct b
         end; lia.
Qed.

(** X23.  For a row without a usable julian day whose date column reads,
    digit for digit, as a valid calendar date [YYYYMMDD], alone or followed
    by a time [HHMMSS] (further digits are ignored), the ISO string of the
    entry shows that date and time, with midnight for a date alone, and
    the julian day is the one of that instant. *)
Theorem calendar_date_is_kept (r : Row) (y mo d hh mi ss : Z)
  (tail : string) :
  toNumber (get r Alias.juld) = None ->
  Str.onlyDigits (get r Alias.date) = dateDigits y mo d +:+ tail ->
  validDate y mo d hh mi ss ->
  (tail = "" /\ hh = 0 /\ mi = 0 /\ ss = 0) \/
  (exists rest, tail = timeDigits hh mi ss +:+ rest) ->
  exists t,
    JSDate.UTC y (mo - 1) d hh mi ss = Some t /\
    timeAxis r
      = Some (Some (juldOfTime t), Some (isoOfFields y mo d hh mi ss)).
Proof.
  intros Hj Hdigits Hvalid Htail.
  destruct (fields_of_UTC y mo d hh mi ss Hvalid)
    as (t & Hutc & HY & HM & HD & Hh & Hm & Hs & Hms).
  destruct Hvalid as (Hy & Hmo & Hd & Hhh & Hmi & Hss).
  pose proof (daysInMonth_le y mo) as Hdim.
  exists t. split; [exact Hutc|].
  assert (Hdt : dtMsOfDigits (Str.onlyDigits (get r Alias.date)) = Some t).
  { rewrite Hdigits.
    destruct Htail as [(-> & -> & -> & ->) | (rest & ->)].
    - rewrite dtMsOfDigits_date by lia. exact Hutc.
    - rewrite dtMsOfDigits_date_time by lia. exact Hutc. }
  assert (Hlen : (8 <=? String.length (Str.onlyDigits (get r Alias.date)))%nat
                 = true).
  { rewrite Hdigits. unfold dateDigits, JSDate.pad4, JSDate.pad3, JSDate.pad2.
    cbv [String.append String.length]. reflexivity. }
  unfold timeAxis. rewrite Hj, Hlen, Hdt. simpl. do 3 f_equal.
  unfold JSDate.isoOfTime. rewrite HY, HM, HD, Hh, Hm, Hs, Hms.
  unfold JSDate.isoYear.
  replace ((0 <=? y) && (y <=? 9999)) with true
    by (symmetry; apply andb_true_iff; split; apply Z.leb_le; lia).
  replace (mo - 1 + 1) with mo by lia.
  reflexivity.
Qed.

Lemma calendar_date_is_kept_witness :
  let r := [("PLATFORM_NUMBER", "1001"); ("DATE", "2020-02-29 12:30:45")] in
  exists t,
    JSDate.UTC 2020 1 29 12 30 45 = Some t /\
    timeAxis r
      = Some (Some (juldOfTime t), Some "2020-02-29T12:30:45.000Z").
Proof.
  apply (calendar_date_is_kept
           [("PLATFORM_NUMBER", "1001"); ("DATE", "2020-02-29 12:30:45")]
           2020 2 29 12 30 45 "123045").
  - vm_compute. reflexivity.
  - vm_compute. reflexivity.
  - unfold validDate. vm_compute. repeat split; discriminate.
  - right. exists "". vm_compute. reflexivity.
Defined.

(** X24.  A year below 100 in the date column is taken by [Date.UTC] for
    a year of the twentieth century: the digits [00YY] give the year
    19YY in the ISO string and in the julian day. *)
Theorem calendar_year_below_100 (r : Row) (y mo d hh mi ss : Z)
  (tail : string) :
  toNumber (get r Alias.juld) = None ->
  Str.onlyDigits (get r Alias.date) = dateDigits y mo d +:+ tail ->
  0 <= y <= 99 ->
  validDate (1900 + y) mo d hh mi ss ->
  (tail = "" /\ hh = 0 /\ mi = 0 /\ ss = 0) \/
  (exists rest, tail = timeDigits hh mi ss +:+ rest) ->
  exists t,
    JSDate.UTC (1900 + y) (mo - 1) d hh mi ss = Some t /\
    timeAxis r
      = Some (Some (juldOfTime t),
              Some (isoOfFields (1900 + y) mo d hh mi ss)).
Proof.
  intros Hj Hdigits Hy Hvalid Htail.
  destruct (fields_of_UTC (1900 + y) mo d hh mi ss Hvalid)
    as (t & Hutc & HY & HM & HD & Hh & Hm & Hs & Hms).
  destruct Hvalid as (_ & Hmo & Hd & Hhh & Hmi & Hss).
  pose proof (daysInMonth_le (1900 + y) mo) as Hdim.
  assert (Hsame : JSDate.UTC y (mo - 1) d hh mi ss = Some t).
  { rewrite <- Hutc. unfold JSDate.UTC.
    replace ((0 <=? y) && (y <=? 99)) with true
      by (symmetry; apply andb_true_iff; split; apply Z.leb_le; lia).
    replace ((0 <=? 1900 + y) && (1900 + y <=? 99)) with false
      by (symmetry; apply andb_false_iff; right; apply Z.leb_gt; lia).
    reflexivity. }
  exists t. split; [exact Hutc|].
  assert (Hdt : dtMsOfDigits (Str.onlyDigits (get r Alias.date)) = Some t).
  { rewrite Hdigits.
    destruct Htail as [(-> & -> & -> & ->) | (rest & ->)].
    - rewrite dtMsOfDigits_date by lia. exact Hsame.
    - rewrite dtMsOfDigits_date_time by lia. exact Hsame. }
  assert (Hlen : (8 <=? String.length (Str.onlyDigits (get r Alias.date)))%nat
                 = true).
  { rewrite Hdigits. unfold dateDigits, JSDate.pad4, JSDate.pad3, JSDate.pad2.
    cbv [String.append String.length]. reflexivity. }
  unfold timeAxis. rewrite Hj, Hlen, Hdt. simpl. do 3 f_equal.
  unfold JSDate.isoOfTime. rewrite HY, HM, HD, Hh, Hm, Hs, Hms.
  unfold JSDate.isoYear.
  replace ((0 <=? 1900 + y) && (1900 + y <=? 9999)) with true
    by (symmetry; apply andb_true_iff; split; apply Z.leb_le; lia).
  replace (mo - 1 + 1) with mo by lia.
  reflexivity.
Qed.

Lemma calendar_year_below_100_witness :
  let r := [("PLATFORM_NUMBER", "1001"); ("DATE", "00500101")] in
  exists t,
    JSDate.UTC 1950 0 1 0 0 0 = Some t /\
    timeAxis r
      = Some (Some (juldOfTime t), Some "1950-01-01T00:00:00.000Z").
Proof.
  apply (calendar_year_below_100
           [("PLATFORM_NUMBER", "1001"); ("DATE", "00500101")]
           50 1 1 0 0 0 "").
  - vm_compute. reflexivity.
  - vm_compute. reflexivity.
  - lia.
  - unfold validDate. vm_compute. repeat split; discriminate.
  - left. repeat split.
Defined.

(** ** An exception in the row callback *)

Lemma readRows_thrown (st : SourceType) (rows : list Row) (m : IdMap)
  (r : Row) :
  In r rows -> onRow r = Thrown -> readRows st rows m = None.
Proof.
  revert m. induction rows as [|r0 rows IH]; intros m; [intros []|].
  intros [-> | Hin] Hr; simpl.
  - rewrite Hr. reflexivity.
  - destruct (onRow r0); [apply IH | reflexivity | apply IH]; assumption.
Qed.

Lemma readFiles_thrown (rowsOf : string -> list Row) (files : list string)
  (m : IdMap) (file : string) (r : Row) :
  In file files -> In r (rowsOf file) -> onRow r = Thrown ->
  readFiles rowsOf files m = None.
Proof.
  revert m. induction files as [|file0 files IH]; intros m; [intros []|].
  intros Hf Hr Ht. simpl.
  destruct (readRows (sourceTypeOf file0) (rowsOf file0) m) as [m1|] eqn:E;
    [|reflexivity].
  simpl. destruct Hf as [-> | Hf].
  - rewrite (readRows_thrown _ _ m r Hr Ht) in E. discriminate E.
  - exact (IH m1 Hf Hr Ht).
Qed.

(** A row that makes the callback throw ends the pass with an uncaught
    exception, and the process with it, whatever state the cache is in:
    the promise of the pass in flight is pending in the last state there
    is. *)
Lemma thrown_row_ends_process (fuel : nat) (fs : FileSystem)
  (dirname : string) (rowsOf : string -> list Row)
  (bgcFiles coreFiles : list string) (file : string) (r : Row)
  (st : State) (p : nat) :
  listFilesRecursive fuel fs (bgcRoot dirname) = Some bgcFiles ->
  listFilesRecursive fuel fs (coreRoot dirname) = Some coreFiles ->
  In file (bgcFiles ++ coreFiles) -> In r (rowsOf file) ->
  onRow r = Thrown ->
  reachable st -> isRunning p st = true ->
  passEnd fuel fs dirname rowsOf = Some Uncaught /\
  CACHE_BUILDING st = Some p /\
  promises st !! p = Some Pending /\
  settle st p Uncaught = Some Down /\
  request Down = None.
Proof.
  intros Hb Hc Hf Hr Ht Hreach Hrun.
  destruct (isRunning_inv st p (inv_reachable st Hreach) Hrun)
    as (Hcb & _ & _ & Hpend).
  split; [|split; [exact Hcb|]; split; [exact Hpend|]; split].
  - unfold passEnd. rewrite Hb, Hc. simpl.
    destruct (bgcFiles ++ coreFiles) as [|f0 fs0] eqn:E; [destruct Hf|].
    rewrite (readFiles_thrown rowsOf (f0 :: fs0) [] file r Hf Hr Ht).
    reflexivity.
  - unfold settle. rewrite Hrun. reflexivity.
  - reflexivity.
Qed.

(** C5 (a defect of the code).  One data row
    [PLATFORM_NUMBER=1001, LATITUDE=10, LONGITUDE=20, JULD=100007305.00001]
    has a julian day whose instant is 864 ms beyond the last instant of
    [Date], so [toISOString] throws in the row callback.  A request starts
    the pass; the exception leaves the listener of the [line] event, the
    pass ends with an uncaught exception and the process with it.  In the
    last state there is, the promise the waiters hold is still pending and
    [CACHE_BUILDING] still names it: the failure reaches no waiter, the
    cache is not empty again, and no later request is answered.  Had the
    promise of the pass been rejected instead, the cache would be empty,
    the waiters' promise rejected and the next request a fresh build, as
    the specification words it. *)
Theorem uncaught_exception_ends_process :
  let r := Sample.row "100007305.00001" in
  let rowsOf := fun _ : string => [r] in
  exists st,
    run init [Request] = Some st /\
    onRow r = Thrown /\
    passEnd 5 Sample.plainFs "/app" rowsOf = Some Uncaught /\
    CACHE_BUILDING st = Some 0%nat /\
    promises st !! 0%nat = Some Pending /\
    settle st 0%nat Uncaught = Some Down /\
    request Down = None /\
    exists st',
      settle st 0%nat (Rejects "RangeError") = Some (Up st') /\
      FLOATS_CACHE st' = None /\ CACHE_BUILDING st' = None /\
      promises st' !! 0%nat = Some (Rejected "RangeError") /\
      exists st'', request (Up st') = Some (1%nat, Up st'') /\
                   promises st'' !! 1%nat = Some Pending.
Proof.
  intros r rowsOf.
  assert (Ht : onRow r = Thrown) by (vm_compute; reflexivity).
  assert (Hreach : reachable (mkState None (Some 0%nat) [Pending] [0%nat])).
  { exists [Request]. reflexivity. }
  eexists. split; [reflexivity|]. split; [exact Ht|].
  destruct (thrown_row_ends_process 5 Sample.plainFs "/app" rowsOf
              ["/app/data/bgc/b.csv"] ["/app/data/core/c.csv"]
              "/app/data/bgc/b.csv" r _ 0%nat eq_refl eq_refl
              (or_introl eq_refl) (or_introl eq_refl) Ht Hreach eq_refl)
    as (H1 & H2 & H3 & H4 & H5).
  split; [exact H1|]. split; [exact H2|]. split; [exact H3|].
  split; [exact H4|]. split; [exact H5|].
  eexists. split; [reflexivity|]. repeat split.
  eexists. split; reflexivity.
Qed.

(** ** What counts as a number *)









(** What is read and what is not. *)
Example numeral_prefixes :
  toNumber "0x1A" = Some Num.zero /\ isNumeral "0x1A" = false /\
  toNumber "1,5" = Some (Num.ofZ 1) /\ isNumeral "1,5" = false /\
  toNumber "2024-01-01" = Some (Num.ofZ 2024) /\
  isNumeral "2024-01-01" = false /\
  toNumber "1500 dbar" = Some (Num.ofZ 1500) /\
  isNumeral "1500 dbar" = false /\
  toNumber "n/a" = None /\ beginsDecimal "n/a" = false /\
  toNumber "-12.5e1" = Some (Num.ofZ (-125)) /\ isNumeral "-12.5e1" = true /\
  isNumeral "5." = true /\ isNumeral "." = false /\ isNumeral "" = false.
Proof. repeat split; vm_compute; reflexivity. Qed.

(** ** From the text of a file to its record *)

(** A file with a quoted field, a blank line and a short line, read from
    its lines to the record: the comma inside the quotes stays in the
    organization, the date column gives the ISO string, the short line has
    no longitude and is skipped. *)
Example text_to_record :
  let lines :=
    ["PLATFORM_NUMBER, LATITUDE, LONGITUDE, DATE, ORG";
     "";
     "1001,10,20,2020-02-29 12:30:45," +:+ String quote "Kiel, DE"
       +:+ String quote "";
     "1001,11"] in
  exists f,
    loadFloatsStreaming 5 Sample.nestedFs "/app"
      (fun _ => parseCsvFileStream lines) = Some [f] /\
    id f = "1001" /\ type f = bgc /\
    map organization (history f) = ["Kiel, DE"] /\
    map dateIso (history f) = [Some "2020-02-29T12:30:45.000Z"].
Proof.
  eexists. split; [vm_compute; reflexivity|].
  repeat split; vm_compute; reflexivity.
Qed.
